(** * SMIOL: the asynchronous, collectively coordinated write pipeline

    A shallow embedding of [src/external/SMIOL/smiol.c] (built with
    [SMIOL_PNETCDF]; the [SMIOL_AGGREGATION] switch is a boolean argument of
    the functions it changes).

    Every function of the C file becomes a program in a small free monad:
    the reads and writes of the context and of the file object are explicit
    state passing over a [world], and every call that leaves the C file
    (parallel-netCDF, MPI, libc, pthread, the helpers of [smiol_async.h]) is a
    [call] answered by the environment.  A run of a program is its sequence of
    calls with their answers, so ordering properties are properties of
    traces, and a property proved for every trace holds whatever the backend,
    the peer ranks and the allocator answer. *)

From Stdlib Require Import ZArith List String Bool Lia.
From stdpp Require Import list.
Import ListNotations.
Local Open Scope string_scope.
Local Open Scope Z_scope.

(** ** Constants of smiol.c *)

Definition PNETCDF_DEFINE_MODE : Z := 0.
Definition PNETCDF_DATA_MODE : Z := 1.
Definition N_REQS : Z := 512.
Definition BUFSIZE : Z := 512 * 1024 * 1024.
Definition START_COUNT_READ : Z := 0.
Definition START_COUNT_WRITE : Z := 1.

(** Constants of pnetcdf.h and mpi.h (external libraries). *)
Definition NC_NOERR : Z := 0.
Definition NC_GLOBAL : Z := -1.
Definition NC_UNLIMITED : Z := 0.
Definition NC_CHAR : Z := 2.
Definition NC_INT : Z := 4.
Definition NC_FLOAT : Z := 5.
Definition NC_DOUBLE : Z := 6.
Definition NC_NOWRITE : Z := 0.
Definition NC_WRITE : Z := 1.
Definition NC_CLOBBER : Z := 0.
Definition NC_64BIT_DATA : Z := 32.
Definition MPI_SUCCESS : Z := 0.

(** The null communicator handle; its value is the MPI implementation's, and
    any fixed value serves here. *)
Definition MPI_COMM_NULL : Z := 0.

(** Modelled from the spec: the error-code enum ("SUCCESS, MALLOC_FAILURE,
    INVALID_ARGUMENT, MPI_ERROR, FORTRAN_ERROR, LIBRARY_ERROR, WRONG_ARG_TYPE,
    INSUFFICIENT_ARG, ASYNC_ERROR") is declared in a header that is not among
    the sources; its members are kept symbolic. *)
Inductive smiol_code : Type :=
| SMIOL_SUCCESS
| SMIOL_MALLOC_FAILURE
| SMIOL_INVALID_ARGUMENT
| SMIOL_MPI_ERROR
| SMIOL_FORTRAN_ERROR
| SMIOL_LIBRARY_ERROR
| SMIOL_WRONG_ARG_TYPE
| SMIOL_INSUFFICIENT_ARG
| SMIOL_ASYNC_ERROR.

(** An [int] returned by an API function: a member of the enum, or one of the
    literal integers that some paths return ([return 1;], [return -1;]). *)
Inductive retval : Type :=
| Code (c : smiol_code)
| Raw (z : Z).

(** Modelled from the spec: the variable-type enum ("REAL32 / REAL64 / INT32 /
    CHAR / UNKNOWN_VAR_TYPE") of the same absent header; [SMIOL_other_type]
    stands for any other [int] a caller may pass. *)
Inductive smiol_vartype : Type :=
| SMIOL_UNKNOWN_VAR_TYPE
| SMIOL_REAL32
| SMIOL_REAL64
| SMIOL_INT32
| SMIOL_CHAR
| SMIOL_other_type (z : Z).

(** Modelled from the spec: the "backend library kind" latched together with
    the backend error code ([lib_type] of the context). *)
Inductive smiol_library : Type :=
| SMIOL_LIBRARY_UNKNOWN
| SMIOL_LIBRARY_PNETCDF.

(** ** C integer conversions *)

Definition two_64 : Z := 2 ^ 64.

(** Conversion to [size_t] (64-bit unsigned). *)
Definition to_size_t (z : Z) : Z := z mod two_64.

(** Conversion to a 64-bit signed integer ([long], [MPI_Offset]). *)
Definition to_int64 (z : Z) : Z := (z + 2 ^ 63) mod two_64 - 2 ^ 63.

(** Conversion to [int]. *)
Definition to_int32 (z : Z) : Z := (z + 2 ^ 31) mod 2 ^ 32 - 2 ^ 31.

(** ** Data model *)

(** A heap array: its address and its contents. *)
Record carray : Type := mk_carray {
  a_ptr : Z;
  a_data : list Z
}.

(** [struct SMIOL_context]. *)
Record SMIOL_context : Type := mk_context {
  fcomm : Z;
  comm_size : Z;
  comm_rank : Z;
  num_io_tasks : Z;
  io_stride : Z;
  lib_ierr : Z;
  lib_type : smiol_library;
  async_io_comm : Z;
  async_group_comm : Z;
  ctx_checksum : Z
}.

(** [struct SMIOL_async_buffer], without its [next] link: the queue is a
    list.  [ab_self] is the address of the descriptor itself. *)
Record SMIOL_async_buffer : Type := mk_async_buffer {
  ab_self : Z;
  ab_ierr : Z;
  ab_ncidp : Z;
  ab_varidp : Z;
  ab_mpi_start : carray;
  ab_mpi_count : carray;
  ab_buf : Z;
  ab_bufsize : Z
}.

(** [struct SMIOL_file].  [reqs] is the request table: [N_REQS] slots on an
    I/O task, no slot (a null pointer) elsewhere.  [writer] is the thread
    handle, [None] for a null pointer.  The [context] pointer of the file is
    the context of the enclosing [world]. *)
Record SMIOL_file : Type := mk_file {
  frame : Z;
  io_task : Z;
  io_file_comm : Z;
  io_group_comm : Z;
  n_reqs : Z;
  reqs : list Z;
  mode : Z;
  ncidp : Z;
  state : Z;
  queue : list SMIOL_async_buffer;
  writer : option Z;
  active : Z;
  checksum : Z
}.

(** The memory one rank's code works on. *)
Record world : Type := mk_world {
  w_ctx : SMIOL_context;
  w_file : SMIOL_file
}.

(** [struct SMIOL_decomp]: [decomp_ptr] is the address of the object, the
    lists and arrays are held by address; the aggregation fields are
    meaningful only in an aggregation build. *)
Record SMIOL_decomp : Type := mk_decomp {
  decomp_ptr : Z;
  comp_list : Z;
  io_list : Z;
  io_start : Z;
  io_count : Z;
  agg_comm : Z;
  n_compute : Z;
  n_compute_agg : Z;
  counts : Z;
  displs : Z
}.

(** A pointer argument whose target the functions only test against NULL. *)
Inductive handle : Type :=
| NULL
| PTR.

(** Field updates. *)
Definition set_state (v : Z) (f : SMIOL_file) : SMIOL_file :=
  mk_file (frame f) (io_task f) (io_file_comm f) (io_group_comm f) (n_reqs f)
          (reqs f) (mode f) (ncidp f) v (queue f) (writer f) (active f)
          (checksum f).

Definition set_frame (v : Z) (f : SMIOL_file) : SMIOL_file :=
  mk_file v (io_task f) (io_file_comm f) (io_group_comm f) (n_reqs f)
          (reqs f) (mode f) (ncidp f) (state f) (queue f) (writer f) (active f)
          (checksum f).

Definition set_n_reqs (v : Z) (f : SMIOL_file) : SMIOL_file :=
  mk_file (frame f) (io_task f) (io_file_comm f) (io_group_comm f) v
          (reqs f) (mode f) (ncidp f) (state f) (queue f) (writer f) (active f)
          (checksum f).

Definition set_reqs (v : list Z) (f : SMIOL_file) : SMIOL_file :=
  mk_file (frame f) (io_task f) (io_file_comm f) (io_group_comm f) (n_reqs f)
          v (mode f) (ncidp f) (state f) (queue f) (writer f) (active f)
          (checksum f).

Definition set_queue (v : list SMIOL_async_buffer) (f : SMIOL_file) : SMIOL_file :=
  mk_file (frame f) (io_task f) (io_file_comm f) (io_group_comm f) (n_reqs f)
          (reqs f) (mode f) (ncidp f) (state f) v (writer f) (active f)
          (checksum f).

Definition set_writer (v : option Z) (f : SMIOL_file) : SMIOL_file :=
  mk_file (frame f) (io_task f) (io_file_comm f) (io_group_comm f) (n_reqs f)
          (reqs f) (mode f) (ncidp f) (state f) (queue f) v (active f)
          (checksum f).

Definition set_active (v : Z) (f : SMIOL_file) : SMIOL_file :=
  mk_file (frame f) (io_task f) (io_file_comm f) (io_group_comm f) (n_reqs f)
          (reqs f) (mode f) (ncidp f) (state f) (queue f) (writer f) v
          (checksum f).

(** [context->lib_type = t; context->lib_ierr = e]. *)
Definition set_lib_error (t : smiol_library) (e : Z) (c : SMIOL_context)
  : SMIOL_context :=
  mk_context (fcomm c) (comm_size c) (comm_rank c) (num_io_tasks c)
             (io_stride c) e t (async_io_comm c) (async_group_comm c)
             (ctx_checksum c).

Definition with_file (f : SMIOL_file) (w : world) : world :=
  mk_world (w_ctx w) f.

Definition with_ctx (c : SMIOL_context) (w : world) : world :=
  mk_world c (w_file w).

(** ** Calls that leave smiol.c *)

Inductive mpi_datatype : Type :=
| MPI_INT
| MPI_LONG
| MPI_BYTE.

Inductive direction : Type :=
| SMIOL_COMP_TO_IO
| SMIOL_IO_TO_COMP.

(** The two output cells of [SMIOL_inquire_dim]. *)
Inductive outcell : Type :=
| out_dimsize
| out_is_unlimited.

Inductive pthread_op : Type :=
| pthread_mutexattr_init
| pthread_mutex_init
| pthread_mutexattr_destroy
| pthread_condattr_init
| pthread_cond_init
| pthread_condattr_destroy
| pthread_mutex_destroy.

(** A call carries its input arguments.  A broadcast names the variable whose
    address is its buffer and carries what this rank contributes: the value
    its own backend call has just produced, or [None] on a rank that made no
    such call (there the buffer holds garbage or what an earlier broadcast
    left, and is overwritten). *)
Inductive call : Type :=
| ncmpi_create (comm : Z) (filename : string) (cmode : Z)
| ncmpi_open (comm : Z) (filename : string) (omode : Z)
| ncmpi_buffer_attach (ncid bufsize : Z)
| ncmpi_buffer_detach (ncid : Z)
| ncmpi_close (ncid : Z)
| ncmpi_redef (ncid : Z)
| ncmpi_enddef (ncid : Z)
| ncmpi_sync (ncid : Z)
| ncmpi_def_dim (ncid : Z) (name : string) (len : Z)
| ncmpi_inq_dimid (ncid : Z) (name : string)
| ncmpi_inq_dimlen (ncid dimid : Z)
| ncmpi_inq_unlimdim (ncid : Z)
| ncmpi_def_var (ncid : Z) (name : string) (xtype ndims : Z) (dimids : list Z)
| ncmpi_inq_varid (ncid : Z) (name : string)
| ncmpi_inq_vartype (ncid varid : Z)
| ncmpi_inq_varndims (ncid varid : Z)
| ncmpi_inq_vardimid (ncid varid : Z)
| ncmpi_inq_dimname (ncid dimid : Z)
| ncmpi_put_att (ncid varid : Z) (name : string) (xtype len att : Z)
| ncmpi_inq_att (ncid varid : Z) (name : string)
| ncmpi_get_att (ncid varid : Z) (name : string) (att : Z)
| ncmpi_get_vara_all (ncid varid : Z) (start count : list Z) (buf : Z)
| ncmpi_inq_buffer_usage (ncid : Z)
| ncmpi_wait_all (ncid n : Z) (requests : list Z)
| ncmpi_bput_vara (ncid varid : Z) (start count : list Z) (buf : Z)
| MPI_Bcast (buffer_name : string) (v : option Z) (count : Z) (t : mpi_datatype)
            (comm : Z)
| MPI_Bcast_chars (s : option string) (count : Z) (comm : Z)
| MPI_Bcast_buf (buf count comm : Z)
| MPI_Allreduce_sum (v comm : Z)
| MPI_Allreduce_max (v comm : Z)
| MPI_Comm_dup (comm : Z)
| MPI_Comm_free (comm : Z)
| MPI_Type_contiguous (n : Z)
| MPI_Type_commit (dtype : Z)
| MPI_Type_free (dtype : Z)
| MPI_Gatherv (sendbuf sendcount dtype recvbuf recvcounts rdispls comm : Z)
| MPI_Scatterv (sendbuf sendcounts sdispls dtype recvbuf recvcount comm : Z)
| transfer_field (d : SMIOL_decomp) (dir : direction) (element_size : Z)
                 (inbuf outbuf : Z)
| malloc (size : Z)
| free (p : Z)
| memcpy (dst src n : Z)
| strlen (p : Z)
| store (o : outcell) (v : Z)
| uninitialised
| uninitialised_chars
| fprintf_stderr (msg : string)
| pthread (op : pthread_op)
| sched_setaffinity
| SMIOL_async_ticket_lock
| SMIOL_async_ticket_unlock
| SMIOL_async_launch_thread
| SMIOL_async_join_thread (thread : option Z).

(** What the environment answers: the status of a backend or MPI call,
    together with the value it stores through its output pointer. *)
Definition result (c : call) : Type :=
  match c with
  | ncmpi_create _ _ _ | ncmpi_open _ _ _ | ncmpi_def_dim _ _ _
  | ncmpi_inq_dimid _ _ | ncmpi_inq_dimlen _ _ | ncmpi_inq_unlimdim _
  | ncmpi_def_var _ _ _ _ _ | ncmpi_inq_varid _ _ | ncmpi_inq_vartype _ _
  | ncmpi_inq_varndims _ _ | ncmpi_inq_buffer_usage _
  | ncmpi_bput_vara _ _ _ _ _ | MPI_Comm_dup _ | MPI_Type_contiguous _ =>
      (Z * Z)%type
  | ncmpi_inq_att _ _ _ => (Z * (Z * Z))%type
  | ncmpi_inq_vardimid _ _ => (Z * list Z)%type
  | ncmpi_inq_dimname _ _ => (Z * string)%type
  | MPI_Bcast_chars _ _ _ | uninitialised_chars => string
  | transfer_field _ _ _ _ _ => retval
  | free _ | memcpy _ _ _ | store _ _ | fprintf_stderr _ | sched_setaffinity
  | SMIOL_async_ticket_lock | SMIOL_async_ticket_unlock
  | SMIOL_async_join_thread _ => unit
  | _ => Z
  end.

(** ** Programs *)

Inductive prog (A : Type) : Type :=
| Ret (a : A)
| Crash
| Vis (c : call) (k : result c -> prog A).

Arguments Ret {A} a.
Arguments Crash {A}.
Arguments Vis {A} c k.

Fixpoint bind {A B : Type} (p : prog A) (f : A -> prog B) : prog B :=
  match p with
  | Ret a => f a
  | Crash => Crash
  | Vis c k => Vis c (fun r => bind (k r) f)
  end.

Definition do_call (c : call) : prog (result c) := Vis c Ret.

Declare Scope prog_scope.
Delimit Scope prog_scope with prog.
Bind Scope prog_scope with prog.
Notation "x <- p ;; q" := (bind p (fun x => q))
  (at level 100, p at next level, right associativity) : prog_scope.
Notation "p ;;; q" := (bind p (fun _ => q))
  (at level 100, right associativity) : prog_scope.
Local Open Scope prog_scope.

(** ** Traces *)

Inductive event : Type :=
| Ev (c : call) (r : result c).

Definition ev_call (e : event) : call :=
  match e with Ev c _ => c end.

Inductive outcome (A : Type) : Type :=
| Returned (a : A)
| Crashed.

Arguments Returned {A} a.
Arguments Crashed {A}.

(** [exec p tr o]: [tr] is a complete run of [p], the environment answering
    each call as the events say, and [o] is how the run ends. *)
Fixpoint exec {A : Type} (p : prog A) (tr : list event) (o : outcome A) : Prop :=
  match p with
  | Ret a => tr = [] /\ o = Returned a
  | Crash => tr = [] /\ o = Crashed
  | Vis c k => exists (r : result c) (tr' : list event),
      tr = Ev c r :: tr' /\ exec (k r) tr' o
  end.

(** An executable environment: a handler over a state of its own. *)
Definition handler (E : Type) : Type := forall c : call, E -> result c * E.

Fixpoint run {A E : Type} (h : handler E) (p : prog A) (e : E)
  : outcome A * list event :=
  match p with
  | Ret a => (Returned a, [])
  | Crash => (Crashed, [])
  | Vis c k =>
      let (r, e') := h c e in
      let (o, tr) := run h (k r) e' in
      (o, Ev c r :: tr)
  end.

Definition calls (tr : list event) : list call := map ev_call tr.

(** ** The asynchronous queue (smiol_async.h)

    Modelled from the spec: the bodies of [SMIOL_async_queue_add],
    [SMIOL_async_queue_empty] and [SMIOL_async_queue_remove] are not among the
    sources (only their prototypes are); the spec gives "add(descriptor)
    appends at tail; remove() -> descriptor|null pops head or returns null if
    empty; empty() -> bool". *)

Definition SMIOL_async_queue_add (q : list SMIOL_async_buffer)
  (b : SMIOL_async_buffer) : list SMIOL_async_buffer :=
  q ++ [b].

Definition SMIOL_async_queue_empty (q : list SMIOL_async_buffer) : Z :=
  match q with
  | [] => 1
  | _ :: _ => 0
  end.

Definition SMIOL_async_queue_remove (q : list SMIOL_async_buffer)
  : option SMIOL_async_buffer * list SMIOL_async_buffer :=
  match q with
  | [] => (None, [])
  | b :: q' => (Some b, q')
  end.

(** ** The writer thread: [async_write] *)

(** [sum_empty == 0 || sum_empty == file->context->num_io_tasks] *)
Definition unanimous (w : world) (sum_empty : Z) : bool :=
  (sum_empty =? 0) || (sum_empty =? num_io_tasks (w_ctx w)).

(** The part of an iteration that runs under the ticket lock, after the
    all-reduce has answered [sum_empty]: the descriptor taken from the queue
    (if any) and the file as it is left. *)
Definition async_write_dequeue (w : world) (sum_empty : Z)
  : option SMIOL_async_buffer * world :=
  if unanimous w sum_empty then
    let (async, q) := SMIOL_async_queue_remove (queue (w_file w)) in
    let f := set_queue q (w_file w) in
    match async with
    | None =>
        if n_reqs f =? 0 then (None, with_file (set_active 0 f) w)
        else (None, with_file f w)
    | Some a => (Some a, with_file f w)
    end
  else (None, w).

(** [ncmpi_wait_all(file->ncidp, file->n_reqs, file->reqs, statuses);
     file->n_reqs = 0;] *)
Definition flush_requests (w : world) : prog world :=
  let f := w_file w in
  _ <- do_call (ncmpi_wait_all (ncidp f) (n_reqs f) (reqs f)) ;;
  Ret (with_file (set_n_reqs 0 f) w).

(** The branch [if (async != NULL)]: the buffer-usage agreement, the
    conditional flush, the buffered put whose request lands in
    [file->reqs[file->n_reqs++]], and the release of the descriptor. *)
Definition async_write_put (a : SMIOL_async_buffer) (w : world) : prog world :=
  r <- do_call (ncmpi_inq_buffer_usage (ncidp (w_file w))) ;;
  let usage := to_int64 (snd r + ab_bufsize a) in
  let lusage := to_int64 usage in
  max_usage <- do_call (MPI_Allreduce_max lusage (async_io_comm (w_ctx w))) ;;
  w1 <- (if (max_usage >? BUFSIZE) || (n_reqs (w_file w) =? N_REQS)
         then flush_requests w else Ret w) ;;
  let f := w_file w1 in
  let slot := n_reqs f in
  if (0 <=? slot) && (slot <? Z.of_nat (length (reqs f))) then
    r <- do_call (ncmpi_bput_vara (ab_ncidp a) (ab_varidp a)
                    (a_data (ab_mpi_start a)) (a_data (ab_mpi_count a))
                    (ab_buf a)) ;;
    let f' := set_n_reqs (slot + 1)
                (set_reqs (<[Z.to_nat slot := snd r]> (reqs f)) f) in
    _ <- do_call (free (a_ptr (ab_mpi_start a))) ;;
    _ <- do_call (free (a_ptr (ab_mpi_count a))) ;;
    _ <- do_call (free (ab_buf a)) ;;
    _ <- do_call (free (ab_self a)) ;;
    Ret (with_file f' w1)
  else Crash.

(** One iteration of [while (file->active)]. *)
Definition async_write_iteration (w : world) : prog world :=
  _ <- do_call SMIOL_async_ticket_lock ;;
  let empty := SMIOL_async_queue_empty (queue (w_file w)) in
  sum_empty <- do_call (MPI_Allreduce_sum empty (async_io_comm (w_ctx w))) ;;
  let (async, w1) := async_write_dequeue w sum_empty in
  _ <- do_call SMIOL_async_ticket_unlock ;;
  if unanimous w sum_empty then
    match async with
    | Some a => async_write_put a w1
    | None => if n_reqs (w_file w1) >? 0 then flush_requests w1 else Ret w1
    end
  else Ret w1.

(** The loop, for at most [fuel] iterations; the boolean tells whether the
    loop condition was found false, that is, whether the thread function
    returned. *)
Fixpoint async_write_loop (fuel : nat) (w : world) : prog (bool * world) :=
  if active (w_file w) =? 0 then Ret (true, w)
  else match fuel with
       | O => Ret (false, w)
       | S n => w' <- async_write_iteration w ;; async_write_loop n w'
       end.

Definition async_write (fuel : nat) (w : world) : prog (bool * world) :=
  _ <- do_call sched_setaffinity ;;
  async_write_loop fuel w.

(** ** Idioms of the API functions *)

(** [file->context->lib_type = SMIOL_LIBRARY_PNETCDF;
     file->context->lib_ierr = ierr;] *)
Definition latch (ierr : Z) (w : world) : world :=
  with_ctx (set_lib_error SMIOL_LIBRARY_PNETCDF ierr (w_ctx w)) w.

(** [if (file->io_task) { ... }]: the guarded statement runs on an I/O task
    only; [None] says that it did not run and assigned nothing. *)
Definition on_io_task {X : Type} (f : SMIOL_file) (p : prog X) : prog (option X) :=
  if io_task f =? 0 then Ret None else x <- p ;; Ret (Some x).

(** Reading a local variable; one that was never assigned holds an
    indeterminate value, which the environment chooses. *)
Definition read_local (v : option Z) : prog Z :=
  match v with
  | Some x => Ret x
  | None => do_call uninitialised
  end.

(** [MPI_Bcast(&ierr, 1, MPI_INT, 0, MPI_Comm_f2c(file->io_group_comm))]: the
    group leader's status replaces the local one. *)
Definition bcast_ierr (f : SMIOL_file) (ierr : option Z) : prog Z :=
  do_call (MPI_Bcast "ierr" ierr 1 MPI_INT (io_group_comm f)).

(** The same for another [int] variable. *)
Definition bcast_int (f : SMIOL_file) (name : string) (v : option Z) : prog Z :=
  do_call (MPI_Bcast name v 1 MPI_INT (io_group_comm f)).

(** A step of a function body that either returns from the function
    ([inl]) or goes on with a value ([inr]). *)
Definition or_return {A B : Type} (p : prog (B + A)) (k : A -> prog B) : prog B :=
  x <- p ;;
  match x with
  | inl b => Ret b
  | inr a => k a
  end.

Notation "x <-! p ;; q" := (or_return p (fun x => q))
  (at level 100, p at next level, right associativity) : prog_scope.

Definition is_success (r : retval) : bool :=
  match r with
  | Code SMIOL_SUCCESS => true
  | _ => false
  end.

Fixpoint free_all (ps : list Z) : prog unit :=
  match ps with
  | [] => Ret tt
  | p :: rest => _ <- do_call (free p) ;; free_all rest
  end.

(** Modelled from the spec: [SMIOL_async_join_thread(&(file->writer))], whose
    body is not among the sources, "joins the writer": it returns once the
    writer thread function has returned.  The handle is passed by address and
    is left null. *)
Definition join_writer (w : world) : prog world :=
  _ <- do_call (SMIOL_async_join_thread (writer (w_file w))) ;;
  Ret (with_file (set_writer None (w_file w)) w).

(** Translation between SMIOL and parallel-netCDF variable types. *)
Definition nc_type_of (t : smiol_vartype) : option Z :=
  match t with
  | SMIOL_REAL32 => Some NC_FLOAT
  | SMIOL_REAL64 => Some NC_DOUBLE
  | SMIOL_INT32 => Some NC_INT
  | SMIOL_CHAR => Some NC_CHAR
  | _ => None
  end.

Definition smiol_type_of (xtype : Z) : smiol_vartype :=
  if xtype =? NC_FLOAT then SMIOL_REAL32
  else if xtype =? NC_DOUBLE then SMIOL_REAL64
  else if xtype =? NC_INT then SMIOL_INT32
  else if xtype =? NC_CHAR then SMIOL_CHAR
  else SMIOL_UNKNOWN_VAR_TYPE.

(** The block shared by [SMIOL_define_dim], [SMIOL_define_var] and
    [SMIOL_define_att]: "If the file is in data mode, then switch it to define
    mode". *)
Definition switch_to_define_mode (w : world) : prog ((retval * world) + world) :=
  let f := w_file w in
  if state f =? PNETCDF_DATA_MODE then
    r <- on_io_task f (do_call (ncmpi_redef (ncidp f))) ;;
    e <- bcast_ierr f r ;;
    if e =? NC_NOERR
    then Ret (inr (with_file (set_state PNETCDF_DEFINE_MODE f) w))
    else Ret (inl (Code SMIOL_LIBRARY_ERROR, latch e w))
  else Ret (inr w).

(** The block shared by [SMIOL_put_var], [SMIOL_get_var] and
    [SMIOL_sync_file]: "If the file is in define mode then switch it into data
    mode".  [cleanup] is what the caller frees on the error path. *)
Definition switch_to_data_mode (cleanup : prog unit) (w : world)
  : prog ((retval * world) + world) :=
  let f := w_file w in
  if state f =? PNETCDF_DEFINE_MODE then
    r <- on_io_task f (do_call (ncmpi_enddef (ncidp f))) ;;
    e <- bcast_ierr f r ;;
    if e =? NC_NOERR
    then Ret (inr (with_file (set_state PNETCDF_DATA_MODE f) w))
    else _ <- cleanup ;; Ret (inl (Code SMIOL_LIBRARY_ERROR, latch e w))
  else Ret (inr w).

(** ** SMIOL_define_dim *)

Definition SMIOL_define_dim (file : handle) (dimname : option string)
  (dimsize : Z) (w : world) : prog (retval * world) :=
  match file, dimname with
  | NULL, _ => Ret (Code SMIOL_INVALID_ARGUMENT, w)
  | PTR, None => Ret (Code SMIOL_INVALID_ARGUMENT, w)
  | PTR, Some name =>
      if dimsize =? 0 then Ret (Code SMIOL_INVALID_ARGUMENT, w)
      else
        let len := if dimsize <? 0 then NC_UNLIMITED else dimsize in
        w1 <-! switch_to_define_mode w ;;
        let f := w_file w1 in
        r <- on_io_task f (do_call (ncmpi_def_dim (ncidp f) name len)) ;;
        e <- bcast_ierr f (option_map fst r) ;;
        if e =? NC_NOERR then Ret (Code SMIOL_SUCCESS, w1)
        else Ret (Code SMIOL_LIBRARY_ERROR, latch e w1)
  end.

(** ** SMIOL_inquire_dim

    The two output pointers are options: [None] is a null pointer, [Some v]
    a cell holding [v]; the function returns the cells as it leaves them.
    Assignments through them are recorded as [store] calls. *)

Definition set_default (o : outcell) (p : option Z) : prog (option Z) :=
  match p with
  | None => Ret None
  | Some _ => _ <- do_call (store o 0) ;; Ret (Some 0)
  end.

(** [( *p) = v] without a null test. *)
Definition store_through (o : outcell) (p : option Z) (v : Z) : prog (option Z) :=
  match p with
  | None => Crash
  | Some _ => _ <- do_call (store o v) ;; Ret (Some v)
  end.

Definition inquire_dim_result : Type :=
  (retval * option Z * option Z * world)%type.

(** "Inquire if this dimension is the unlimited dimension" *)
Definition inquire_dim_unlimited (dimidp : option Z)
  (dimsize is_unlimited : option Z) (w : world) : prog inquire_dim_result :=
  let f := w_file w in
  match is_unlimited with
  | None => Ret (Code SMIOL_SUCCESS, dimsize, is_unlimited, w)
  | Some _ =>
      r <- on_io_task f (do_call (ncmpi_inq_unlimdim (ncidp f))) ;;
      e <- bcast_ierr f (option_map fst r) ;;
      if e =? NC_NOERR then
        unlimdimidp <- bcast_int f "unlimdimidp" (option_map snd r) ;;
        dimid <- bcast_int f "dimidp" dimidp ;;
        u <- store_through out_is_unlimited is_unlimited
               (if unlimdimidp =? dimid then 1 else 0) ;;
        Ret (Code SMIOL_SUCCESS, dimsize, u, w)
      else Ret (Code SMIOL_LIBRARY_ERROR, dimsize, is_unlimited, latch e w)
  end.

(** The part of [SMIOL_inquire_dim] under [#ifdef SMIOL_PNETCDF]. *)
Definition inquire_dim_pnetcdf (name : string) (dimsize is_unlimited : option Z)
  (w : world) : prog inquire_dim_result :=
  let f := w_file w in
  r <- on_io_task f (do_call (ncmpi_inq_dimid (ncidp f) name)) ;;
  e <- bcast_ierr f (option_map fst r) ;;
  let dimidp := option_map snd r in
  if e =? NC_NOERR then
    match dimsize with
    | None => inquire_dim_unlimited dimidp dimsize is_unlimited w
    | Some _ =>
        r2 <- on_io_task f (d <- read_local dimidp ;;
                            do_call (ncmpi_inq_dimlen (ncidp f) d)) ;;
        e2 <- bcast_ierr f (option_map fst r2) ;;
        if e2 =? NC_NOERR then
          len <- read_local (option_map snd r2) ;;
          _ <- store_through out_dimsize dimsize len ;;
          v <- do_call (MPI_Bcast "dimsize" (Some len) 1 MPI_LONG (io_group_comm f)) ;;
          inquire_dim_unlimited dimidp (Some v) is_unlimited w
        else
          d <- store_through out_dimsize dimsize (-1) ;;
          Ret (Code SMIOL_LIBRARY_ERROR, d, is_unlimited, latch e2 w)
    end
  else
    d <- store_through out_dimsize dimsize (-1) ;;
    Ret (Code SMIOL_LIBRARY_ERROR, d, is_unlimited, latch e w).

Definition SMIOL_inquire_dim (file : handle) (dimname : option string)
  (dimsize is_unlimited : option Z) (w : world) : prog inquire_dim_result :=
  match file, dimname with
  | NULL, _ => Ret (Code SMIOL_INVALID_ARGUMENT, dimsize, is_unlimited, w)
  | PTR, None => Ret (Code SMIOL_INVALID_ARGUMENT, dimsize, is_unlimited, w)
  | PTR, Some name =>
      match dimsize, is_unlimited with
      | None, None => Ret (Code SMIOL_INVALID_ARGUMENT, dimsize, is_unlimited, w)
      | _, _ =>
          d <- set_default out_dimsize dimsize ;;
          u <- set_default out_is_unlimited is_unlimited ;;
          inquire_dim_pnetcdf name d u w
      end
  end.

(** ** SMIOL_sync_file *)

Definition SMIOL_sync_file (file : handle) (w : world) : prog (retval * world) :=
  match file with
  | NULL => Ret (Code SMIOL_INVALID_ARGUMENT, w)
  | PTR =>
      if negb (checksum (w_file w) =? 42424242)
      then Ret (Code SMIOL_INVALID_ARGUMENT, w)
      else
        w0 <- join_writer w ;;
        w1 <-! switch_to_data_mode (Ret tt) w0 ;;
        let f := w_file w1 in
        r <- on_io_task f (do_call (ncmpi_sync (ncidp f))) ;;
        e <- bcast_ierr f r ;;
        if e =? NC_NOERR then Ret (Code SMIOL_SUCCESS, w1)
        else Ret (Code SMIOL_LIBRARY_ERROR, latch e w1)
  end.

(** ** SMIOL_define_var *)

(** "Build a list of dimension IDs": iterations [i .. i+n-1] of the loop. *)
Fixpoint define_var_dimids (n : nat) (i : Z) (dimnames : option (list string))
  (dimids_ptr : Z) (dimids : list Z) (w : world)
  : prog ((retval * world) + list Z) :=
  match n with
  | O => Ret (inr dimids)
  | S n' =>
      let f := w_file w in
      r <- on_io_task f
             match dimnames with
             | None => Crash
             | Some names =>
                 match names !! Z.to_nat i with
                 | None => Crash
                 | Some name => do_call (ncmpi_inq_dimid (ncidp f) name)
                 end
             end ;;
      e <- bcast_ierr f (option_map fst r) ;;
      if e =? NC_NOERR then
        define_var_dimids n' (i + 1) dimnames dimids_ptr
          (dimids ++ match r with Some x => [snd x] | None => [] end) w
      else
        _ <- do_call (free dimids_ptr) ;;
        Ret (inl (Code SMIOL_LIBRARY_ERROR, latch e w))
  end.

Definition SMIOL_define_var (file : handle) (varname : option string)
  (vartype : smiol_vartype) (ndims : Z) (dimnames : option (list string))
  (w : world) : prog (retval * world) :=
  match file, varname with
  | NULL, _ => Ret (Code SMIOL_INVALID_ARGUMENT, w)
  | PTR, None => Ret (Code SMIOL_INVALID_ARGUMENT, w)
  | PTR, Some name =>
      if match dimnames with None => ndims >? 0 | Some _ => false end
      then Ret (Code SMIOL_INVALID_ARGUMENT, w)
      else
        dimids_ptr <- do_call (malloc (to_size_t (4 * to_size_t ndims))) ;;
        if dimids_ptr =? 0 then Ret (Code SMIOL_MALLOC_FAILURE, w)
        else
          dimids <-! define_var_dimids (Z.to_nat ndims) 0 dimnames dimids_ptr
                       [] w ;;
          match nc_type_of vartype with
          | None =>
              _ <- do_call (free dimids_ptr) ;;
              Ret (Code SMIOL_INVALID_ARGUMENT, w)
          | Some xtype =>
              w1 <-! switch_to_define_mode w ;;
              let f := w_file w1 in
              r <- on_io_task f
                     (do_call (ncmpi_def_var (ncidp f) name xtype ndims dimids)) ;;
              e <- bcast_ierr f (option_map fst r) ;;
              _ <- do_call (free dimids_ptr) ;;
              if e =? NC_NOERR then Ret (Code SMIOL_SUCCESS, w1)
              else Ret (Code SMIOL_LIBRARY_ERROR, latch e w1)
          end
  end.

(** ** SMIOL_define_att *)

(** "If varname was provided, get the variable ID; else, the attribute is a
    global attribute" (shared with [SMIOL_inquire_att]). *)
Definition att_varid (varname : option string) (w : world)
  : prog ((retval * world) + option Z) :=
  let f := w_file w in
  match varname with
  | Some name =>
      r <- on_io_task f (do_call (ncmpi_inq_varid (ncidp f) name)) ;;
      e <- bcast_ierr f (option_map fst r) ;;
      if e =? NC_NOERR then Ret (inr (option_map snd r))
      else Ret (inl (Code SMIOL_LIBRARY_ERROR, latch e w))
  | None => Ret (inr (Some NC_GLOBAL))
  end.

Definition SMIOL_define_att (file : handle) (varname att_name : option string)
  (att_type : smiol_vartype) (att : option Z) (w : world)
  : prog (retval * world) :=
  match file, att_name, att with
  | PTR, Some aname, Some attp =>
      varidp <-! att_varid varname w ;;
      match nc_type_of att_type with
      | None => Ret (Code SMIOL_INVALID_ARGUMENT, w)
      | Some xtype =>
          w1 <-! switch_to_define_mode w ;;
          let f := w_file w1 in
          r <- on_io_task f
                 (v <- read_local varidp ;;
                  match att_type with
                  | SMIOL_CHAR =>
                      n <- do_call (strlen attp) ;;
                      do_call (ncmpi_put_att (ncidp f) v aname xtype n attp)
                  | _ => do_call (ncmpi_put_att (ncidp f) v aname xtype 1 attp)
                  end) ;;
          e <- bcast_ierr f r ;;
          if e =? NC_NOERR then Ret (Code SMIOL_SUCCESS, w1)
          else Ret (Code SMIOL_LIBRARY_ERROR, latch e w1)
      end
  | _, _, _ => Ret (Code SMIOL_INVALID_ARGUMENT, w)
  end.

(** ** SMIOL_inquire_att *)

Definition inquire_att_result : Type :=
  (retval * option smiol_vartype * option Z * world)%type.

(** "Inquire about attribute value if requested" *)
Definition inquire_att_value (varidp : option Z) (aname : string)
  (att : option Z) (xtypep lenp : option Z) (att_type : option smiol_vartype)
  (att_len : option Z) (w : world) : prog inquire_att_result :=
  let f := w_file w in
  match att with
  | None => Ret (Code SMIOL_SUCCESS, att_type, att_len, w)
  | Some attp =>
      r <- on_io_task f (v <- read_local varidp ;;
                         do_call (ncmpi_get_att (ncidp f) v aname attp)) ;;
      e <- bcast_ierr f r ;;
      if e =? NC_NOERR then
        x <- read_local xtypep ;;
        _ <- (if x =? NC_FLOAT then do_call (MPI_Bcast_buf attp 4 (io_group_comm f))
              else if x =? NC_DOUBLE then do_call (MPI_Bcast_buf attp 8 (io_group_comm f))
              else if x =? NC_INT then do_call (MPI_Bcast_buf attp 4 (io_group_comm f))
              else if x =? NC_CHAR then
                     n <- read_local lenp ;;
                     do_call (MPI_Bcast_buf attp (to_int32 n) (io_group_comm f))
              else Ret 0) ;;
        Ret (Code SMIOL_SUCCESS, att_type, att_len, w)
      else Ret (Code SMIOL_LIBRARY_ERROR, att_type, att_len, latch e w)
  end.

Definition SMIOL_inquire_att (file : handle) (varname att_name : option string)
  (att_type : option smiol_vartype) (att_len : option Z) (att : option Z)
  (w : world) : prog inquire_att_result :=
  match file, att_name with
  | PTR, Some aname =>
      let att_len0 := option_map (fun _ => -1) att_len in
      let att_type0 := option_map (fun _ => SMIOL_UNKNOWN_VAR_TYPE) att_type in
      let f := w_file w in
      x <- att_varid varname w ;;
      match x with
      | inl (rv, w1) => Ret (rv, att_type0, att_len0, w1)
      | inr varidp =>
          match att, att_type, att_len with
          | None, None, None =>
              inquire_att_value varidp aname att None None att_type0 att_len0 w
          | _, _, _ =>
              r <- on_io_task f (v <- read_local varidp ;;
                                 do_call (ncmpi_inq_att (ncidp f) v aname)) ;;
              e <- bcast_ierr f (option_map fst r) ;;
              if e =? NC_NOERR then
                lenp <- do_call (MPI_Bcast "lenp" (option_map (fun y => snd (snd y)) r)
                                   8 MPI_BYTE (io_group_comm f)) ;;
                xtypep <- do_call (MPI_Bcast "xtypep" (option_map (fun y => fst (snd y)) r)
                                     4 MPI_BYTE (io_group_comm f)) ;;
                inquire_att_value varidp aname att (Some xtypep) (Some lenp)
                  (option_map (fun _ => smiol_type_of xtypep) att_type0)
                  (option_map (fun _ => lenp) att_len0) w
              else Ret (Code SMIOL_LIBRARY_ERROR, att_type0, att_len0, latch e w)
          end
      end
  | _, _ => Ret (Code SMIOL_INVALID_ARGUMENT, att_type, att_len, w)
  end.

(** ** SMIOL_inquire_var *)

(** A caller-provided [char *]: a null pointer, or a buffer of [capacity]
    bytes whose content is known ([Some], the string that it holds) or not
    yet written ([None]). *)
Inductive char_buffer : Type :=
| null_buffer
| buffer (capacity : Z) (content : option string).

(** A string takes one byte for each character and one for its terminator. *)
Definition fits (capacity : Z) (s : string) : bool :=
  Z.of_nat (String.length s) <? capacity.

(** The string that a buffer holds.  Where the code reads it ([reads]), the
    read runs up to the terminator, which lies beyond the buffer when the
    string does not fit. *)
Definition read_string (reads : bool) (capacity : Z) (content : option string)
  : prog string :=
  s <- match content with
       | Some s => Ret s
       | None => do_call uninitialised_chars
       end ;;
  if negb reads || fits capacity s then Ret s else Crash.

Definition inquire_var_result : Type :=
  (retval * option smiol_vartype * option Z * option (list char_buffer) * world)%type.

(** Iterations [i .. i+n-1] of the loop over the dimension names, and the
    [free(dimids)] that follows it. *)
Fixpoint inquire_var_dimnames (n : nat) (i : Z) (dimids_ptr : Z)
  (dimids : option (list Z)) (dimnames : list char_buffer) (w : world)
  : prog (retval * list char_buffer * world) :=
  match n with
  | O => _ <- do_call (free dimids_ptr) ;; Ret (Code SMIOL_SUCCESS, dimnames, w)
  | S n' =>
      let f := w_file w in
      match dimnames !! Z.to_nat i with
      | None => Crash
      | Some null_buffer => Ret (Code SMIOL_INVALID_ARGUMENT, dimnames, w)
      | Some (buffer capacity content) =>
          r <- on_io_task f
                 (d <- read_local (match dimids with
                                   | Some l => l !! Z.to_nat i
                                   | None => None
                                   end) ;;
                  do_call (ncmpi_inq_dimname (ncidp f) d)) ;;
          e <- bcast_ierr f (option_map fst r) ;;
          let content1 := match r with
                          | Some x => Some (snd x)
                          | None => content
                          end in
          if e =? NC_NOERR then
            (* the call has written the name with its terminator through
               [dimnames[i]] (on an I/O task, the root of the broadcast, [e]
               is the status of the call), and the broadcast transfers 64
               bytes of the buffer *)
            if match r with
               | Some x => negb (fits capacity (snd x))
               | None => false
               end || (capacity <? 64)
            then Crash
            else
              s <- do_call (MPI_Bcast_chars content1 64 (io_group_comm f)) ;;
              inquire_var_dimnames n' (i + 1) dimids_ptr dimids
                (<[Z.to_nat i := buffer capacity (Some s)]> dimnames) w
          else
            _ <- do_call (free dimids_ptr) ;;
            Ret (Code SMIOL_LIBRARY_ERROR,
                 <[Z.to_nat i := buffer capacity content1]> dimnames, latch e w)
      end
  end.

Definition SMIOL_inquire_var (file : handle) (varname : option string)
  (vartype : option smiol_vartype) (ndims : option Z)
  (dimnames : option (list char_buffer)) (w : world) : prog inquire_var_result :=
  match file, varname with
  | PTR, Some name =>
      match vartype, ndims, dimnames with
      | None, None, None => Ret (Code SMIOL_SUCCESS, vartype, ndims, dimnames, w)
      | _, _, _ =>
          let vartype0 := option_map (fun _ => SMIOL_UNKNOWN_VAR_TYPE) vartype in
          let ndims0 := option_map (fun _ => 0) ndims in
          let f := w_file w in
          r <- on_io_task f (do_call (ncmpi_inq_varid (ncidp f) name)) ;;
          e <- bcast_ierr f (option_map fst r) ;;
          let varidp := option_map snd r in
          if negb (e =? NC_NOERR)
          then Ret (Code SMIOL_LIBRARY_ERROR, vartype0, ndims0, dimnames, latch e w)
          else
            (* "If requested, inquire about variable type" *)
            vartype1 <-! match vartype0 with
                  | None => Ret (inr vartype0)
                  | Some _ =>
                      r1 <- on_io_task f
                              (v <- read_local varidp ;;
                               do_call (ncmpi_inq_vartype (ncidp f) v)) ;;
                      e1 <- bcast_ierr f (option_map fst r1) ;;
                      if e1 =? NC_NOERR then
                        xtypep <- bcast_int f "xtypep" (option_map snd r1) ;;
                        Ret (inr (Some (smiol_type_of xtypep)))
                      else Ret (inl (Code SMIOL_LIBRARY_ERROR, vartype0, ndims0,
                                     dimnames, latch e1 w))
                  end ;;
            (* "All remaining properties will require the number of dimensions" *)
            ndimsp <-! match ndims, dimnames with
                  | None, None => Ret (inr None)
                  | _, _ =>
                      r2 <- on_io_task f
                              (v <- read_local varidp ;;
                               do_call (ncmpi_inq_varndims (ncidp f) v)) ;;
                      e2 <- bcast_ierr f (option_map fst r2) ;;
                      if e2 =? NC_NOERR then
                        n <- bcast_int f "ndimsp" (option_map snd r2) ;;
                        Ret (inr (Some n))
                      else Ret (inl (Code SMIOL_LIBRARY_ERROR, vartype1, ndims0,
                                     dimnames, latch e2 w))
                  end ;;
            let ndims1 := match ndims0 with Some _ => ndimsp | None => None end in
            (* "If requested, inquire about dimension names" *)
            match dimnames with
            | None => Ret (Code SMIOL_SUCCESS, vartype1, ndims1, dimnames, w)
            | Some names =>
                nd <- read_local ndimsp ;;
                dimids_ptr <- do_call (malloc (to_size_t (4 * to_size_t nd))) ;;
                if dimids_ptr =? 0
                then Ret (Code SMIOL_MALLOC_FAILURE, vartype1, ndims1, dimnames, w)
                else
                  r3 <- on_io_task f
                          (v <- read_local varidp ;;
                           do_call (ncmpi_inq_vardimid (ncidp f) v)) ;;
                  e3 <- bcast_ierr f (option_map fst r3) ;;
                  if e3 =? NC_NOERR then
                    z <- inquire_var_dimnames (Z.to_nat nd) 0 dimids_ptr
                           (option_map snd r3) names w ;;
                    let '(rv, names', w') := z in
                    Ret (rv, vartype1, ndims1, Some names', w')
                  else
                    _ <- do_call (free dimids_ptr) ;;
                    Ret (Code SMIOL_LIBRARY_ERROR, vartype1, ndims1, dimnames,
                         latch e3 w)
            end
      end
  | _, _ => Ret (Code SMIOL_INVALID_ARGUMENT, vartype, ndims, dimnames, w)
  end.

(** ** build_start_count *)

(** What [build_start_count] stores through its output pointers. *)
Record start_count : Type := mk_start_count {
  sc_element_size : Z;
  sc_ndims : Z;
  sc_start : carray;
  sc_count : carray
}.

(** "Set basic size of each element in the field" *)
Definition basic_element_size (t : smiol_vartype) : Z :=
  match t with
  | SMIOL_REAL32 => 4
  | SMIOL_REAL64 => 8
  | SMIOL_INT32 => 4
  | SMIOL_CHAR => 1
  | _ => 1
  end.

(** The body of the loop "Build start/count description of the part of the
    variable to be read or written" for axis [i], whose size is [dimsize]:
    the values left in [start[i]] and [count[i]], and [*element_size]. *)
Definition start_count_axis (file_frame rank : Z) (decomp : option SMIOL_decomp)
  (write_or_read has_unlimited_dim : Z) (i dimsize element_size : Z)
  : Z * Z * Z :=
  let unlimited := negb (has_unlimited_dim =? 0) in
  let s0 := 0 in
  let c0 := to_size_t dimsize in
  let (s1, c1) := if unlimited && (i =? 0) then (to_size_t file_frame, 1)
                  else (s0, c0) in
  let '(s2, c2, es) :=
    match decomp with
    | Some d =>
        if (negb unlimited && (i =? 0)) || (unlimited && (i =? 1))
        then (io_start d, io_count d, element_size)
        else (s1, c1, to_size_t (element_size * c1))
    | None => (s1, c1, to_size_t (element_size * c1))
    end in
  let c3 := if write_or_read =? START_COUNT_WRITE
            then match decomp with
                 | None => if negb (rank =? 0) then 0 else c2
                 | Some _ => c2
                 end
            else c2 in
  (s2, c3, es).

(** The loop itself, from axis [i] on, over the sizes of the remaining
    axes; [start] and [count] are the arrays being filled. *)
Fixpoint start_count_loop (file_frame rank : Z) (decomp : option SMIOL_decomp)
  (write_or_read has_unlimited_dim : Z) (i : nat) (dimsizes : list Z)
  (element_size : Z) (start count : list Z) : Z * list Z * list Z :=
  match dimsizes with
  | [] => (element_size, start, count)
  | d :: rest =>
      let '(s, c, es) := start_count_axis file_frame rank decomp write_or_read
                           has_unlimited_dim (Z.of_nat i) d element_size in
      start_count_loop file_frame rank decomp write_or_read has_unlimited_dim
        (S i) rest es (<[i := s]> start) (<[i := c]> count)
  end.

(** [dimnames[i] = malloc(sizeof(char) * 64)] for [n] more names; on failure
    the names allocated so far and the array are released. *)
Fixpoint alloc_dimnames (n : nat) (allocated : list Z) (dimnames_ptr : Z)
  : prog (option (list Z)) :=
  match n with
  | O => Ret (Some allocated)
  | S n' =>
      p <- do_call (malloc 64) ;;
      if p =? 0 then
        _ <- free_all allocated ;;
        _ <- do_call (free dimnames_ptr) ;;
        Ret None
      else alloc_dimnames n' (allocated ++ [p]) dimnames_ptr
  end.

(** The loop "inquiring about dimensions from last to first": axes
    [n-1 .. 0]. *)
Fixpoint inquire_dimsizes (n : nat) (file : handle) (names : list char_buffer)
  (dimsizes : list Z) (has_unlimited_dim : Z) (w : world)
  : prog (retval * list Z * Z * world) :=
  match n with
  | O => Ret (Code SMIOL_SUCCESS, dimsizes, has_unlimited_dim, w)
  | S i =>
      name <- match names !! i with
              | None => Crash
              | Some null_buffer => Ret None
              | Some (buffer capacity content) =>
                  (* the name is read by [ncmpi_inq_dimid], on an I/O task *)
                  let reads := match file with
                               | PTR => negb (io_task (w_file w) =? 0)
                               | NULL => false
                               end in
                  s <- read_string reads capacity content ;; Ret (Some s)
              end ;;
      r <- SMIOL_inquire_dim file name (dimsizes !! i) (Some has_unlimited_dim) w ;;
      let '(rv, d, u, w1) := r in
      let dimsizes1 := match d with
                       | Some v => <[i := v]> dimsizes
                       | None => dimsizes
                       end in
      let has_unlimited_dim1 := default has_unlimited_dim u in
      if is_success rv
      then inquire_dimsizes i file names dimsizes1 has_unlimited_dim1 w1
      else Ret (rv, dimsizes1, has_unlimited_dim1, w1)
  end.

Definition build_start_count (file : handle) (varname : option string)
  (decomp : option SMIOL_decomp) (write_or_read : Z) (w : world)
  : prog ((retval + start_count) * world) :=
  r <- SMIOL_inquire_var file varname (Some SMIOL_UNKNOWN_VAR_TYPE) (Some 0)
         None w ;;
  let '(rv, vartype, ndims_out, _, w1) := r in
  if negb (is_success rv) then Ret (inl rv, w1)
  else
    let ndims := default 0 ndims_out in
    let n := Z.to_nat ndims in
    dimnames_ptr <- do_call (malloc (to_size_t (8 * to_size_t ndims))) ;;
    if dimnames_ptr =? 0 then Ret (inl (Code SMIOL_MALLOC_FAILURE), w1)
    else
      bufs <- alloc_dimnames n [] dimnames_ptr ;;
      match bufs with
      | None => Ret (inl (Code SMIOL_MALLOC_FAILURE), w1)
      | Some ptrs =>
          r2 <- SMIOL_inquire_var file varname None None
                  (Some (map (fun _ => buffer 64 None) ptrs)) w1 ;;
          let '(rv2, _, _, names_out, w2) := r2 in
          if negb (is_success rv2) then
            _ <- free_all ptrs ;;
            _ <- do_call (free dimnames_ptr) ;;
            Ret (inl rv2, w2)
          else
            dimsizes_ptr <- do_call (malloc (to_size_t (8 * to_size_t ndims))) ;;
            if dimsizes_ptr =? 0 then Ret (inl (Code SMIOL_MALLOC_FAILURE), w2)
            else
              r3 <- inquire_dimsizes n file (default [] names_out)
                      (replicate n 0) 0 w2 ;;
              let '(rv3, dimsizes, has_unlimited_dim, w3) := r3 in
              if negb (is_success rv3) then
                _ <- free_all ptrs ;;
                _ <- do_call (free dimnames_ptr) ;;
                _ <- do_call (free dimsizes_ptr) ;;
                Ret (inl rv3, w3)
              else
                _ <- free_all ptrs ;;
                _ <- do_call (free dimnames_ptr) ;;
                let es0 := basic_element_size (default SMIOL_UNKNOWN_VAR_TYPE vartype) in
                start_ptr <- do_call (malloc (to_size_t (8 * to_size_t ndims))) ;;
                if start_ptr =? 0 then
                  _ <- do_call (free dimsizes_ptr) ;;
                  Ret (inl (Code SMIOL_MALLOC_FAILURE), w3)
                else
                  count_ptr <- do_call (malloc (to_size_t (8 * to_size_t ndims))) ;;
                  if count_ptr =? 0 then
                    (* [free(start)] releases the caller's pointer variable,
                       which is not heap memory *)
                    _ <- do_call (free dimsizes_ptr) ;;
                    Crash
                  else
                    let '(es, start, count) :=
                      start_count_loop (frame (w_file w3)) (comm_rank (w_ctx w3))
                        decomp write_or_read has_unlimited_dim 0 dimsizes es0
                        (replicate n 0) (replicate n 0) in
                    _ <- do_call (free dimsizes_ptr) ;;
                    Ret (inr (mk_start_count es ndims
                                (mk_carray start_ptr start)
                                (mk_carray count_ptr count)), w3)
      end.

(** ** SMIOL_put_var *)

(** [sizeof(struct SMIOL_async_buffer)] (the struct is declared in an absent
    header; the value only labels the allocation). *)
Definition sizeof_async_buffer : Z := 56.

(** In an aggregation build: gather the compute buffer into [agg_buf]. *)
Definition put_var_aggregate (d : SMIOL_decomp) (buf element_size : Z)
  (w : world) : prog ((retval * world) + Z) :=
  r <- do_call (MPI_Type_contiguous (to_int32 element_size)) ;;
  if negb (fst r =? MPI_SUCCESS) then
    _ <- do_call (fprintf_stderr "MPI_Type_contiguous failed") ;;
    Ret (inl (Raw 1, w))
  else
    let dtype := snd r in
    e1 <- do_call (MPI_Type_commit dtype) ;;
    if negb (e1 =? MPI_SUCCESS) then
      _ <- do_call (fprintf_stderr "MPI_Type_commit failed") ;;
      Ret (inl (Raw 1, w))
    else
      agg_buf <- do_call (malloc (to_size_t (element_size * n_compute_agg d))) ;;
      e2 <- do_call (MPI_Gatherv buf (to_int32 (n_compute d)) dtype agg_buf
                       (counts d) (displs d) (agg_comm d)) ;;
      if negb (e2 =? MPI_SUCCESS) then
        _ <- do_call (fprintf_stderr "MPI_Gatherv failed") ;;
        Ret (inl (Raw 1, w))
      else
        e3 <- do_call (MPI_Type_free dtype) ;;
        if negb (e3 =? MPI_SUCCESS) then
          _ <- do_call (fprintf_stderr "MPI_Type_free failed") ;;
          Ret (inl (Raw 1, w))
        else Ret (inr agg_buf).

(** "Communicate elements of this field from MPI ranks that compute those
    elements to MPI ranks that write those elements": the address of
    [out_buf]. *)
Definition put_var_transfer (agg : bool) (d : SMIOL_decomp) (buf : Z)
  (sc : start_count) (w : world) : prog ((retval * world) + Z) :=
  let es := sc_element_size sc in
  out_buf <- do_call (malloc (to_size_t (es * io_count d))) ;;
  if out_buf =? 0 then
    _ <- do_call (free (a_ptr (sc_start sc))) ;;
    _ <- do_call (free (a_ptr (sc_count sc))) ;;
    Ret (inl (Code SMIOL_MALLOC_FAILURE, w))
  else
    x <- (if agg then put_var_aggregate d buf es w else Ret (inr buf)) ;;
    match x with
    | inl b => Ret (inl b)
    | inr agg_buf =>
        e <- do_call (transfer_field d SMIOL_COMP_TO_IO es agg_buf out_buf) ;;
        if negb (is_success e) then
          _ <- do_call (free (a_ptr (sc_start sc))) ;;
          _ <- do_call (free (a_ptr (sc_count sc))) ;;
          _ <- do_call (free out_buf) ;;
          Ret (inl (e, w))
        else
          _ <- (if agg then do_call (free agg_buf) else Ret tt) ;;
          Ret (inr out_buf)
    end.

(** The critical section of [SMIOL_put_var]: under the ticket lock, append
    the descriptor and, if no writer is active, join the previous writer and
    launch a new one.

    Modelled from the spec: [SMIOL_async_launch_thread(&(file->writer), ...)],
    whose body is not among the sources, launches the writer and leaves its
    handle in [file->writer]. *)
Definition put_var_enqueue (a : SMIOL_async_buffer) (w : world) : prog world :=
  _ <- do_call SMIOL_async_ticket_lock ;;
  let w0 := with_file (set_queue (SMIOL_async_queue_add (queue (w_file w)) a)
                         (w_file w)) w in
  w2 <- (if active (w_file w0) =? 0 then
           w1 <- join_writer w0 ;;
           th <- do_call SMIOL_async_launch_thread ;;
           Ret (with_file (set_writer (Some th) (set_active 1 (w_file w1))) w1)
         else Ret w0) ;;
  _ <- do_call SMIOL_async_ticket_unlock ;;
  Ret w2.

(** The block [if (file->io_task) { ... }] that builds the descriptor and
    queues it. *)
Definition put_var_queue (decomp : option SMIOL_decomp) (buf out_buf : Z)
  (varidp : option Z) (sc : start_count) (w : world)
  : prog ((retval * world) + world) :=
  let f := w_file w in
  let es := sc_element_size sc in
  buf_p <- match decomp with
           | Some _ => Ret out_buf
           | None =>
               p <- do_call (malloc es) ;;
               if p =? 0 then Crash
               else _ <- do_call (memcpy p buf es) ;; Ret p
           end ;;
  mpi_start <- do_call (malloc (to_size_t (8 * to_size_t (sc_ndims sc)))) ;;
  if mpi_start =? 0 then
    _ <- do_call (free (a_ptr (sc_start sc))) ;;
    _ <- do_call (free (a_ptr (sc_count sc))) ;;
    Ret (inl (Code SMIOL_MALLOC_FAILURE, w))
  else
    mpi_count <- do_call (malloc (to_size_t (8 * to_size_t (sc_ndims sc)))) ;;
    if mpi_count =? 0 then
      _ <- do_call (free (a_ptr (sc_start sc))) ;;
      _ <- do_call (free (a_ptr (sc_count sc))) ;;
      _ <- do_call (free mpi_start) ;;
      Ret (inl (Code SMIOL_MALLOC_FAILURE, w))
    else
      async <- do_call (malloc sizeof_async_buffer) ;;
      if async =? 0 then Crash
      else
        v <- read_local varidp ;;
        let a := mk_async_buffer async 0 (ncidp f) v
                   (mk_carray mpi_start (map to_int64 (a_data (sc_start sc))))
                   (mk_carray mpi_count (map to_int64 (a_data (sc_count sc))))
                   buf_p
                   match decomp with
                   | Some d => to_size_t (io_count d * es)
                   | None => es
                   end in
        w1 <- put_var_enqueue a w ;;
        Ret (inr w1).

Definition SMIOL_put_var (agg : bool) (file : handle) (varname : option string)
  (decomp : option SMIOL_decomp) (buf : Z) (w : world) : prog (retval * world) :=
  match file, varname with
  | PTR, Some name =>
      r <- build_start_count file varname decomp START_COUNT_WRITE w ;;
      match r with
      | (inl rv, w1) => Ret (rv, w1)
      | (inr sc, w1) =>
          out_buf <-! match decomp with
                      | None => Ret (inr 0)
                      | Some d => put_var_transfer agg d buf sc w1
                      end ;;
          let cleanup :=
            _ <- match decomp with
                 | Some _ => do_call (free out_buf)
                 | None => Ret tt
                 end ;;
            _ <- do_call (free (a_ptr (sc_start sc))) ;;
            do_call (free (a_ptr (sc_count sc))) in
          w2 <-! switch_to_data_mode cleanup w1 ;;
          let f := w_file w2 in
          r1 <- on_io_task f (do_call (ncmpi_inq_varid (ncidp f) name)) ;;
          e <- bcast_ierr f (option_map fst r1) ;;
          if negb (e =? NC_NOERR) then
            _ <- cleanup ;;
            Ret (Code SMIOL_LIBRARY_ERROR, latch e w2)
          else
            w3 <-! (if io_task f =? 0 then Ret (inr w2)
                    else put_var_queue decomp buf out_buf (option_map snd r1)
                           sc w2) ;;
            _ <- do_call (free (a_ptr (sc_start sc))) ;;
            _ <- do_call (free (a_ptr (sc_count sc))) ;;
            Ret (Code SMIOL_SUCCESS, w3)
      end
  | _, _ => Ret (Code SMIOL_INVALID_ARGUMENT, w)
  end.

(** ** SMIOL_get_var *)

(** "Communicate elements of this field from MPI ranks that read those
    elements to MPI ranks that compute those elements"; in an aggregation
    build [ierr] ends as the status of [MPI_Type_free], which is
    [MPI_SUCCESS] on the path that reaches the last test, so that test does
    not return. *)
Definition get_var_transfer (agg : bool) (d : SMIOL_decomp) (buf in_buf es : Z)
  (w : world) : prog (retval * world) :=
  if agg then
    r <- do_call (MPI_Type_contiguous (to_int32 es)) ;;
    if negb (fst r =? MPI_SUCCESS) then
      _ <- do_call (fprintf_stderr "MPI_Type_contiguous failed") ;;
      Ret (Raw 1, w)
    else
      let dtype := snd r in
      e1 <- do_call (MPI_Type_commit dtype) ;;
      if negb (e1 =? MPI_SUCCESS) then
        _ <- do_call (fprintf_stderr "MPI_Type_commit failed") ;;
        Ret (Raw 1, w)
      else
        agg_buf <- do_call (malloc (to_size_t (es * n_compute_agg d))) ;;
        _ <- do_call (transfer_field d SMIOL_IO_TO_COMP es in_buf agg_buf) ;;
        e2 <- do_call (MPI_Scatterv agg_buf (counts d) (displs d) dtype buf
                         (to_int32 (n_compute d)) (agg_comm d)) ;;
        if negb (e2 =? MPI_SUCCESS) then
          _ <- do_call (fprintf_stderr "MPI_Scatterv failed") ;;
          Ret (Raw 1, w)
        else
          _ <- do_call (free in_buf) ;;
          _ <- do_call (free agg_buf) ;;
          e3 <- do_call (MPI_Type_free dtype) ;;
          if negb (e3 =? MPI_SUCCESS) then
            _ <- do_call (fprintf_stderr "MPI_Type_free failed") ;;
            Ret (Raw 1, w)
          else Ret (Code SMIOL_SUCCESS, w)
  else
    e <- do_call (transfer_field d SMIOL_IO_TO_COMP es in_buf buf) ;;
    _ <- do_call (free in_buf) ;;
    if negb (is_success e) then Ret (e, w) else Ret (Code SMIOL_SUCCESS, w).

Definition SMIOL_get_var (agg : bool) (file : handle) (varname : option string)
  (decomp : option SMIOL_decomp) (buf : Z) (w : world) : prog (retval * world) :=
  match file, varname with
  | PTR, Some name =>
      r <- build_start_count file varname decomp START_COUNT_READ w ;;
      match r with
      | (inl rv, w1) => Ret (rv, w1)
      | (inr sc, w1) =>
          let es := sc_element_size sc in
          let free_start_count :=
            _ <- do_call (free (a_ptr (sc_start sc))) ;;
            do_call (free (a_ptr (sc_count sc))) in
          in_buf <-! match decomp with
                     | None => Ret (inr 0)
                     | Some d =>
                         p <- do_call (malloc (to_size_t (es * io_count d))) ;;
                         if p =? 0 then
                           _ <- free_start_count ;;
                           Ret (inl (Code SMIOL_MALLOC_FAILURE, w1))
                         else Ret (inr p)
                     end ;;
          let cleanup :=
            _ <- match decomp with
                 | Some _ => do_call (free in_buf)
                 | None => Ret tt
                 end ;;
            free_start_count in
          (* "Wait for asynchronous writer to finish" *)
          w2 <- join_writer w1 ;;
          w3 <-! switch_to_data_mode cleanup w2 ;;
          let f := w_file w3 in
          r1 <- on_io_task f (do_call (ncmpi_inq_varid (ncidp f) name)) ;;
          e <- bcast_ierr f (option_map fst r1) ;;
          if negb (e =? NC_NOERR) then
            _ <- cleanup ;;
            Ret (Code SMIOL_LIBRARY_ERROR, latch e w3)
          else
            let buf_p := match decomp with Some _ => in_buf | None => buf end in
            mpi_start <- do_call (malloc (to_size_t (8 * to_size_t (sc_ndims sc)))) ;;
            if mpi_start =? 0 then
              _ <- free_start_count ;;
              Ret (Code SMIOL_MALLOC_FAILURE, w3)
            else
              mpi_count <- do_call (malloc (to_size_t (8 * to_size_t (sc_ndims sc)))) ;;
              if mpi_count =? 0 then
                _ <- free_start_count ;;
                _ <- do_call (free mpi_start) ;;
                Ret (Code SMIOL_MALLOC_FAILURE, w3)
              else
                r2 <- on_io_task f
                        (v <- read_local (option_map snd r1) ;;
                         do_call (ncmpi_get_vara_all (ncidp f) v
                                    (map to_int64 (a_data (sc_start sc)))
                                    (map to_int64 (a_data (sc_count sc)))
                                    buf_p)) ;;
                e2 <- bcast_ierr f r2 ;;
                _ <- do_call (free mpi_start) ;;
                _ <- do_call (free mpi_count) ;;
                if negb (e2 =? NC_NOERR) then
                  _ <- cleanup ;;
                  Ret (Code SMIOL_LIBRARY_ERROR, latch e2 w3)
                else
                  _ <- free_start_count ;;
                  match decomp with
                  | Some d => get_var_transfer agg d buf in_buf es w3
                  | None =>
                      _ <- do_call (MPI_Bcast_buf buf (to_int32 es) (io_group_comm f)) ;;
                      Ret (Code SMIOL_SUCCESS, w3)
                  end
      end
  | _, _ => Ret (Code SMIOL_INVALID_ARGUMENT, w)
  end.

(** ** SMIOL_set_frame, SMIOL_get_frame *)

Definition SMIOL_set_frame (file : handle) (fr : Z) (w : world)
  : prog (retval * world) :=
  match file with
  | NULL => Ret (Code SMIOL_INVALID_ARGUMENT, w)
  | PTR => Ret (Code SMIOL_SUCCESS, with_file (set_frame fr (w_file w)) w)
  end.

Definition SMIOL_get_frame (file : handle) (fr : option Z) (w : world)
  : prog (retval * option Z * world) :=
  match file, fr with
  | PTR, Some _ => Ret (Code SMIOL_SUCCESS, Some (frame (w_file w)), w)
  | _, _ => Ret (Code SMIOL_INVALID_ARGUMENT, fr, w)
  end.

(** ** SMIOL_free_decomp

    The argument is a pointer to a pointer: [None] is a null argument,
    [Some None] an argument that points to a null decomposition.  The
    function returns its code and what it leaves in [*decomp]. *)
Definition SMIOL_free_decomp (agg : bool) (decomp : option (option SMIOL_decomp))
  : prog (retval * option SMIOL_decomp) :=
  match decomp with
  | None => Crash
  | Some None => Ret (Code SMIOL_SUCCESS, None)
  | Some (Some d) =>
      _ <- (if agg then
              _ <- (if negb (agg_comm d =? MPI_COMM_NULL)
                    then _ <- do_call (MPI_Comm_free (agg_comm d)) ;; Ret tt
                    else Ret tt) ;;
              _ <- do_call (free (counts d)) ;;
              do_call (free (displs d))
            else Ret tt) ;;
      _ <- do_call (free (comp_list d)) ;;
      _ <- do_call (free (io_list d)) ;;
      _ <- do_call (free (decomp_ptr d)) ;;
      Ret (Code SMIOL_SUCCESS, None)
  end.

(** ** SMIOL_open_file

    The file-mode flags are declared in a header that is not among the
    sources; the function is modelled for any three flag values. *)

Section OpenFile.

Variables SMIOL_FILE_CREATE SMIOL_FILE_WRITE SMIOL_FILE_READ : Z.

(** [mode & flag] as a truth value. *)
Definition has_flag (mode flag : Z) : bool := negb (Z.land mode flag =? 0).

(** Sizes that only label allocations. *)
Definition sizeof_file : Z := 128.
Definition sizeof_queue : Z := 16.
Definition sizeof_mutex : Z := 40.
Definition sizeof_cond : Z := 48.

(** The backend open or create on an I/O task, by file mode: the status and
    file id of the call (when this rank made it) and the initial state of the
    file; [None] when no flag is set. *)
Definition open_backend (io : Z) (io_file_comm : Z) (filename : string) (mode : Z)
  : prog (option (option (Z * Z) * Z)) :=
  if has_flag mode SMIOL_FILE_CREATE then
    r <- (if io =? 0 then Ret None
          else r <- do_call (ncmpi_create io_file_comm filename
                               (Z.lor NC_64BIT_DATA NC_CLOBBER)) ;;
               _ <- do_call (ncmpi_buffer_attach (snd r) BUFSIZE) ;;
               Ret (Some r)) ;;
    Ret (Some (r, PNETCDF_DEFINE_MODE))
  else if has_flag mode SMIOL_FILE_WRITE then
    r <- (if io =? 0 then Ret None
          else r <- do_call (ncmpi_open io_file_comm filename NC_WRITE) ;;
               _ <- do_call (ncmpi_buffer_attach (snd r) BUFSIZE) ;;
               Ret (Some r)) ;;
    Ret (Some (r, PNETCDF_DATA_MODE))
  else if has_flag mode SMIOL_FILE_READ then
    r <- (if io =? 0 then Ret None
          else r <- do_call (ncmpi_open io_file_comm filename NC_NOWRITE) ;;
               Ret (Some r)) ;;
    Ret (Some (r, PNETCDF_DATA_MODE))
  else Ret None.

(** The mutex and condition-variable setup: the first failing pthread call
    makes the function [return 1]. *)
Fixpoint pthread_setup (ops : list (pthread_op * string)) : prog bool :=
  match ops with
  | [] => Ret true
  | (op, msg) :: rest =>
      e <- do_call (pthread op) ;;
      if negb (e =? 0) then _ <- do_call (fprintf_stderr msg) ;; Ret false
      else pthread_setup rest
  end.

(** What [SMIOL_open_file] leaves in the fields of the file that it has not
    assigned when a pthread call makes it [return 1]: [writer], [active] and
    [checksum] hold what the block held when [malloc] returned it, which
    the environment chooses. *)
Definition unfinished_file (f : option Z -> Z -> Z -> SMIOL_file)
  : prog SMIOL_file :=
  wr <- do_call uninitialised ;;
  ac <- do_call uninitialised ;;
  ck <- do_call uninitialised ;;
  Ret (f (if wr =? 0 then None else Some wr) ac ck).

(** The function returns its code, what it has stored through [file]
    ([None] when it has stored nothing, [Some None] for a null pointer) and
    the context.  On a rank that is not an I/O task [ncidp] is never
    assigned: it holds what the block held. *)
Definition SMIOL_open_file (context : handle) (filename : string) (mode : Z)
  (file : handle) (c : SMIOL_context)
  : prog (retval * option (option SMIOL_file) * SMIOL_context) :=
  match file, context with
  | NULL, _ => Ret (Code SMIOL_INVALID_ARGUMENT, None, c)
  | PTR, NULL => Ret (Code SMIOL_INVALID_ARGUMENT, None, c)
  | PTR, PTR =>
      p <- do_call (malloc sizeof_file) ;;
      if p =? 0 then Ret (Code SMIOL_MALLOC_FAILURE, Some None, c)
      else if io_stride c =? 0 then Crash
      else
        let io := if Z.rem (comm_rank c) (io_stride c) =? 0 then 1 else 0 in
        r1 <- do_call (MPI_Comm_dup (async_io_comm c)) ;;
        r2 <- do_call (MPI_Comm_dup (async_group_comm c)) ;;
        let io_file_comm := snd r1 in
        let io_group_comm := snd r2 in
        table <- (if io =? 0 then Ret []
                  else q <- do_call (malloc (4 * N_REQS)) ;;
                       Ret (if q =? 0 then [] else replicate (Z.to_nat N_REQS) 0)) ;;
        opened <- open_backend io io_file_comm filename mode ;;
        match opened with
        | None =>
            _ <- do_call (free p) ;;
            _ <- do_call (MPI_Comm_free io_file_comm) ;;
            _ <- do_call (MPI_Comm_free io_group_comm) ;;
            Ret (Code SMIOL_INVALID_ARGUMENT, Some None, c)
        | Some (r, st) =>
            let ierr := match r with Some x => fst x | None => fst r2 end in
            e <- do_call (MPI_Bcast "ierr" (Some ierr) 1 MPI_INT io_group_comm) ;;
            if negb (e =? NC_NOERR) then
              _ <- do_call (free p) ;;
              _ <- do_call (MPI_Comm_free io_file_comm) ;;
              _ <- do_call (MPI_Comm_free io_group_comm) ;;
              Ret (Code SMIOL_LIBRARY_ERROR, Some None,
                   set_lib_error SMIOL_LIBRARY_PNETCDF e c)
            else
              q <- do_call (malloc sizeof_queue) ;;
              if q =? 0 then Crash
              else
                ncid <- read_local (option_map snd r) ;;
                let f0 := mk_file 0 io io_file_comm io_group_comm 0 table mode
                            ncid st [] in
                _ <- do_call (malloc sizeof_mutex) ;;
                ok1 <- pthread_setup
                         [(pthread_mutexattr_init, "Error: pthread_mutexattr_init");
                          (pthread_mutex_init, "Error: pthread_mutex_init");
                          (pthread_mutexattr_destroy, "Error: pthread_mutexattr_destroy")]%string ;;
                if negb ok1 then
                  f <- unfinished_file f0 ;; Ret (Raw 1, Some (Some f), c)
                else
                  _ <- do_call (malloc sizeof_cond) ;;
                  ok2 <- pthread_setup
                           [(pthread_condattr_init, "Error: pthread_condattr_init");
                            (pthread_cond_init, "Error: pthread_cond_init");
                            (pthread_condattr_destroy, "Error: pthread_condattr_destroy")]%string ;;
                  if negb ok2 then
                    f <- unfinished_file f0 ;; Ret (Raw 1, Some (Some f), c)
                  else
                    Ret (Code SMIOL_SUCCESS, Some (Some (f0 None 0 42424242)), c)
        end
  end.

End OpenFile.

(** ** An executable environment

    A scripted environment for running the model on concrete inputs: the
    backend answers from a script of statuses and output values, collectives
    deliver this rank's own contribution unless the script of peers says
    otherwise, and the allocator hands out fresh addresses. *)

Record script : Type := mk_script {
  s_backend : list Z;
  s_peers : list Z;
  s_next : Z
}.

Definition pop (l : list Z) (d : Z) : Z * list Z :=
  match l with
  | [] => (d, [])
  | x :: l' => (x, l')
  end.

Definition answer_status (e : script) : Z * script :=
  let (x, b) := pop (s_backend e) NC_NOERR in
  (x, mk_script b (s_peers e) (s_next e)).

Definition answer_value (e : script) : (Z * Z) * script :=
  let (x, b) := pop (s_backend e) NC_NOERR in
  let (y, b') := pop b 0 in
  ((x, y), mk_script b' (s_peers e) (s_next e)).

Definition answer_peer (own : option Z) (e : script) : Z * script :=
  match own with
  | Some x => (x, e)
  | None =>
      let (x, p) := pop (s_peers e) 0 in
      (x, mk_script (s_backend e) p (s_next e))
  end.

Definition answer_reduce (own : Z) (e : script) : Z * script :=
  let (x, p) := pop (s_peers e) own in
  (x, mk_script (s_backend e) p (s_next e)).

Definition answer_fresh (e : script) : Z * script :=
  (s_next e, mk_script (s_backend e) (s_peers e) (s_next e + 1)).

Definition scripted : handler script :=
  fun c =>
    match c as c0 return script -> result c0 * script with
    | ncmpi_create _ _ _ | ncmpi_open _ _ _ | ncmpi_def_dim _ _ _
    | ncmpi_inq_dimid _ _ | ncmpi_inq_dimlen _ _ | ncmpi_inq_unlimdim _
    | ncmpi_def_var _ _ _ _ _ | ncmpi_inq_varid _ _ | ncmpi_inq_vartype _ _
    | ncmpi_inq_varndims _ _ | ncmpi_inq_buffer_usage _
    | ncmpi_bput_vara _ _ _ _ _ => answer_value
    | ncmpi_inq_att _ _ _ =>
        fun e => let (x, e1) := answer_value e in
                 let (y, e2) := answer_status e1 in
                 ((fst x, (snd x, y)), e2)
    | ncmpi_inq_vardimid _ _ =>
        fun e => let (x, e1) := answer_status e in ((x, [0; 1; 2; 3]), e1)
    | ncmpi_inq_dimname _ _ =>
        fun e => let (x, e1) := answer_status e in ((x, "dim"), e1)
    | ncmpi_buffer_attach _ _ | ncmpi_buffer_detach _ | ncmpi_close _
    | ncmpi_redef _ | ncmpi_enddef _ | ncmpi_sync _
    | ncmpi_put_att _ _ _ _ _ _ | ncmpi_get_att _ _ _ _
    | ncmpi_get_vara_all _ _ _ _ _ | ncmpi_wait_all _ _ _ => answer_status
    | MPI_Bcast _ v _ _ _ => answer_peer v
    | MPI_Bcast_chars s _ _ => fun e => (default "dim" s, e)
    | MPI_Allreduce_sum v _ | MPI_Allreduce_max v _ => answer_reduce v
    | MPI_Comm_dup _ | MPI_Type_contiguous _ =>
        fun e => let (x, e1) := answer_fresh e in ((MPI_SUCCESS, x), e1)
    | MPI_Bcast_buf _ _ _ | MPI_Comm_free _ | MPI_Type_commit _ | MPI_Type_free _
    | MPI_Gatherv _ _ _ _ _ _ _ | MPI_Scatterv _ _ _ _ _ _ _ | pthread _
    | strlen _ | uninitialised => fun e => (0, e)
    | transfer_field _ _ _ _ _ => fun e => (Code SMIOL_SUCCESS, e)
    | malloc _ | SMIOL_async_launch_thread => answer_fresh
    | uninitialised_chars => fun e => ("", e)
    | free _ | memcpy _ _ _ | store _ _ | fprintf_stderr _ | sched_setaffinity
    | SMIOL_async_ticket_lock | SMIOL_async_ticket_unlock
    | SMIOL_async_join_thread _ => fun e => (tt, e)
    end.

(** A context and a file for concrete runs: one I/O task, which is the only
    rank. *)
Definition ctx0 : SMIOL_context :=
  mk_context 1 1 0 1 1 0 SMIOL_LIBRARY_UNKNOWN 2 3 42424242.

Definition file0 (st : Z) : SMIOL_file :=
  mk_file 0 1 4 5 0 (replicate (Z.to_nat N_REQS) 0) 1 7 st [] None 0 42424242.

Definition world0 (st : Z) : world := mk_world ctx0 (file0 st).

(** ** Properties of all runs *)

(** [holds p Q]: every run of [p], whatever the environment answers,
    satisfies [Q]. *)
Definition holds {A : Type} (p : prog A) (Q : list event -> outcome A -> Prop)
  : Prop :=
  forall tr o, exec p tr o -> Q tr o.

(** Calls of the parallel-netCDF backend. *)
Definition is_ncmpi (c : call) : bool :=
  match c with
  | ncmpi_create _ _ _ | ncmpi_open _ _ _ | ncmpi_buffer_attach _ _
  | ncmpi_buffer_detach _ | ncmpi_close _ | ncmpi_redef _ | ncmpi_enddef _
  | ncmpi_sync _ | ncmpi_def_dim _ _ _ | ncmpi_inq_dimid _ _
  | ncmpi_inq_dimlen _ _ | ncmpi_inq_unlimdim _ | ncmpi_def_var _ _ _ _ _
  | ncmpi_inq_varid _ _ | ncmpi_inq_vartype _ _ | ncmpi_inq_varndims _ _
  | ncmpi_inq_vardimid _ _ | ncmpi_inq_dimname _ _ | ncmpi_put_att _ _ _ _ _ _
  | ncmpi_inq_att _ _ _ | ncmpi_get_att _ _ _ _ | ncmpi_get_vara_all _ _ _ _ _
  | ncmpi_inq_buffer_usage _ | ncmpi_wait_all _ _ _
  | ncmpi_bput_vara _ _ _ _ _ => true
  | _ => false
  end.

(** Calls of MPI. *)
Definition is_mpi (c : call) : bool :=
  match c with
  | MPI_Bcast _ _ _ _ _ | MPI_Bcast_chars _ _ _ | MPI_Bcast_buf _ _ _
  | MPI_Allreduce_sum _ _ | MPI_Allreduce_max _ _ | MPI_Comm_dup _
  | MPI_Comm_free _ | MPI_Type_contiguous _ | MPI_Type_commit _
  | MPI_Type_free _ | MPI_Gatherv _ _ _ _ _ _ _
  | MPI_Scatterv _ _ _ _ _ _ _ => true
  | _ => false
  end.

(** ** Collectives across the I/O tasks *)

(** What [MPI_Allreduce] with [MPI_SUM] delivers to every rank: the sum of
    the contributions of all ranks of the communicator. *)
Definition mpi_sum (contributions : list Z) : Z :=
  fold_right Z.add 0 contributions.

(** A queue-emptiness flag. *)
Definition is_flag (x : Z) : Prop := x = 0 \/ x = 1.

(** ** The writer and the producer on one file *)

(** A file as [SMIOL_open_file] leaves it on an I/O task: nothing queued, no
    request outstanding, no writer active, a request table of [N_REQS]
    slots. *)
Definition opened (w : world) : Prop :=
  queue (w_file w) = [] /\
  n_reqs (w_file w) = 0 /\
  active (w_file w) = 0 /\
  Z.of_nat (length (reqs (w_file w))) = N_REQS.

(** The fields that the writer thread and the producer share. *)
Definition same_shared (w w' : world) : Prop :=
  queue (w_file w') = queue (w_file w) /\
  n_reqs (w_file w') = n_reqs (w_file w) /\
  reqs (w_file w') = reqs (w_file w) /\
  active (w_file w') = active (w_file w).

(** [writer_reach w0 enq wtr w]: from [w0] the file can reach [w] by
    interleaving critical sections of [SMIOL_put_var], iterations of the
    writer loop (which run only while [file->active] is set) and other code
    that leaves the shared fields alone; [enq] lists the descriptors queued
    on the way, in order, and [wtr] is the trace of the writer. *)
Inductive writer_reach (w0 : world)
  : list SMIOL_async_buffer -> list event -> world -> Prop :=
| reach_start : writer_reach w0 [] [] w0
| reach_enqueue enq wtr w a tr w' :
    writer_reach w0 enq wtr w ->
    exec (put_var_enqueue a w) tr (Returned w') ->
    writer_reach w0 (enq ++ [a]) wtr w'
| reach_iteration enq wtr w tr w' :
    writer_reach w0 enq wtr w ->
    active (w_file w) <> 0 ->
    exec (async_write_iteration w) tr (Returned w') ->
    writer_reach w0 enq (wtr ++ tr) w'
| reach_other enq wtr w w' :
    writer_reach w0 enq wtr w ->
    same_shared w w' ->
    writer_reach w0 enq wtr w'.

(** The buffered put that takes descriptor [a]. *)
Definition bput_of (a : SMIOL_async_buffer) : call :=
  ncmpi_bput_vara (ab_ncidp a) (ab_varidp a) (a_data (ab_mpi_start a))
                  (a_data (ab_mpi_count a)) (ab_buf a).

(** The buffered puts of a trace, in order. *)
Fixpoint bputs (l : list call) : list call :=
  match l with
  | [] => []
  | ncmpi_bput_vara n v s c b :: l' => ncmpi_bput_vara n v s c b :: bputs l'
  | _ :: l' => bputs l'
  end.

(** The number of buffered puts issued since the last [ncmpi_wait_all] of
    the trace, that is, of requests that are still outstanding; [n] is the
    number outstanding before the trace. *)
Fixpoint outstanding (l : list call) (n : Z) : Z :=
  match l with
  | [] => n
  | ncmpi_bput_vara _ _ _ _ _ :: l' => outstanding l' (n + 1)
  | ncmpi_wait_all _ _ _ :: l' => outstanding l' 0
  | _ :: l' => outstanding l' n
  end.

(** [ncmpi_inq_buffer_usage]'s answer plus the descriptor's size, as the
    code computes it in the 64-bit [usage] and [lusage]. *)
Definition projected_usage (usage : Z) (a : SMIOL_async_buffer) : Z :=
  to_int64 (to_int64 (usage + ab_bufsize a)).

(** The decision to flush. *)
Definition must_flush (max_usage : Z) (w : world) : bool :=
  (max_usage >? BUFSIZE) || (n_reqs (w_file w) =? N_REQS).


(** What relates a reachable file to the history that led to it: the
    outstanding-request count is the number of puts issued since the last
    wait-all; the descriptors queued so far are those already put followed by
    those still queued; the count is within the request table; and a file
    whose writer is not active has nothing queued and nothing outstanding. *)
Definition writer_inv (enq : list SMIOL_async_buffer) (wtr : list event)
  (w : world) : Prop :=
  n_reqs (w_file w) = outstanding (calls wtr) 0 /\
  (bputs (calls wtr) ++ map bput_of (queue (w_file w)))%list = map bput_of enq /\
  0 <= n_reqs (w_file w) <= N_REQS /\
  Z.of_nat (length (reqs (w_file w))) = N_REQS /\
  (active (w_file w) = 0 ->
   queue (w_file w) = [] /\ n_reqs (w_file w) = 0).

(** [free_only_after_wait buf st l]: in the trace [l], [buf] is released only
    after a buffered put has taken it and a later [ncmpi_wait_all] has
    retired that put.  [st] is 0 before the put, 1 between the put and the
    wait-all, 2 after the wait-all. *)
Fixpoint free_only_after_wait (buf : Z) (st : nat) (l : list call) : bool :=
  match l with
  | [] => true
  | ncmpi_bput_vara _ _ _ _ b :: l' =>
      free_only_after_wait buf (if b =? buf then 1%nat else st) l'
  | ncmpi_wait_all _ _ _ :: l' =>
      free_only_after_wait buf (match st with 1%nat => 2%nat | _ => st end) l'
  | free p :: l' =>
      (if p =? buf then Nat.eqb st 2 else true) && free_only_after_wait buf st l'
  | _ :: l' => free_only_after_wait buf st l'
  end.

Definition is_free (c : call) : bool :=
  match c with
  | free _ => true
  | _ => false
  end.

Definition is_wait_all (c : call) : bool :=
  match c with
  | ncmpi_wait_all _ _ _ => true
  | _ => false
  end.

(** A descriptor and a file for concrete runs of the writer. *)
Definition descriptor0 : SMIOL_async_buffer :=
  mk_async_buffer 900 0 7 1 (mk_carray 910 [0]) (mk_carray 920 [8]) 930 64.

(** The critical section of [SMIOL_put_var] queueing [descriptor0] on a
    freshly opened file, and the file it leaves: one descriptor queued, the
    writer launched and active. *)
Definition enqueue0_run : outcome world * list event :=
  Eval vm_compute in
    run scripted (put_var_enqueue descriptor0 (world0 PNETCDF_DATA_MODE))
        (mk_script [] [] 1).

Definition enqueue0_trace : list event := snd enqueue0_run.

Definition writer_world0 : world :=
  match fst enqueue0_run with
  | Returned w => w
  | Crashed => world0 PNETCDF_DATA_MODE
  end.

(** One iteration of the writer on [writer_world0], alone on its
    communicator: its trace and the file it leaves. *)
Definition iteration0_run : outcome world * list event :=
  Eval vm_compute in
    run scripted (async_write_iteration writer_world0) (mk_script [] [] 1000).

Definition iteration0_trace : list event := snd iteration0_run.

Definition iteration0_world : world :=
  match fst iteration0_run with
  | Returned w => w
  | Crashed => writer_world0
  end.

(** The next two iterations: the wait-all that retires the put, and the
    exit. *)
Definition iteration1_run : outcome world * list event :=
  Eval vm_compute in
    run scripted (async_write_iteration iteration0_world) (mk_script [] [] 1000).

Definition iteration1_trace : list event := snd iteration1_run.

Definition iteration1_world : world :=
  match fst iteration1_run with
  | Returned w => w
  | Crashed => iteration0_world
  end.

Definition iteration2_run : outcome world * list event :=
  Eval vm_compute in
    run scripted (async_write_iteration iteration1_world) (mk_script [] [] 1000).

Definition iteration2_trace : list event := snd iteration2_run.

Definition iteration2_world : world :=
  match fst iteration2_run with
  | Returned w => w
  | Crashed => iteration1_world
  end.

(** The whole thread function on [writer_world0]: the put, the wait-all
    and the exit. *)
Definition writer0_run : outcome (bool * world) * list event :=
  Eval vm_compute in
    run scripted (async_write 3 writer_world0) (mk_script [] [] 1000).

Definition writer0_trace : list event := snd writer0_run.

Definition writer0_world : world :=
  match fst writer0_run with
  | Returned (_, w) => w
  | Crashed => writer_world0
  end.

(** The last iteration of a writer: nothing queued, nothing outstanding. *)
Definition idle_world0 : world :=
  mk_world ctx0 (set_active 1 (file0 PNETCDF_DATA_MODE)).

Definition exit0_run : outcome world * list event :=
  Eval vm_compute in
    run scripted (async_write_iteration idle_world0) (mk_script [] [] 1000).

Definition exit0_trace : list event := snd exit0_run.

Definition exit0_world : world :=
  match fst exit0_run with
  | Returned w => w
  | Crashed => idle_world0
  end.

(** ** The status protocol of the API functions *)

(** The status that a backend call returned. *)
Definition backend_status (e : event) : option Z :=
  match e with
  | Ev c r =>
      match c return result c -> option Z with
      | ncmpi_buffer_attach _ _ | ncmpi_buffer_detach _ | ncmpi_close _
      | ncmpi_redef _ | ncmpi_enddef _ | ncmpi_sync _
      | ncmpi_put_att _ _ _ _ _ _ | ncmpi_get_att _ _ _ _
      | ncmpi_get_vara_all _ _ _ _ _ | ncmpi_wait_all _ _ _ =>
          fun r => Some r
      | ncmpi_create _ _ _ | ncmpi_open _ _ _ | ncmpi_def_dim _ _ _
      | ncmpi_inq_dimid _ _ | ncmpi_inq_dimlen _ _ | ncmpi_inq_unlimdim _
      | ncmpi_def_var _ _ _ _ _ | ncmpi_inq_varid _ _ | ncmpi_inq_vartype _ _
      | ncmpi_inq_varndims _ _ | ncmpi_inq_buffer_usage _
      | ncmpi_bput_vara _ _ _ _ _ => fun r => Some (fst r)
      | ncmpi_inq_att _ _ _ => fun r => Some (fst r)
      | ncmpi_inq_vardimid _ _ => fun r => Some (fst r)
      | ncmpi_inq_dimname _ _ => fun r => Some (fst r)
      | _ => fun _ => None
      end r
  end.

(** A broadcast of the status variable [ierr]: what this rank contributed,
    the communicator, and the status it received. *)
Definition ierr_bcast (e : event) : option (option Z * Z * Z) :=
  match e with
  | Ev c r =>
      match c return result c -> option (option Z * Z * Z) with
      | MPI_Bcast name v _ _ comm =>
          fun r => if String.eqb name "ierr" then Some (v, comm, r) else None
      | _ => fun _ => None
      end r
  end.

(** [status_protocol grp tr]: in [tr] every backend call is followed at once
    by a broadcast of [ierr] over the communicator [grp] to which this rank
    contributes the status of that call. *)
Fixpoint status_protocol (grp : Z) (tr : list event) : Prop :=
  match tr with
  | [] => True
  | e :: tr' =>
      match backend_status e with
      | Some s =>
          match tr' with
          | e' :: _ => exists r, ierr_bcast e' = Some (Some s, grp, r)
          | [] => False
          end
      | None => True
      end /\ status_protocol grp tr'
  end.

(** [status_origin prev tr]: in [tr] every status that this rank contributes
    to a broadcast of [ierr] is the status of the backend call made just
    before; [prev] is the status of the call that precedes [tr], if it was a
    backend call. *)
Fixpoint status_origin (prev : option Z) (tr : list event) : Prop :=
  match tr with
  | [] => True
  | e :: tr' =>
      match ierr_bcast e with
      | Some (Some s, _, _) => prev = Some s
      | _ => True
      end /\ status_origin (backend_status e) tr'
  end.

(** The statuses this rank received from the broadcasts of [ierr], in
    order. *)
Fixpoint received_statuses (tr : list event) : list Z :=
  match tr with
  | [] => []
  | e :: tr' =>
      match ierr_bcast e with
      | Some (_, _, r) => r :: received_statuses tr'
      | None => received_statuses tr'
      end
  end.

(** The first status received that is not [NC_NOERR]. *)
Fixpoint failed_status (tr : list event) : option Z :=
  match tr with
  | [] => None
  | e :: tr' =>
      match ierr_bcast e with
      | Some (_, _, r) =>
          if negb (r =? NC_NOERR) then Some r else failed_status tr'
      | None => failed_status tr'
      end
  end.

(** The statuses the backend returned to this rank, in order, and the first
    of them that is not [NC_NOERR]. *)
Fixpoint backend_statuses (tr : list event) : list Z :=
  match tr with
  | [] => []
  | e :: tr' =>
      match backend_status e with
      | Some s => s :: backend_statuses tr'
      | None => backend_statuses tr'
      end
  end.

Definition backend_failure (tr : list event) : option Z :=
  List.find (fun r => negb (r =? NC_NOERR)) (backend_statuses tr).

(** On the leader of a group every broadcast of [ierr] carries the leader's
    own status and delivers it. *)
Fixpoint leader_trace (tr : list event) : Prop :=
  match tr with
  | [] => True
  | e :: tr' =>
      match ierr_bcast e with
      | Some (Some s, _, r) => r = s
      | Some (None, _, _) => False
      | None => True
      end /\ leader_trace tr'
  end.

(** The world after a run that started in [w]: the context holds the pair
    (pnetcdf, status) of the failed status, if any. *)
Definition latched (w : world) (tr : list event) : world :=
  match failed_status tr with
  | Some e => latch e w
  | None => w
  end.

(** ** Mode switches, joins and reads in a trace *)

Definition is_mode_call (c : call) : bool :=
  match c with
  | ncmpi_redef _ | ncmpi_enddef _ => true
  | _ => false
  end.

Definition is_join (c : call) : bool :=
  match c with
  | SMIOL_async_join_thread _ => true
  | _ => false
  end.

Definition is_read (c : call) : bool :=
  match c with
  | ncmpi_get_vara_all _ _ _ _ _ => true
  | _ => false
  end.

Definition is_sync_call (c : call) : bool :=
  is_mode_call c || is_join c || is_read c.

(** The calls of a trace that satisfy [P], in order. *)
Fixpoint calls_where (P : call -> bool) (tr : list event) : list call :=
  match tr with
  | [] => []
  | e :: tr' =>
      if P (ev_call e) then ev_call e :: calls_where P tr'
      else calls_where P tr'
  end.

(** The mode switches of a trace; its mode switches, joins and reads; its
    joins and reads. *)
Definition mode_calls : list event -> list call := calls_where is_mode_call.

Definition sync_calls : list event -> list call := calls_where is_sync_call.

Definition is_join_or_read (c : call) : bool := is_join c || is_read c.

Definition join_read_calls : list event -> list call :=
  calls_where is_join_or_read.

(** What every run of an inquiry guarantees: the status protocol, no mode
    switch, join or read, a world that differs from the initial one by the
    latched failure only, and [SMIOL_LIBRARY_ERROR] after a failed status. *)
Definition inquiry_post (w : world) (tr : list event) (rv : retval)
  (w' : world) : Prop :=
  status_protocol (io_group_comm (w_file w)) tr /\
  status_origin None tr /\
  sync_calls tr = [] /\
  w' = latched w tr /\
  (failed_status tr <> None -> rv = Code SMIOL_LIBRARY_ERROR).

(** A step of an inquiry that went on without returning. *)
Definition inquiry_step (w : world) (tr : list event) : Prop :=
  status_protocol (io_group_comm (w_file w)) tr /\
  status_origin None tr /\
  sync_calls tr = [] /\
  failed_status tr = None.

(** The file is in one of its two modes. *)
Definition mode_ok (w : world) : Prop :=
  state (w_file w) = PNETCDF_DEFINE_MODE \/ state (w_file w) = PNETCDF_DATA_MODE.

(** ** The operations on an open file *)

Inductive api_op : Type :=
| op_define_dim (dimname : option string) (dimsize : Z)
| op_define_var (varname : option string) (vartype : smiol_vartype) (ndims : Z)
    (dimnames : option (list string))
| op_define_att (varname att_name : option string) (att_type : smiol_vartype)
    (att : option Z)
| op_inquire_dim (dimname : option string) (dimsize is_unlimited : option Z)
| op_inquire_var (varname : option string) (vartype : option smiol_vartype)
    (ndims : option Z) (dimnames : option (list char_buffer))
| op_inquire_att (varname att_name : option string)
    (att_type : option smiol_vartype) (att_len : option Z) (att : option Z)
| op_put_var (agg : bool) (varname : option string)
    (decomp : option SMIOL_decomp) (buf : Z)
| op_get_var (agg : bool) (varname : option string)
    (decomp : option SMIOL_decomp) (buf : Z)
| op_sync_file
| op_set_frame (fr : Z)
| op_get_frame (fr : option Z).

(** The return code of an operation and the world it leaves. *)
Definition run_op (file : handle) (op : api_op) (w : world)
  : prog (retval * world) :=
  match op with
  | op_define_dim dimname dimsize => SMIOL_define_dim file dimname dimsize w
  | op_define_var varname vartype ndims dimnames =>
      SMIOL_define_var file varname vartype ndims dimnames w
  | op_define_att varname att_name att_type att =>
      SMIOL_define_att file varname att_name att_type att w
  | op_inquire_dim dimname dimsize is_unlimited =>
      r <- SMIOL_inquire_dim file dimname dimsize is_unlimited w ;;
      let '(rv, _, _, w') := r in Ret (rv, w')
  | op_inquire_var varname vartype ndims dimnames =>
      r <- SMIOL_inquire_var file varname vartype ndims dimnames w ;;
      let '(rv, _, _, _, w') := r in Ret (rv, w')
  | op_inquire_att varname att_name att_type att_len att =>
      r <- SMIOL_inquire_att file varname att_name att_type att_len att w ;;
      let '(rv, _, _, w') := r in Ret (rv, w')
  | op_put_var agg varname decomp buf =>
      SMIOL_put_var agg file varname decomp buf w
  | op_get_var agg varname decomp buf =>
      SMIOL_get_var agg file varname decomp buf w
  | op_sync_file => SMIOL_sync_file file w
  | op_set_frame fr => SMIOL_set_frame file fr w
  | op_get_frame fr =>
      r <- SMIOL_get_frame file fr w ;;
      let '(rv, _, w') := r in Ret (rv, w')
  end.

(** Metadata writes, and the operations that need the data mode. *)
Definition is_metadata_write (op : api_op) : bool :=
  match op with
  | op_define_dim _ _ | op_define_var _ _ _ _ | op_define_att _ _ _ _ => true
  | _ => false
  end.

Definition is_data_access (op : api_op) : bool :=
  match op with
  | op_put_var _ _ _ _ | op_get_var _ _ _ _ | op_sync_file => true
  | _ => false
  end.

(** A trace without backend calls, status broadcasts, mode switches, joins
    or reads. *)
Definition quiet_trace (tr : list event) : Prop :=
  (forall grp, status_protocol grp tr) /\
  (forall prev, status_origin prev tr) /\
  sync_calls tr = [] /\
  failed_status tr = None.

(** ** What a run of an operation guarantees *)

(** Statuses: the protocol, the context after the run, and the return code
    after a failed status. *)
Definition status_post (w : world) (tr : list event) (rv : retval)
  (w' : world) : Prop :=
  status_protocol (io_group_comm (w_file w)) tr /\
  status_origin None tr /\
  w_ctx w' = w_ctx (latched w tr) /\
  (failed_status tr <> None -> rv = Code SMIOL_LIBRARY_ERROR).

(** Modes: the run makes at most one mode switch [switch], on an I/O task
    and from the mode [source]; the mode changes from [source] to [target]
    or not at all, on an I/O task only with the switch; success leaves the
    file in [target]. *)
Definition mode_post (source target : Z) (switch : call) (w : world)
  (tr : list event) (rv : retval) (w' : world) : Prop :=
  match mode_calls tr with
  | [] => True
  | [c] => c = switch /\ io_task (w_file w) <> 0 /\
           state (w_file w) = source
  | _ => False
  end /\
  (state (w_file w') = state (w_file w) \/
   (state (w_file w) = source /\ state (w_file w') = target /\
    (io_task (w_file w) <> 0 -> mode_calls tr = [switch]))) /\
  (rv = Code SMIOL_SUCCESS -> state (w_file w) = source ->
   state (w_file w') = target).

(** The joins and reads of a run are nothing, a join, or a join and then a
    read. *)
Definition join_before_read (tr : list event) : Prop :=
  match join_read_calls tr with
  | [] => True
  | [c] => is_join c = true
  | [c1; c2] => is_join c1 = true /\ is_read c2 = true
  | _ => False
  end.

(** ** Concrete runs of operations *)

(** A second rank of the same group, which is not an I/O task. *)
Definition ctx1 : SMIOL_context :=
  mk_context 1 2 1 1 2 0 SMIOL_LIBRARY_UNKNOWN 2 3 42424242.

Definition file1 (st : Z) : SMIOL_file :=
  mk_file 0 0 4 5 0 [] 1 0 st [] None 0 42424242.

Definition world1 (st : Z) : world := mk_world ctx1 (file1 st).

Definition define_x : api_op := op_define_dim (Some "x") 5.

(** The group leader defines a dimension in data mode; the backend accepts
    the switch to define mode and rejects the definition with status -36. *)
Definition leader0_run : outcome (retval * world) * list event :=
  Eval vm_compute in
    run scripted (run_op PTR define_x (world0 PNETCDF_DATA_MODE))
      (mk_script [0; -36; 0] [] 1000).

Definition leader0_trace : list event := snd leader0_run.

Definition leader0_world : world :=
  match fst leader0_run with
  | Returned (_, w) => w
  | Crashed => world0 PNETCDF_DATA_MODE
  end.

(** The same call on the other rank, which receives the leader's
    statuses. *)
Definition follower0_run : outcome (retval * world) * list event :=
  Eval vm_compute in
    run scripted (run_op PTR define_x (world1 PNETCDF_DATA_MODE))
      (mk_script [] [0; -36] 1000).

Definition follower0_trace : list event := snd follower0_run.

Definition follower0_world : world :=
  match fst follower0_run with
  | Returned (_, w) => w
  | Crashed => world1 PNETCDF_DATA_MODE
  end.

(** The same call when the backend accepts everything. *)
Definition define0_run : outcome (retval * world) * list event :=
  Eval vm_compute in
    run scripted (run_op PTR define_x (world0 PNETCDF_DATA_MODE))
      (mk_script [] [] 1000).

Definition define0_trace : list event := snd define0_run.

Definition define0_world : world :=
  match fst define0_run with
  | Returned (_, w) => w
  | Crashed => world0 PNETCDF_DATA_MODE
  end.

(** A read of the scalar variable [x] from a file in define mode. *)
Definition get_var0_run : outcome (retval * world) * list event :=
  Eval vm_compute in
    run scripted
      (SMIOL_get_var false PTR (Some "x") None 100 (world0 PNETCDF_DEFINE_MODE))
      (mk_script [] [] 1000).

Definition get_var0_trace : list event := snd get_var0_run.

Definition get_var0_world : world :=
  match fst get_var0_run with
  | Returned (_, w) => w
  | Crashed => world0 PNETCDF_DEFINE_MODE
  end.

(** The calls of a data write or of an explicit sync. *)
Definition is_write_or_sync (c : call) : bool :=
  match c with
  | ncmpi_bput_vara _ _ _ _ _ | ncmpi_sync _ | SMIOL_async_ticket_lock
  | SMIOL_async_launch_thread => true
  | _ => false
  end.

(** An iteration of the writer in which the backend rejects the buffered
    put with status -36. *)
Definition rejected0_run : outcome world * list event :=
  Eval vm_compute in
    run scripted (async_write_iteration writer_world0)
      (mk_script [0; 0; -36; 0] [] 1000).

Definition rejected0_trace : list event := snd rejected0_run.

Definition rejected0_world : world :=
  match fst rejected0_run with
  | Returned w => w
  | Crashed => writer_world0
  end.

(** ** Start and count, in the words of the specification *)

(** "for each dimension, count=dimlen, start=0; if the slowest non-record
    dimension is the decomposed one, replace with (io_start, io_count); if an
    unlimited (record) dimension exists it is always axis 0 with start=frame,
    count=1; for non-decomposed writes, non-rank-0 ranks get count=0 on every
    axis". *)
Definition spec_start_count (file_frame rank : Z) (decomp : option SMIOL_decomp)
  (write_or_read : Z) (has_record : bool) (i : nat) (dimlen : Z) : Z * Z :=
  let plain := (0, dimlen) in
  let with_record :=
    if has_record && Nat.eqb i 0 then (file_frame, 1) else plain in
  let with_decomp :=
    match decomp with
    | Some d =>
        if Nat.eqb i (if has_record then 1 else 0)
        then (io_start d, io_count d)
        else with_record
    | None => with_record
    end in
  match decomp with
  | None =>
      if (write_or_read =? START_COUNT_WRITE) && negb (rank =? 0)
      then (fst with_decomp, 0)
      else with_decomp
  | Some _ => with_decomp
  end.

(** A decomposition for concrete runs. *)
Definition decomp0 : SMIOL_decomp :=
  mk_decomp 800 810 820 40 10 0 0 0 830 840.

(** ** Defaults of [SMIOL_inquire_dim] *)

(** The stores that preset the outputs that are not null. *)
Definition default_stores (dimsize is_unlimited : option Z) : list event :=
  match dimsize with
  | Some _ => [Ev (store out_dimsize 0) tt]
  | None => []
  end ++
  match is_unlimited with
  | Some _ => [Ev (store out_is_unlimited 0) tt]
  | None => []
  end.

(** ** Opening a file *)

(** Flag values for concrete runs (the header that declares them is not
    among the sources). *)
Definition flag_create : Z := 1.
Definition flag_write : Z := 2.
Definition flag_read : Z := 4.

Definition open_run (mode : Z)
  : outcome (retval * option (option SMIOL_file) * SMIOL_context) * list event :=
  run scripted
    (SMIOL_open_file flag_create flag_write flag_read PTR "f" mode PTR ctx0)
    (mk_script [] [] 1000).

Definition created0_run
  : outcome (retval * option (option SMIOL_file) * SMIOL_context) * list event :=
  Eval vm_compute in open_run flag_create.

Definition created0_file : SMIOL_file :=
  match fst created0_run with
  | Returned (_, Some (Some f), _) => f
  | _ => file0 PNETCDF_DATA_MODE
  end.

(** ** Further concrete runs *)

(** [build_start_count] for a write of the decomposed variable [x], whose
    axes are the record dimension and a dimension of size 100. *)
Definition axes0_run : outcome ((retval + start_count) * world) * list event :=
  Eval vm_compute in
    run scripted
      (build_start_count PTR (Some "x") (Some decomp0) START_COUNT_WRITE
         (world0 PNETCDF_DATA_MODE))
      (mk_script [0; 1; 0; 5; 0; 2; 0; 1; 0; 2; 0; 0; 0; 0; 11; 0; 100; 0; 10;
                  0; 10; 0; 7; 0; 10] [] 1000).

Definition axes0_trace : list event := snd axes0_run.

Definition axes0_result : start_count :=
  match fst axes0_run with
  | Returned (inr sc, _) => sc
  | _ => mk_start_count 0 0 (mk_carray 0 []) (mk_carray 0 [])
  end.

(** An inquiry about the size of dimension [x]. *)
Definition inquire0_run : outcome inquire_dim_result * list event :=
  Eval vm_compute in
    run scripted
      (SMIOL_inquire_dim PTR (Some "x") (Some 99) None (world0 PNETCDF_DATA_MODE))
      (mk_script [0; 3; 0; 12] [] 1000).

Definition inquire0_trace : list event := snd inquire0_run.

(** Freeing [decomp0] in an aggregation build. *)
Definition free0_run : outcome (retval * option SMIOL_decomp) * list event :=
  Eval vm_compute in
    run scripted (SMIOL_free_decomp true (Some (Some decomp0)))
      (mk_script [] [] 1000).

Definition free0_trace : list event := snd free0_run.

(** * Further properties: definitions *)

(** ** Footprints *)

(** The calls of an inquiry: backend inquiries, broadcasts of what they
    delivered, scratch memory, and stores through the output pointers. *)
Definition is_inquiry_call (c : call) : bool :=
  match c with
  | ncmpi_inq_dimid _ _ | ncmpi_inq_dimlen _ _ | ncmpi_inq_unlimdim _
  | ncmpi_inq_varid _ _ | ncmpi_inq_vartype _ _ | ncmpi_inq_varndims _ _
  | ncmpi_inq_vardimid _ _ | ncmpi_inq_dimname _ _ | ncmpi_inq_att _ _ _
  | ncmpi_get_att _ _ _ _
  | MPI_Bcast _ _ _ _ _ | MPI_Bcast_chars _ _ _ | MPI_Bcast_buf _ _ _
  | malloc _ | free _ | store _ _ | uninitialised | uninitialised_chars => true
  | _ => false
  end.

(** The backend calls that work on the table of non-blocking requests and
    on the attached buffer. *)
Definition is_request_call (c : call) : bool :=
  match c with
  | ncmpi_bput_vara _ _ _ _ _ | ncmpi_wait_all _ _ _
  | ncmpi_inq_buffer_usage _ => true
  | _ => false
  end.

(** The calls of the writer thread. *)
Definition is_writer_call (c : call) : bool :=
  match c with
  | sched_setaffinity | SMIOL_async_ticket_lock | SMIOL_async_ticket_unlock
  | MPI_Allreduce_sum _ _ | MPI_Allreduce_max _ _
  | ncmpi_inq_buffer_usage _ | ncmpi_wait_all _ _ _
  | ncmpi_bput_vara _ _ _ _ _ | free _ => true
  | _ => false
  end.

(** The calls of an operation on the calling thread: anything but the
    request calls. *)
Definition is_api_call (c : call) : bool := negb (is_request_call c).

(** [safe Q R p]: whatever the environment answers, every call of [p] is in
    [Q] and every value that [p] returns satisfies [R]. *)
Fixpoint safe {A : Type} (Q : call -> bool) (R : A -> Prop) (p : prog A)
  : Prop :=
  match p with
  | Ret a => R a
  | Crash => True
  | Vis c k => Q c = true /\ forall r, safe Q R (k r)
  end.

(** The calls in [P] that the rank of the file [f] may make: any of them on
    an I/O task, and none of the backend on another rank. *)
Definition rank_calls (P : call -> bool) (f : SMIOL_file) (c : call) : bool :=
  P c && (negb (is_ncmpi c) || negb (io_task f =? 0)).

(** The three inquiries. *)
Definition is_inquiry_op (op : api_op) : bool :=
  match op with
  | op_inquire_dim _ _ _ | op_inquire_var _ _ _ _ | op_inquire_att _ _ _ _ _ =>
      true
  | _ => false
  end.

(** ** The effect of an operation on the file *)

(** The fields of a file that no operation changes: what identifies the
    file, and the request table and its count, which belong to the writer
    thread. *)
Definition same_identity (f f' : SMIOL_file) : Prop :=
  io_task f' = io_task f /\ io_file_comm f' = io_file_comm f /\
  io_group_comm f' = io_group_comm f /\ mode f' = mode f /\
  ncidp f' = ncidp f /\ checksum f' = checksum f /\
  n_reqs f' = n_reqs f /\ reqs f' = reqs f.

Definition same_queue (f f' : SMIOL_file) : Prop :=
  queue f' = queue f /\ active f' = active f.

(** What an operation that returned [a] from the world [w] has done to the
    file: a successful [SMIOL_put_var] on an I/O task has queued one
    descriptor for this file and left the writer active, a successful
    [SMIOL_set_frame] has set the frame, and nothing else touches the
    frame, the queue or the active flag. *)
Definition op_effect (op : api_op) (w : world) (a : retval * world) : Prop :=
  let f := w_file w in
  let f' := w_file (snd a) in
  same_identity f f' /\
  match op with
  | op_put_var _ _ _ _ =>
      frame f' = frame f /\
      if is_success (fst a) && negb (io_task f =? 0)
      then (exists x, queue f' = (queue f ++ [x])%list /\ ab_ncidp x = ncidp f) /\
           active f' <> 0
      else same_queue f f'
  | op_set_frame fr =>
      same_queue f f' /\
      frame f' = if is_success (fst a) then fr else frame f
  | _ => frame f' = frame f /\ same_queue f f'
  end.

(** What the writer thread leaves alone. *)
Definition writer_keeps (w w' : world) : Prop :=
  w_ctx w' = w_ctx w /\
  frame (w_file w') = frame (w_file w) /\
  state (w_file w') = state (w_file w) /\
  io_task (w_file w') = io_task (w_file w) /\
  ncidp (w_file w') = ncidp (w_file w) /\
  mode (w_file w') = mode (w_file w) /\
  writer (w_file w') = writer (w_file w) /\
  length (reqs (w_file w')) = length (reqs (w_file w)).

(** ** Heap blocks *)

(** The block that a call allocates, as [malloc] answers, and the block
    that a call releases. *)
Definition allocated (c : call) : result c -> list Z :=
  match c as c0 return result c0 -> list Z with
  | malloc _ => fun r => [r]
  | _ => fun _ => []
  end.

Definition released (c : call) : list Z :=
  match c with
  | free p => [p]
  | _ => []
  end.

Definition is_memory (c : call) : bool :=
  match c with
  | malloc _ | free _ => true
  | _ => false
  end.

Definition no_memory (c : call) : bool := negb (is_memory c).

(** The answers of [malloc] and the arguments of [free] along a run, in
    order. *)
Fixpoint allocations (tr : list event) : list Z :=
  match tr with
  | [] => []
  | Ev c r :: rest => allocated c r ++ allocations rest
  end.

Fixpoint frees (tr : list event) : list Z :=
  match tr with
  | [] => []
  | Ev c _ :: rest => released c ++ frees rest
  end.

(** [owns live R p]: [p], started as the owner of the blocks [live],
    releases only blocks that it owns, each once, whatever the environment
    answers; and when it returns a value, the blocks that it then owns
    satisfy [R] together with the value. *)
Fixpoint owns {A : Type} (live : list Z) (R : list Z -> A -> Prop)
  (p : prog A) : Prop :=
  match p with
  | Ret a => exists live', Permutation live live' /\ R live' a
  | Crash => True
  | Vis c k =>
      exists live', Permutation live (released c ++ live')%list /\
                    forall r, owns (allocated c r ++ live')%list R (k r)
  end.

(** The four blocks of a queued descriptor, in the order in which the
    writer releases them. *)
Definition descriptor_blocks (a : SMIOL_async_buffer) : list Z :=
  [a_ptr (ab_mpi_start a); a_ptr (ab_mpi_count a); ab_buf a; ab_self a].

(** The blocks of all the descriptors in the queue of the file. *)
Definition queue_blocks (w : world) : list Z :=
  flat_map descriptor_blocks (queue (w_file w)).

(** The blocks that a successful operation leaves allocated: the
    descriptor that [SMIOL_put_var] has queued on an I/O task, the transfer
    buffer of a decomposed [SMIOL_put_var] on another rank, and nothing
    otherwise. *)
Definition kept_by (op : api_op) (w : world) (a : retval * world)
  (kept : list Z) : Prop :=
  match op with
  | op_put_var _ _ decomp _ =>
      if io_task (w_file w) =? 0 then
        match decomp with
        | None => kept = []
        | Some _ => exists out_buf, kept = [out_buf]
        end
      else exists x, queue (w_file (snd a)) = (queue (w_file w) ++ [x])%list /\
                     kept = descriptor_blocks x
  | _ => kept = []
  end.

(** The blocks of a returning run of an operation: it releases only blocks
    that it has allocated, each at most once, and after a success exactly
    the blocks of [kept_by] are still allocated. *)
Definition mem_post (op : api_op) (w : world) (al fr : list Z)
  (a : retval * world) : Prop :=
  submseteq fr al /\
  (is_success (fst a) = true ->
   exists kept, kept_by op w a kept /\ Permutation al (fr ++ kept)%list).

(** ** SMIOL_close_file *)

(** The addresses of the blocks of an open file: the file structure, and
    what its [queue] and [mutex] fields point to. *)
Record file_blocks : Type := mk_file_blocks {
  fb_file : Z;
  fb_queue : Z;
  fb_mutex : Z
}.

Section CloseFile.

Variables SMIOL_FILE_CREATE SMIOL_FILE_WRITE : Z.

(** The block [if (( *file)->io_task) { ... }]: the write buffer is detached
    from a file that was opened for creating or writing, and the file is
    closed; the status of [ncmpi_close]. *)
Definition close_backend (f : SMIOL_file) : prog Z :=
  _ <- (if has_flag (mode f) SMIOL_FILE_CREATE ||
           has_flag (mode f) SMIOL_FILE_WRITE
        then _ <- do_call (ncmpi_buffer_detach (ncidp f)) ;; Ret tt
        else Ret tt) ;;
  do_call (ncmpi_close (ncidp f)).

(** The argument is a pointer to a pointer: [None] is a null argument,
    [Some None] an argument that points to a null handle, which the
    function dereferences.  [c] is the context of the file.  The function
    returns its code, what it leaves in [*file], and the context. *)
Definition SMIOL_close_file (file : option (option (file_blocks * SMIOL_file)))
  (c : SMIOL_context)
  : prog (retval * option (file_blocks * SMIOL_file) * SMIOL_context) :=
  match file with
  | None => Ret (Code SMIOL_SUCCESS, None, c)
  | Some None => Crash
  | Some (Some (b, f)) =>
      if negb (checksum f =? 42424242)
      then Ret (Code SMIOL_INVALID_ARGUMENT, Some (b, f), c)
      else
        (* "Wait for asynchronous writer to finish" *)
        w1 <- join_writer (mk_world c f) ;;
        let f1 := w_file w1 in
        e <- do_call (pthread pthread_mutex_destroy) ;;
        if negb (e =? 0) then
          _ <- do_call (fprintf_stderr "Error: pthread_mutex_destroy") ;;
          Ret (Code SMIOL_LIBRARY_ERROR, Some (b, f1), c)
        else
          _ <- do_call (free (fb_mutex b)) ;;
          _ <- do_call (free (fb_queue b)) ;;
          e1 <- do_call (MPI_Comm_free (io_file_comm f1)) ;;
          if negb (e1 =? MPI_SUCCESS) then
            _ <- do_call (free (fb_file b)) ;;
            Ret (Code SMIOL_MPI_ERROR, None, c)
          else
            e2 <- do_call (MPI_Comm_free (io_group_comm f1)) ;;
            if negb (e2 =? MPI_SUCCESS) then
              _ <- do_call (free (fb_file b)) ;;
              Ret (Code SMIOL_MPI_ERROR, None, c)
            else
              let finish :=
                _ <- do_call (free (fb_file b)) ;;
                Ret (Code SMIOL_SUCCESS, None, c) in
              r <- on_io_task f1 (close_backend f1) ;;
              match r with
              | Some e3 =>
                  if negb (e3 =? NC_NOERR) then
                    _ <- do_call (free (fb_file b)) ;;
                    Ret (Code SMIOL_LIBRARY_ERROR, None,
                         set_lib_error SMIOL_LIBRARY_PNETCDF e3 c)
                  else finish
              | None => finish
              end
  end.

End CloseFile.

(** Files that agree on what [SMIOL_open_file] has fixed for the life of
    the file: the rank's role, the two communicators, the mode, the file id
    and the checksum.  Neither the operations nor the writer thread change
    these. *)
Definition same_backing (f f' : SMIOL_file) : Prop :=
  io_task f' = io_task f /\ io_file_comm f' = io_file_comm f /\
  io_group_comm f' = io_group_comm f /\ mode f' = mode f /\
  ncidp f' = ncidp f /\ checksum f' = checksum f.

(** What a call acquires from MPI or from the backend, and what a call
    gives back. *)
Inductive resource : Type :=
| communicator (comm : Z)
| write_buffer (ncid : Z)
| backend_file (ncid : Z).

Definition acquired (c : call) : result c -> list resource :=
  match c as c0 return result c0 -> list resource with
  | MPI_Comm_dup _ => fun r => [communicator (snd r)]
  | ncmpi_create _ _ _ | ncmpi_open _ _ _ => fun r => [backend_file (snd r)]
  | ncmpi_buffer_attach ncid _ => fun _ => [write_buffer ncid]
  | _ => fun _ => []
  end.

Definition given_back (c : call) : list resource :=
  match c with
  | MPI_Comm_free comm => [communicator comm]
  | ncmpi_buffer_detach ncid => [write_buffer ncid]
  | ncmpi_close ncid => [backend_file ncid]
  | _ => []
  end.

Fixpoint acquisitions (tr : list event) : list resource :=
  match tr with
  | [] => []
  | Ev c r :: rest => acquired c r ++ acquisitions rest
  end.

Fixpoint returns (tr : list event) : list resource :=
  match tr with
  | [] => []
  | Ev c _ :: rest => given_back c ++ returns rest
  end.

(** What [SMIOL_close_file] has done when it returns [rv] and leaves
    [left] in the handle of a file with the blocks [b]: either the handle is
    null and the three blocks of the file are released, or the handle still
    points to the file, nothing is released or given back, and the code is
    not success. *)
Definition close_post (b : file_blocks) (tr : list event) (rv : retval)
  (left : option (file_blocks * SMIOL_file)) : Prop :=
  allocations tr = [] /\
  match left with
  | None => frees tr = [fb_mutex b; fb_queue b; fb_file b]
  | Some (b', _) =>
      b' = b /\ frees tr = [] /\ returns tr = [] /\ is_success rv = false
  end.

Definition is_communicator (x : resource) : bool :=
  match x with
  | communicator _ => true
  | _ => false
  end.

(** The fields that [SMIOL_open_file] has assigned by the time it prepares
    the mutex: frame 0, no request outstanding, nothing queued, the mode as
    given, and on a rank that is not an I/O task no request table. *)
Definition assigned_file (flags : Z) (f : SMIOL_file) : Prop :=
  frame f = 0 /\ n_reqs f = 0 /\ queue f = [] /\ mode f = flags /\
  (io_task f = 0 -> reqs f = []).

(** The file that a successful [SMIOL_open_file] with the mode [flags]
    leaves: these fields, no writer, not active, and a valid checksum. *)
Definition fresh_file (flags : Z) (f : SMIOL_file) : Prop :=
  assigned_file flags f /\
  writer f = None /\ active f = 0 /\ checksum f = 42424242.

(** What [SMIOL_open_file] has done when it returns [rv], having stored
    [left] through [file].  When it has stored nothing it has made no call
    and the code is that of an invalid argument.  When it has stored a null
    pointer the code is not success, the file structure (if it was
    allocated) is the one block released, and the communicators given back
    are those duplicated.  When it has stored a file, nothing is released or
    given back and the context is untouched; the file is fresh after a
    success, and otherwise the code is 1, that of a failed pthread call, and
    the file has the fields assigned until then. *)
Definition open_post (flags : Z) (c : SMIOL_context) (tr : list event)
  (rv : retval) (left : option (option SMIOL_file)) (c' : SMIOL_context)
  : Prop :=
  match left with
  | None => rv = Code SMIOL_INVALID_ARGUMENT /\ tr = [] /\ c' = c
  | Some None =>
      is_success rv = false /\
      List.filter is_communicator (acquisitions tr) = returns tr /\
      frees tr = List.filter (fun p => negb (p =? 0)) (firstn 1 (allocations tr))
  | Some (Some f) =>
      frees tr = [] /\ returns tr = [] /\ c' = c /\
      if is_success rv then fresh_file flags f
      else rv = Raw 1 /\ assigned_file flags f
  end.

(** ** The size of an element *)

(** What axis [i], of size [dimsize], contributes to the size of an
    element: nothing for the record axis, of which one frame is taken, and
    for the decomposed axis, whose values are counted by the decomposition;
    its size otherwise. *)
Definition axis_factor (decomp : option SMIOL_decomp) (unlimited : bool)
  (i : nat) (dimsize : Z) : Z :=
  if unlimited && Nat.eqb i 0 then 1
  else match decomp with
       | Some _ =>
           if (negb unlimited && Nat.eqb i 0) || (unlimited && Nat.eqb i 1)
           then 1 else dimsize
       | None => dimsize
       end.

(** The product of the contributions of the axes from [i] on. *)
Fixpoint slab_size (decomp : option SMIOL_decomp) (unlimited : bool) (i : nat)
  (dimsizes : list Z) : Z :=
  match dimsizes with
  | [] => 1
  | d :: rest =>
      axis_factor decomp unlimited i d * slab_size decomp unlimited (S i) rest
  end.

(** ** SMIOL_lib_error_string *)

Section ErrorStrings.

(** [ncmpi_strerror], a function of the backend. *)
Variable ncmpi_strerror : Z -> string.

(** [None] is a null context. *)
Definition SMIOL_lib_error_string (context : option SMIOL_context) : string :=
  match context with
  | None => "SMIOL_context argument is a NULL pointer"
  | Some c =>
      match lib_type c with
      | SMIOL_LIBRARY_PNETCDF => ncmpi_strerror (lib_ierr c)
      | _ => "Could not find matching library for the source of the error"
      end
  end.

End ErrorStrings.

(** The operations that move a decomposed field between ranks: they pass
    on the code of [transfer_field], a function that is not among the
    sources. *)
Definition is_transfer (op : api_op) : bool :=
  match op with
  | op_put_var _ _ (Some _) _ | op_get_var _ _ (Some _) _ => true
  | _ => false
  end.

(** The context of [w'] after the code [rv]: with [SMIOL_LIBRARY_ERROR] it
    names the backend and holds a status that is an error. *)
Definition reported (rv : retval) (w' : world) : Prop :=
  rv = Code SMIOL_LIBRARY_ERROR ->
  lib_type (w_ctx w') = SMIOL_LIBRARY_PNETCDF /\ lib_ierr (w_ctx w') <> NC_NOERR.

(** ** Undefined behaviour *)

(** [defined G R p]: as long as the environment answers as [G] says, [p]
    has no undefined behaviour, and every value that it returns satisfies
    [R]. *)
Fixpoint defined {A : Type} (G : forall c : call, result c -> bool)
  (R : A -> Prop) (p : prog A) : Prop :=
  match p with
  | Ret a => R a
  | Crash => False
  | Vis c k => forall r, G c r = true -> defined G R (k r)
  end.

(** The answers of an environment in which memory is not exhausted, the
    variable of the run has [n] dimensions and the names of dimensions are
    shorter than 64 characters: [malloc] does not return a null pointer,
    the number of dimensions that the group leader broadcasts is [n], and
    the names that the backend writes and that the group leader broadcasts
    fit in 64 bytes with their terminator. *)
Definition answer_ok (n : Z) (c : call) : result c -> bool :=
  match c as c0 return result c0 -> bool with
  | malloc _ => fun r => negb (r =? 0)
  | MPI_Bcast name _ _ _ _ =>
      fun r => if String.eqb name "ndimsp" then r =? n else true
  | ncmpi_inq_dimname _ _ => fun r => fits 64 (snd r)
  | MPI_Bcast_chars _ _ _ => fun r => fits 64 r
  | _ => fun _ => true
  end.

Definition answers_ok (n : Z) (tr : list event) : bool :=
  forallb (fun e => match e with Ev c r => answer_ok n c r end) tr.

(** A name buffer that is null or has room for the 64 bytes of a
    broadcast. *)
Definition roomy (b : char_buffer) : bool :=
  match b with
  | null_buffer => true
  | buffer capacity _ => 64 <=? capacity
  end.

(** A name buffer that holds a string with its terminator. *)
Definition holds_name (b : char_buffer) : bool :=
  match b with
  | buffer capacity (Some s) => fits capacity s
  | _ => false
  end.

(** The arguments that an operation on a variable of [n] dimensions needs
    in order to be defined: [SMIOL_inquire_dim] a [dimsize] pointer that is
    not null, [SMIOL_define_var] as many names as it is told dimensions,
    and [SMIOL_inquire_var] as many name buffers as the variable has
    dimensions, each of them null or of 64 bytes at least. *)
Definition well_formed (n : Z) (op : api_op) : bool :=
  match op with
  | op_inquire_dim _ dimsize _ =>
      match dimsize with Some _ => true | None => false end
  | op_define_var _ _ ndims (Some names) =>
      (Z.to_nat ndims <=? length names)%nat
  | op_inquire_var _ _ _ (Some bufs) =>
      (Z.to_nat n <=? length bufs)%nat && forallb roomy bufs
  | _ => true
  end.

(** ** Concrete runs for the further properties *)

(** A write of the scalar variable [x] on the I/O task, the file being in
    data mode. *)
Definition put_var0_run : outcome (retval * world) * list event :=
  Eval vm_compute in
    run scripted
      (run_op PTR (op_put_var false (Some "x") None 100)
         (world0 PNETCDF_DATA_MODE))
      (mk_script [] [] 1000).

Definition put_var0_trace : list event := snd put_var0_run.

Definition put_var0_result : retval * world :=
  match fst put_var0_run with
  | Returned a => a
  | Crashed => (Raw 1, world0 PNETCDF_DATA_MODE)
  end.

(** An inquiry about dimension [x], as an operation. *)
Definition inquire_x : api_op := op_inquire_dim (Some "x") (Some 99) (Some 7).

Definition inquire_op0_run : outcome (retval * world) * list event :=
  Eval vm_compute in
    run scripted (run_op PTR inquire_x (world0 PNETCDF_DATA_MODE))
      (mk_script [0; 3; 0; 12; 0; 3] [] 1000).

Definition inquire_op0_trace : list event := snd inquire_op0_run.

Definition inquire_op0_result : retval * world :=
  match fst inquire_op0_run with
  | Returned a => a
  | Crashed => (Raw 1, world0 PNETCDF_DATA_MODE)
  end.

(** The writer thread on the file that [put_var0_run] leaves. *)
Definition writer1_run : outcome (bool * world) * list event :=
  Eval vm_compute in
    run scripted (async_write 3 (snd put_var0_result)) (mk_script [] [] 2000).

Definition writer1_trace : list event := snd writer1_run.

Definition writer1_world : world :=
  match fst writer1_run with
  | Returned (_, w) => w
  | Crashed => snd put_var0_result
  end.

(** Closing the file that [created0_run] has created; the blocks are the
    ones that this run has allocated for the file, its queue and its mutex. *)
Definition blocks0 : file_blocks := mk_file_blocks 1000 1004 1005.

Definition closed0_run
  : outcome (retval * option (file_blocks * SMIOL_file) * SMIOL_context) *
    list event :=
  Eval vm_compute in
    run scripted
      (SMIOL_close_file flag_create flag_write
         (Some (Some (blocks0, created0_file))) ctx0)
      (mk_script [] [] 2000).

Definition closed0_trace : list event := snd closed0_run.

(** * Initialisation and finalisation

    [SMIOL_init] and [SMIOL_finalize] call MPI and the asynchronous layer
    in ways that no other function of smiol.c does; they are run over their
    own calls. *)

Module Lifecycle.

(** A call carries its input arguments.  [SMIOL_async_init] and
    [SMIOL_async_finalize] belong to the asynchronous layer, whose bodies
    are not among the sources. *)
Inductive call : Type :=
| malloc (size : Z)
| free (p : Z)
| MPI_Comm_dup (comm : Z)
| MPI_Comm_size (comm : Z)
| MPI_Comm_rank (comm : Z)
| MPI_Comm_split (comm color key : Z)
| MPI_Comm_free (comm : Z)
| SMIOL_async_init
| SMIOL_async_finalize
| fprintf_stderr (msg : string).

(** What a call answers: its status, paired for the MPI inquiries and
    constructors with the value stored through the output pointer. *)
Definition result (c : call) : Type :=
  match c with
  | MPI_Comm_dup _ | MPI_Comm_size _ | MPI_Comm_rank _
  | MPI_Comm_split _ _ _ => (Z * Z)%type
  | free _ | fprintf_stderr _ => unit
  | _ => Z
  end.

Inductive prog (A : Type) : Type :=
| Ret (a : A)
| Crash
| Vis (c : call) (k : result c -> prog A).

Arguments Ret {A} a.
Arguments Crash {A}.
Arguments Vis {A} c k.

Fixpoint bind {A B : Type} (p : prog A) (f : A -> prog B) : prog B :=
  match p with
  | Ret a => f a
  | Crash => Crash
  | Vis c k => Vis c (fun r => bind (k r) f)
  end.

Definition do_call (c : call) : prog (result c) := Vis c Ret.

Declare Scope life_scope.
Delimit Scope life_scope with life.
Bind Scope life_scope with prog.
Notation "x <- p ;; q" := (bind p (fun x => q))
  (at level 100, p at next level, right associativity) : life_scope.
Local Open Scope life_scope.

Inductive event : Type :=
| Ev (c : call) (r : result c).

Definition ev_call (e : event) : call :=
  match e with Ev c _ => c end.

Definition calls (tr : list event) : list call := map ev_call tr.

(** [exec p tr o]: [tr] is a complete run of [p] and [o] is how it ends. *)
Fixpoint exec {A : Type} (p : prog A) (tr : list event) (o : outcome A) : Prop :=
  match p with
  | Ret a => tr = [] /\ o = Returned a
  | Crash => tr = [] /\ o = Crashed
  | Vis c k => exists (r : result c) (tr' : list event),
      tr = Ev c r :: tr' /\ exec (k r) tr' o
  end.

(** An executable environment in which every call succeeds, and a
    communicator or a block is a fresh number; the communicator has
    [size] ranks, of which this is rank [rank]. *)
Definition answer (size rank : Z) (c : call) (next : Z) : result c * Z :=
  match c as c0 return result c0 * Z with
  | MPI_Comm_dup _ | MPI_Comm_split _ _ _ => ((MPI_SUCCESS, next), next + 1)
  | MPI_Comm_size _ => ((MPI_SUCCESS, size), next)
  | MPI_Comm_rank _ => ((MPI_SUCCESS, rank), next)
  | malloc _ => (next, next + 1)
  | free _ | fprintf_stderr _ => (tt, next)
  | MPI_Comm_free _ | SMIOL_async_init | SMIOL_async_finalize => (0, next)
  end.

Fixpoint run {A : Type} (size rank : Z) (p : prog A) (next : Z)
  : outcome A * list event :=
  match p with
  | Ret a => (Returned a, [])
  | Crash => (Crashed, [])
  | Vis c k =>
      let (r, next') := answer size rank c next in
      let (o, tr) := run size rank (k r) next' in
      (o, Ev c r :: tr)
  end.

(** [sizeof(struct SMIOL_context)]; the value only labels the allocation. *)
Definition sizeof_context : Z := 64.

(** [INT_MIN], for the one quotient of [int]s that overflows. *)
Definition int_min : Z := - 2 ^ 31.

(** [SMIOL_init].  The function returns its code and what it leaves in
    [*context]: the address of the context and its contents, or a null
    pointer. *)
Definition SMIOL_init (comm num_io_tasks stride : Z) (context : handle)
  : prog (retval * option (Z * SMIOL_context)) :=
  match context with
  | NULL => Ret (Code SMIOL_INVALID_ARGUMENT, None)
  | PTR =>
      if comm =? MPI_COMM_NULL then Ret (Code SMIOL_INVALID_ARGUMENT, None)
      else
        p <- do_call (malloc sizeof_context) ;;
        if p =? 0 then Ret (Code SMIOL_MALLOC_FAILURE, None)
        else
          d <- do_call (MPI_Comm_dup comm) ;;
          if negb (fst d =? MPI_SUCCESS) then
            _ <- do_call (free p) ;;
            Ret (Code SMIOL_MPI_ERROR, None)
          else
            let smiol_comm := snd d in
            s <- do_call (MPI_Comm_size smiol_comm) ;;
            if negb (fst s =? MPI_SUCCESS) then
              _ <- do_call (free p) ;;
              Ret (Code SMIOL_MPI_ERROR, None)
            else
              k <- do_call (MPI_Comm_rank smiol_comm) ;;
              if negb (fst k =? MPI_SUCCESS) then
                _ <- do_call (free p) ;;
                Ret (Code SMIOL_MPI_ERROR, None)
              else
                let rank := snd k in
                a <- do_call SMIOL_async_init ;;
                if negb (a =? 0) then
                  _ <- do_call (free p) ;;
                  Ret (Code SMIOL_ASYNC_ERROR, None)
                else if (stride =? 0) || ((rank =? int_min) && (stride =? -1))
                then Crash
                else
                  let io_task := if Z.rem rank stride =? 0 then 1 else 0 in
                  c1 <- do_call (MPI_Comm_split smiol_comm io_task rank) ;;
                  let io_group := Z.quot rank stride in
                  c2 <- do_call (MPI_Comm_split smiol_comm io_group rank) ;;
                  Ret (Code SMIOL_SUCCESS,
                       Some (p, mk_context smiol_comm (snd s) rank num_io_tasks
                                  stride 0 SMIOL_LIBRARY_UNKNOWN (snd c1)
                                  (snd c2) 42424242))
  end.

(** [SMIOL_finalize].  The argument is a pointer to a pointer: [None] is a
    null argument, [Some None] an argument that points to a null context. *)
Definition SMIOL_finalize (context : option (option (Z * SMIOL_context)))
  : prog (retval * option (Z * SMIOL_context)) :=
  match context with
  | None => Ret (Code SMIOL_SUCCESS, None)
  | Some None => Ret (Code SMIOL_SUCCESS, None)
  | Some (Some (p, c)) =>
      if negb (ctx_checksum c =? 42424242)
      then Ret (Code SMIOL_INVALID_ARGUMENT, Some (p, c))
      else
        e <- do_call (MPI_Comm_free (fcomm c)) ;;
        if negb (e =? MPI_SUCCESS) then
          _ <- do_call (free p) ;;
          Ret (Code SMIOL_MPI_ERROR, None)
        else
          a <- do_call SMIOL_async_finalize ;;
          if negb (a =? 0) then
            _ <- do_call (free p) ;;
            Ret (Code SMIOL_ASYNC_ERROR, None)
          else
            e1 <- do_call (MPI_Comm_free (async_io_comm c)) ;;
            if negb (e1 =? MPI_SUCCESS) then
              _ <- do_call (fprintf_stderr "Error: MPI_Comm_free") ;;
              Ret (Code SMIOL_MPI_ERROR, Some (p, c))
            else
              e2 <- do_call (MPI_Comm_free (async_group_comm c)) ;;
              if negb (e2 =? MPI_SUCCESS) then
                _ <- do_call (fprintf_stderr "Error: MPI_Comm_free") ;;
                Ret (Code SMIOL_MPI_ERROR, Some (p, c))
              else
                _ <- do_call (free p) ;;
                Ret (Code SMIOL_SUCCESS, None)
  end.

(** The blocks allocated and released, and the communicators made and
    freed, along a run. *)
Fixpoint allocations (tr : list event) : list Z :=
  match tr with
  | [] => []
  | Ev c r :: rest =>
      match c as c0 return result c0 -> list Z with
      | malloc _ => fun r => [r]
      | _ => fun _ => []
      end r ++ allocations rest
  end.

Fixpoint frees (tr : list event) : list Z :=
  match tr with
  | [] => []
  | Ev (free p) _ :: rest => p :: frees rest
  | _ :: rest => frees rest
  end.

Fixpoint made (tr : list event) : list Z :=
  match tr with
  | [] => []
  | Ev c r :: rest =>
      match c as c0 return result c0 -> list Z with
      | MPI_Comm_dup _ | MPI_Comm_split _ _ _ => fun r => [snd r]
      | _ => fun _ => []
      end r ++ made rest
  end.

Fixpoint comm_frees (tr : list event) : list Z :=
  match tr with
  | [] => []
  | Ev (MPI_Comm_free comm) _ :: rest => comm :: comm_frees rest
  | _ :: rest => comm_frees rest
  end.

(** What [SMIOL_init] has done when it returns [rv] and leaves [left] in
    the handle.  With a null handle the code is not success and the block
    of the context, if it was allocated, is released.  With a context, the
    code is success, nothing is released, the context records the
    arguments, no library error and a valid checksum, its three
    communicators are the ones made in the run, and the stride is not
    zero. *)
Definition init_post (tasks stride : Z) (tr : list event) (rv : retval)
  (left : option (Z * SMIOL_context)) : Prop :=
  match left with
  | None =>
      is_success rv = false /\
      frees tr = List.filter (fun p => negb (p =? 0)) (allocations tr) /\
      comm_frees tr = []
  | Some (p, c) =>
      rv = Code SMIOL_SUCCESS /\ allocations tr = [p] /\ frees tr = [] /\
      made tr = [fcomm c; async_io_comm c; async_group_comm c] /\
      num_io_tasks c = tasks /\ io_stride c = stride /\ stride <> 0 /\
      lib_ierr c = 0 /\ lib_type c = SMIOL_LIBRARY_UNKNOWN /\
      ctx_checksum c = 42424242
  end.

(** What [SMIOL_finalize] has done on the context at [p]: the handle is
    null exactly when the block of the context is released, and with
    success all three communicators of the context are freed. *)
Definition finalize_post (p : Z) (c : SMIOL_context) (tr : list event)
  (rv : retval) (left : option (Z * SMIOL_context)) : Prop :=
  allocations tr = [] /\
  match left with
  | None => frees tr = [p]
  | Some x => x = (p, c) /\ frees tr = [] /\ is_success rv = false
  end /\
  (is_success rv = true ->
   comm_frees tr = [fcomm c; async_io_comm c; async_group_comm c]).

(** Contexts that differ at most in the library error that they hold,
    which is what the operations on files change in a context. *)
Definition same_context (c c' : SMIOL_context) : Prop :=
  fcomm c' = fcomm c /\ async_io_comm c' = async_io_comm c /\
  async_group_comm c' = async_group_comm c /\
  ctx_checksum c' = ctx_checksum c.

(** A run of [SMIOL_init] on rank 3 of 8 with a stride of 2, and of
    [SMIOL_finalize] on the context that it leaves. *)
Definition init0_run : outcome (retval * option (Z * SMIOL_context)) * list event :=
  Eval vm_compute in run 8 3 (SMIOL_init 91 4 2 PTR) 1000.

Definition init0_left : option (Z * SMIOL_context) :=
  match fst init0_run with
  | Returned (_, x) => x
  | Crashed => None
  end.

Definition finalize0_run
  : outcome (retval * option (Z * SMIOL_context)) * list event :=
  Eval vm_compute in run 8 3 (SMIOL_finalize (Some init0_left)) 2000.

End Lifecycle.

(** An inquiry about whether [x] is the record dimension, with a null
    [dimsize]; the backend does not know the dimension (status -46). *)
Definition null_dimsize_run : outcome inquire_dim_result * list event :=
  Eval vm_compute in
    run scripted
      (SMIOL_inquire_dim PTR (Some "x") None (Some 7) (world0 PNETCDF_DATA_MODE))
      (mk_script [-46] [] 1000).

(** ** A context that miscounts the I/O tasks

    [SMIOL_init] stores [num_io_tasks] as it is given, and makes the
    I/O-task communicator from the ranks and the stride alone: on an I/O
    task its ranks are the ranks whose number is a multiple of
    [io_stride]. *)
Definition io_task_ranks (c : SMIOL_context) : list Z :=
  List.filter (fun r => Z.rem r (io_stride c) =? 0)
    (map Z.of_nat (seq 0 (Z.to_nat (comm_size c)))).

(** The context of rank [rank] after eight ranks have called
    [SMIOL_init(comm, 2, 2, &context)]: two I/O tasks announced, a stride
    of 2. *)
Definition ctx2 (rank : Z) : SMIOL_context :=
  match fst (Lifecycle.run 8 rank (Lifecycle.SMIOL_init 91 2 2 PTR) 1000) with
  | Returned (_, Some (_, c)) => c
  | _ => ctx0
  end.

(** An open file with the descriptors [q] queued and its writer running. *)
Definition file2 (q : list SMIOL_async_buffer) : SMIOL_file :=
  mk_file 0 1 4 5 0 (replicate (Z.to_nat N_REQS) 0) 1 7 PNETCDF_DATA_MODE q
          (Some 1) 1 42424242.

Definition world2 (rank : Z) (q : list SMIOL_async_buffer) : world :=
  mk_world (ctx2 rank) (file2 q).

(** The four I/O tasks in one round of their writers: ranks 0 and 2 have a
    descriptor queued, ranks 4 and 6 have none. *)
Definition round2_worlds : list world :=
  [world2 0 [descriptor0]; world2 2 [descriptor0]; world2 4 []; world2 6 []].

Definition round2_flags : list Z :=
  map (fun w => SMIOL_async_queue_empty (queue (w_file w))) round2_worlds.

(** The iteration of one of these writers: the all-reduce delivers the sum
    of the four flags. *)
Definition round2_run (w : world) : outcome world * list event :=
  run scripted (async_write_iteration w)
      (mk_script [] [mpi_sum round2_flags] 1000).

Definition busy2_run : outcome world * list event :=
  Eval vm_compute in round2_run (world2 0 [descriptor0]).

Definition busy2_world : world :=
  match fst busy2_run with
  | Returned w => w
  | Crashed => world2 0 [descriptor0]
  end.

Definition idle2_run : outcome world * list event :=
  Eval vm_compute in round2_run (world2 4 []).

Definition idle2_world : world :=
  match fst idle2_run with
  | Returned w => w
  | Crashed => world2 4 []
  end.

(** ** What the inquiries of a run delivered *)

(** The values that the broadcasts of the variable [name] left on this
    rank along a run, in order. *)
Fixpoint bcast_values (name : string) (tr : list event) : list Z :=
  match tr with
  | [] => []
  | Ev c r :: rest =>
      (match c as c0 return result c0 -> list Z with
      | MPI_Bcast n _ _ _ _ => fun v => if String.eqb n name then [v] else []
      | _ => fun _ => []
      end r ++ bcast_values name rest)%list
  end.

(** The dimension sizes that [SMIOL_inquire_dim] delivered, by axis: the
    inquiries run from the last axis to the first, and each leaves in
    [*dimsize] what the broadcast of [dimsize] delivered. *)
Definition inquired_dimsizes (tr : list event) : list Z :=
  reverse (bcast_values "dimsize" tr).

(** Whether the dimension of the latest inquiry is the record dimension:
    its id is the id of the unlimited dimension, as the two broadcasts of
    that inquiry delivered them; [u] when there was no inquiry. *)
Definition latest_unlimited (u : Z) (tr : list event) : Z :=
  match last (bcast_values "unlimdimidp" tr), last (bcast_values "dimidp" tr) with
  | Some x, Some y => if x =? y then 1 else 0
  | _, _ => u
  end.

(** What the inquiries leave in [has_unlimited_dim], which starts as 0. *)
Definition inquired_unlimited (tr : list event) : Z := latest_unlimited 0 tr.

(** The type of the variable, from the netCDF type that the broadcast of
    [xtypep] delivered. *)
Definition inquired_type (tr : list event) : smiol_vartype :=
  match bcast_values "xtypep" tr with
  | x :: _ => smiol_type_of x
  | [] => SMIOL_UNKNOWN_VAR_TYPE
  end.

(** The number of dimensions of the variable, as the first broadcast of
    [ndimsp] delivered it. *)
Definition inquired_ndims (tr : list event) : Z :=
  default 0 (head (bcast_values "ndimsp" tr)).

(** ** Runs that end in undefined behaviour *)

(** What the trace of such a run is like when no status that it received
    has failed: the status protocol holds along it. *)
Definition crash_post (w : world) (tr : list event) : Prop :=
  status_protocol (io_group_comm (w_file w)) tr /\
  status_origin None tr /\
  failed_status tr = None.

(** The one place where an operation stores through a pointer that it has
    not tested: [SMIOL_inquire_dim] with a null [dimsize], when the lookup
    of the dimension id, whose status is the first that the run receives,
    has failed. *)
Definition null_lookup_failed (op : api_op) (tr : list event) : bool :=
  match op with
  | op_inquire_dim _ None _ =>
      match received_statuses tr with
      | e :: _ => negb (e =? NC_NOERR)
      | [] => false
      end
  | _ => false
  end.

(** ** The writer thread beside the calling thread *)

(** Modelled from the spec: the writer of a file is a thread of its own
    ("One OS thread per file for writes, plus the application threads that
    call the API"), and [SMIOL_async_join_thread], whose body is not among
    the sources, "joins the writer": it returns once the thread function
    [async_write] has returned, that is, once its loop has found
    [file->active] clear.

    [alongside w tr wtr w'] is a run of the two threads on one file: the
    calling thread makes the calls [tr] while the writer, which finds the
    file as in [w], makes the calls [wtr] and leaves the file as in [w'].
    Between two calls of the calling thread the writer may make an
    iteration of its loop, which it does only while [file->active] is set;
    a join of the calling thread returns when the writer has run its loop
    to the end; and the other calls of the calling thread are those of an
    operation that leaves the queue, the request table and the active flag
    alone. *)
Inductive alongside : world -> list event -> list event -> world -> Prop :=
| alongside_end w : alongside w [] [] w
| alongside_iteration w t w1 tr wtr w' :
    active (w_file w) <> 0 ->
    exec (async_write_iteration w) t (Returned w1) ->
    alongside w1 tr wtr w' ->
    alongside w tr (t ++ wtr) w'
| alongside_call w e tr wtr w' :
    is_join (ev_call e) = false ->
    alongside w tr wtr w' ->
    alongside w (e :: tr) wtr w'
| alongside_join w e fuel t w1 tr wtr w' :
    is_join (ev_call e) = true ->
    exec (async_write_loop fuel w) t (Returned (true, w1)) ->
    alongside w1 tr wtr w' ->
    alongside w (e :: tr) (t ++ wtr) w'.

(** A read of the scalar variable [x] from the file on which [descriptor0]
    has just been queued. *)
Definition get_var1_run : outcome (retval * world) * list event :=
  Eval vm_compute in
    run scripted
      (SMIOL_get_var false PTR (Some "x"%string) None 100 writer_world0)
      (mk_script [] [] 1000).

Definition get_var1_trace : list event := snd get_var1_run.

(** ** A run that fills name buffers *)

(** An inquiry about the variable [x] of two dimensions, with two name
    buffers of 64 bytes. *)
Definition inquire_var2 : api_op :=
  op_inquire_var (Some "x") (Some SMIOL_UNKNOWN_VAR_TYPE) (Some 0)
    (Some [buffer 64 None; buffer 64 None]).

Definition inquire_var2_run : outcome (retval * world) * list event :=
  Eval vm_compute in
    run scripted (run_op PTR inquire_var2 (world0 PNETCDF_DATA_MODE))
      (mk_script [0; 1; 0; 5; 0; 2; 0; 0; 0] [] 1000).

Definition inquire_var2_trace : list event := snd inquire_var2_run.

Local Close Scope string_scope.

(** * Proofs *)

(** ** Runs of programs *)

Lemma exec_bind {A B : Type} (p : prog A) (f : A -> prog B) tr o :
  exec (bind p f) tr o <->
  (exec p tr Crashed /\ o = Crashed) \/
  (exists a tr1 tr2,
      exec p tr1 (Returned a) /\ exec (f a) tr2 o /\ tr = tr1 ++ tr2).
Proof.
  revert tr. induction p as [a| |c k IH]; intros tr; simpl.
  - split.
    + intros H. right. exists a, [], tr. repeat split; auto.
    + intros [[[_ H] _]|(a' & tr1 & tr2 & [-> H1] & H2 & ->)]; [discriminate|].
      injection H1 as ->. exact H2.
  - split.
    + intros [-> ->]. left. auto.
    + intros [[[-> _] ->]|(a' & tr1 & tr2 & [_ H1] & _)]; [auto|discriminate].
  - split.
    + intros (r & tr' & -> & H). apply IH in H.
      destruct H as [[H ->]|(a & tr1 & tr2 & H1 & H2 & ->)].
      * left. split; [|reflexivity]. exists r, tr'. auto.
      * right. exists a, (Ev c r :: tr1), tr2. repeat split; auto.
        exists r, tr1. auto.
    + intros [[(r & tr' & -> & H) ->]|(a & tr1 & tr2 & (r & tr' & -> & H1) & H2 & ->)].
      * exists r, tr'. split; [reflexivity|]. apply IH. left. auto.
      * exists r, (tr' ++ tr2). split; [reflexivity|]. apply IH. right.
        exists a, tr', tr2. auto.
Qed.

(** A run under a handler is a run. *)
Lemma run_exec {A E : Type} (h : handler E) (p : prog A) (e : E) :
  exec p (snd (run h p e)) (fst (run h p e)).
Proof.
  revert e. induction p as [a| |c k IH]; intros e; simpl; auto.
  destruct (h c e) as [r e'] eqn:Hh.
  specialize (IH r e'). destruct (run h (k r) e') as [o tr]. simpl in *.
  exists r, tr. auto.
Qed.

Lemma holds_ret {A : Type} (a : A) (Q : list event -> outcome A -> Prop) :
  Q [] (Returned a) -> holds (Ret a) Q.
Proof. intros H tr o [-> ->]. exact H. Qed.

Lemma holds_crash {A : Type} (Q : list event -> outcome A -> Prop) :
  Q [] Crashed -> holds Crash Q.
Proof. intros H tr o [-> ->]. exact H. Qed.

Lemma holds_vis {A : Type} c (k : result c -> prog A) Q :
  (forall r, holds (k r) (fun tr o => Q (Ev c r :: tr) o)) ->
  holds (Vis c k) Q.
Proof. intros H tr o (r & tr' & -> & Hk). exact (H r tr' o Hk). Qed.

Lemma holds_bind {A B : Type} (p : prog A) (f : A -> prog B) Q :
  holds p (fun tr1 o1 =>
             match o1 with
             | Crashed => Q tr1 Crashed
             | Returned a => holds (f a) (fun tr2 o => Q (tr1 ++ tr2) o)
             end) ->
  holds (bind p f) Q.
Proof.
  intros H tr o He. apply exec_bind in He.
  destruct He as [[He ->]|(a & tr1 & tr2 & H1 & H2 & ->)].
  - exact (H _ _ He).
  - exact (H _ _ H1 _ _ H2).
Qed.

Lemma holds_weaken {A : Type} (p : prog A) (Q Q' : list event -> outcome A -> Prop) :
  holds p Q -> (forall tr o, Q tr o -> Q' tr o) -> holds p Q'.
Proof. intros H HQ tr o He. apply HQ, H, He. Qed.

(** Using a proved property of a sub-program at a bind. *)
Lemma holds_bind_with {A B : Type} (p : prog A) (f : A -> prog B) Q0 Q :
  holds p Q0 ->
  (forall tr1, Q0 tr1 Crashed -> Q tr1 Crashed) ->
  (forall tr1 a, Q0 tr1 (Returned a) ->
                 holds (f a) (fun tr2 o => Q (tr1 ++ tr2) o)) ->
  holds (bind p f) Q.
Proof.
  intros H0 Hc Hr. apply holds_bind. eapply holds_weaken; [exact H0|].
  intros tr [a|] HQ; auto.
Qed.

(** ** Integer conversions *)

Lemma to_int64_range z : - 2 ^ 63 <= to_int64 z < 2 ^ 63.
Proof.
  unfold to_int64, two_64.
  pose proof (Z.mod_pos_bound (z + 2 ^ 63) (2 ^ 64) ltac:(lia)). lia.
Qed.

Lemma to_int64_id z : - 2 ^ 63 <= z < 2 ^ 63 -> to_int64 z = z.
Proof.
  intros H. unfold to_int64, two_64. rewrite Z.mod_small; lia.
Qed.

Lemma to_int64_idem z : to_int64 (to_int64 z) = to_int64 z.
Proof. apply to_int64_id, to_int64_range. Qed.

Lemma to_size_t_id z : 0 <= z < two_64 -> to_size_t z = z.
Proof. intros H. unfold to_size_t. apply Z.mod_small. exact H. Qed.

(** Symbolic execution of a hypothesis [H : exec p tr o]. *)
Ltac exec_step H :=
  cbn [exec bind do_call] in H;
  lazymatch type of H with
  | ex _ =>
      let r := fresh "r" in
      let tr := fresh "tr" in
      destruct H as (r & tr & -> & H)
  | _ = [] /\ _ => destruct H as [-> H]
  | exec (if ?b then _ else _) _ _ => destruct b eqn:?
  | exec (bind (if ?b then _ else _) _) _ _ => destruct b eqn:?
  | exec (match ?x with _ => _ end) _ _ => destruct x eqn:?
  | exec (bind (match ?x with _ => _ end) _) _ _ => destruct x eqn:?
  end.

Ltac exec_steps H := repeat exec_step H.


(** ** The writer loop *)

Lemma flush_requests_runs w tr o :
  exec (flush_requests w) tr o ->
  calls tr = [ncmpi_wait_all (ncidp (w_file w)) (n_reqs (w_file w))
                             (reqs (w_file w))] /\
  o = Returned (with_file (set_n_reqs 0 (w_file w)) w).
Proof.
  unfold flush_requests. intros H. exec_steps H. subst. auto.
Qed.

(** Every run of the branch [if (async != NULL)]: either the slot
    [file->n_reqs] lies in the request table and the run is the one the code
    describes, or it does not and the run stops at the out-of-bounds slot. *)
Lemma async_write_put_cases a w tr o :
  exec (async_write_put a w) tr o ->
  exists usage max_usage,
    let f := w_file w in
    let slot := if must_flush max_usage w then 0 else n_reqs f in
    let before :=
      [ncmpi_inq_buffer_usage (ncidp f);
       MPI_Allreduce_max (projected_usage usage a) (async_io_comm (w_ctx w))]
      ++ (if must_flush max_usage w
          then [ncmpi_wait_all (ncidp f) (n_reqs f) (reqs f)] else []) in
    if (0 <=? slot) && (slot <? Z.of_nat (length (reqs f))) then
      exists req w',
        o = Returned w' /\
        calls tr = before ++
          [bput_of a; free (a_ptr (ab_mpi_start a));
           free (a_ptr (ab_mpi_count a)); free (ab_buf a); free (ab_self a)] /\
        n_reqs (w_file w') = slot + 1 /\
        reqs (w_file w') = <[Z.to_nat slot := req]> (reqs f) /\
        queue (w_file w') = queue f /\
        active (w_file w') = active f /\
        w_ctx w' = w_ctx w /\
        state (w_file w') = state f
    else o = Crashed /\ calls tr = before.
Proof.
  intros H. unfold async_write_put in H.
  exec_step H. exec_step H.
  fold (must_flush r0 w) in H.
  exists (snd r), r0. cbn zeta.
  destruct (must_flush r0 w) eqn:Hf.
  - cbn [bind] in H. apply exec_bind in H.
    destruct H as [[H _]|(w1 & tr1 & tr2 & H1 & H2 & ->)].
    { apply flush_requests_runs in H. destruct H as [_ H]. discriminate. }
    apply flush_requests_runs in H1. destruct H1 as [Hc1 Hw1].
    injection Hw1 as ->. cbn [w_file with_file n_reqs set_n_reqs reqs] in H2.
    destruct ((0 <=? 0) && (0 <? Z.of_nat (length (reqs (w_file w))))) eqn:Hr.
    + exec_steps H2. subst. exists (snd r1). eexists.
      split; [reflexivity|]. split.
      { unfold calls in *. cbn [map ev_call]. rewrite map_app, Hc1. reflexivity. }
      repeat split.
    + exec_steps H2. subst. split; [reflexivity|].
      unfold calls in *. cbn [map ev_call]. rewrite map_app, Hc1. reflexivity.
  - cbn [bind] in H.
    destruct ((0 <=? n_reqs (w_file w)) &&
              (n_reqs (w_file w) <? Z.of_nat (length (reqs (w_file w))))) eqn:Hr.
    + exec_steps H. subst. exists (snd r1). eexists.
      split; [reflexivity|]. repeat split.
    + exec_steps H. subst. split; reflexivity.
Qed.

Lemma async_write_put_runs a w tr o :
  0 <= n_reqs (w_file w) <= N_REQS ->
  Z.of_nat (length (reqs (w_file w))) = N_REQS ->
  exec (async_write_put a w) tr o ->
  exists usage max_usage req w',
    let f := w_file w in
    let slot := if must_flush max_usage w then 0 else n_reqs f in
    o = Returned w' /\
    calls tr =
      [ncmpi_inq_buffer_usage (ncidp f);
       MPI_Allreduce_max (projected_usage usage a) (async_io_comm (w_ctx w))]
      ++ (if must_flush max_usage w
          then [ncmpi_wait_all (ncidp f) (n_reqs f) (reqs f)] else [])
      ++ [bput_of a; free (a_ptr (ab_mpi_start a));
          free (a_ptr (ab_mpi_count a)); free (ab_buf a); free (ab_self a)] /\
    n_reqs (w_file w') = slot + 1 /\
    reqs (w_file w') = <[Z.to_nat slot := req]> (reqs f) /\
    queue (w_file w') = queue f /\
    active (w_file w') = active f /\
    w_ctx w' = w_ctx w /\
    state (w_file w') = state f.
Proof.
  intros Hn Hlen H. apply async_write_put_cases in H.
  destruct H as (usage & mx & H). cbn zeta in H.
  exists usage, mx.
  assert (Hr : (0 <=? (if must_flush mx w then 0 else n_reqs (w_file w))) &&
               ((if must_flush mx w then 0 else n_reqs (w_file w))
                <? Z.of_nat (length (reqs (w_file w)))) = true).
  { rewrite Hlen. apply andb_true_iff.
    destruct (must_flush mx w) eqn:Hf; [split; reflexivity|].
    unfold must_flush in Hf. apply orb_false_iff in Hf. destruct Hf as [_ Hf].
    apply Z.eqb_neq in Hf. split; [apply Z.leb_le|apply Z.ltb_lt]; lia. }
  rewrite Hr in H. destruct H as (req & w' & H). exists req, w'.
  cbn zeta. rewrite <- app_assoc in H. exact H.
Qed.

(** The same run with the answers of the environment: the usage that the
    query delivered is the one that enters the all-reduce, and the maximum
    that the all-reduce delivered is the one that decides the flush. *)
Lemma async_write_put_events a w tr w' :
  exec (async_write_put a w) tr (Returned w') ->
  exists (status usage max_usage : Z) (waited : Z) (put : Z * Z),
    let f := w_file w in
    let flush := must_flush max_usage w in
    let slot := if flush then 0 else n_reqs f in
    tr = [Ev (ncmpi_inq_buffer_usage (ncidp f)) (status, usage);
          Ev (MPI_Allreduce_max (projected_usage usage a)
                                (async_io_comm (w_ctx w))) max_usage]
         ++ (if flush
             then [Ev (ncmpi_wait_all (ncidp f) (n_reqs f) (reqs f)) waited]
             else [])
         ++ [Ev (bput_of a) put; Ev (free (a_ptr (ab_mpi_start a))) tt;
             Ev (free (a_ptr (ab_mpi_count a))) tt; Ev (free (ab_buf a)) tt;
             Ev (free (ab_self a)) tt] /\
    n_reqs (w_file w') = slot + 1 /\
    reqs (w_file w') = <[Z.to_nat slot := snd put]> (reqs f).
Proof.
  intros H. unfold async_write_put in H.
  exec_step H. exec_step H. destruct r as [status usage].
  fold (must_flush r0 w) in H. cbn [snd] in H.
  destruct (must_flush r0 w) eqn:Hf; cbn [bind] in H;
    [unfold flush_requests in H|];
    exec_steps H; try discriminate; injection H as ->;
    repeat match goal with
           | u : result (free _) |- _ => cbn in u; destruct u
           end;
    match goal with
    | p : result (ncmpi_bput_vara _ _ _ _ _) |- _ =>
        match goal with
        | q : result (ncmpi_wait_all _ _ _) |- _ =>
            exists status, usage, r0, q, p
        | _ => exists status, usage, r0, 0, p
        end
    end;
    cbn zeta; rewrite Hf; repeat split.
Qed.

Lemma async_write_iteration_runs w tr o :
  exec (async_write_iteration w) tr o ->
  exists sum_empty rest,
    tr = Ev SMIOL_async_ticket_lock tt
         :: Ev (MPI_Allreduce_sum (SMIOL_async_queue_empty (queue (w_file w)))
                                  (async_io_comm (w_ctx w))) sum_empty
         :: Ev SMIOL_async_ticket_unlock tt :: rest /\
    if unanimous w sum_empty then
      match fst (async_write_dequeue w sum_empty) with
      | Some a => exec (async_write_put a (snd (async_write_dequeue w sum_empty))) rest o
      | None =>
          if n_reqs (w_file (snd (async_write_dequeue w sum_empty))) >? 0
          then exec (flush_requests (snd (async_write_dequeue w sum_empty))) rest o
          else rest = [] /\ o = Returned (snd (async_write_dequeue w sum_empty))
      end
    else rest = [] /\ o = Returned w.
Proof.
  unfold async_write_iteration. intros H.
  exec_step H. exec_step H. destruct r.
  destruct (async_write_dequeue w r0) as [async w1] eqn:Hd.
  exec_step H. destruct r.
  match type of H with exec _ ?t _ => exists r0, t end.
  split; [reflexivity|]. rewrite ?Hd. cbn [fst snd].
  destruct (unanimous w r0) eqn:Hu.
  - destruct async as [a|]; [exact H|].
    destruct (n_reqs (w_file w1) >? 0); [exact H|].
    exec_step H. auto.
  - exec_step H. unfold async_write_dequeue in Hd. rewrite Hu in Hd.
    injection Hd as _ <-. auto.
Qed.

Lemma queue_empty_flag q : is_flag (SMIOL_async_queue_empty q).
Proof. destruct q; [right|left]; reflexivity. Qed.

Lemma unanimous_spec w s :
  unanimous w s = true <-> s = 0 \/ s = num_io_tasks (w_ctx w).
Proof.
  unfold unanimous. rewrite orb_true_iff, !Z.eqb_eq. reflexivity.
Qed.

(** Sums of flags. *)
Lemma mpi_sum_cons x l : mpi_sum (x :: l) = x + mpi_sum l.
Proof. reflexivity. Qed.

Lemma mpi_sum_flags_bounds l :
  Forall is_flag l -> 0 <= mpi_sum l <= Z.of_nat (length l).
Proof.
  induction 1 as [|x l Hx Hl IH].
  - cbn. lia.
  - rewrite mpi_sum_cons. cbn [length]. destruct Hx as [->| ->]; lia.
Qed.

Lemma mpi_sum_flags_zero l :
  Forall is_flag l -> mpi_sum l = 0 -> Forall (eq 0) l.
Proof.
  induction 1 as [|x l Hx Hl IH]; intros Hs; [constructor|].
  rewrite mpi_sum_cons in Hs.
  pose proof (mpi_sum_flags_bounds l Hl).
  destruct Hx as [->| ->]; [|lia].
  constructor; [reflexivity|]. apply IH. lia.
Qed.

Lemma mpi_sum_flags_full l :
  Forall is_flag l -> mpi_sum l = Z.of_nat (length l) -> Forall (eq 1) l.
Proof.
  induction 1 as [|x l Hx Hl IH]; intros Hs; [constructor|].
  rewrite mpi_sum_cons in Hs. cbn [length] in Hs.
  pose proof (mpi_sum_flags_bounds l Hl).
  destruct Hx as [->| ->]; [lia|].
  constructor; [reflexivity|]. apply IH. lia.
Qed.

(** When the sum of the flags of all I/O tasks is 0 or their number, every
    peer holds the flag of this rank. *)
Lemma unanimous_flags (own : Z) (peers : list Z) (n : Z) :
  is_flag own -> Forall is_flag peers ->
  Z.of_nat (length (own :: peers)) = n ->
  mpi_sum (own :: peers) = 0 \/ mpi_sum (own :: peers) = n ->
  Forall (eq own) peers.
Proof.
  intros Ho Hp Hn [Hs|Hs].
  - apply mpi_sum_flags_zero in Hs; [|constructor; assumption].
    inversion Hs as [|? ? <- Hs']. exact Hs'.
  - rewrite <- Hn in Hs. apply mpi_sum_flags_full in Hs; [|constructor; assumption].
    inversion Hs as [|? ? <- Hs']. exact Hs'.
Qed.



(** ** The producer's critical section *)

Lemma put_var_enqueue_runs a w tr o :
  exec (put_var_enqueue a w) tr o ->
  exists w',
    o = Returned w' /\
    queue (w_file w') = queue (w_file w) ++ [a] /\
    n_reqs (w_file w') = n_reqs (w_file w) /\
    reqs (w_file w') = reqs (w_file w) /\
    active (w_file w') = (if active (w_file w) =? 0 then 1 else active (w_file w)) /\
    state (w_file w') = state (w_file w) /\
    w_ctx w' = w_ctx w /\
    forallb (fun c => negb (is_free c) && negb (is_ncmpi c)) (calls tr) = true.
Proof.
  unfold put_var_enqueue, join_writer. intros H.
  exec_step H.
  cbn [w_file with_file active set_queue] in H.
  destruct (active (w_file w) =? 0) eqn:Ha; exec_steps H; subst;
    eexists; repeat split; cbn; rewrite ?Ha; reflexivity.
Qed.

(** ** Histories *)

Lemma outstanding_app l1 l2 n :
  outstanding (l1 ++ l2) n = outstanding l2 (outstanding l1 n).
Proof.
  revert n. induction l1 as [|c l1 IH]; intros n; [reflexivity|].
  destruct c; cbn [app outstanding]; apply IH.
Qed.

Lemma bputs_app l1 l2 : bputs (l1 ++ l2) = bputs l1 ++ bputs l2.
Proof.
  induction l1 as [|c l1 IH]; [reflexivity|].
  destruct c; cbn [app bputs]; rewrite IH; reflexivity.
Qed.

Lemma calls_app tr1 tr2 : calls (tr1 ++ tr2) = calls tr1 ++ calls tr2.
Proof. apply map_app. Qed.

Lemma async_write_dequeue_none w s w1 :
  async_write_dequeue w s = (None, w1) ->
  unanimous w s = true ->
  queue (w_file w) = [] /\
  queue (w_file w1) = [] /\
  n_reqs (w_file w1) = n_reqs (w_file w) /\
  reqs (w_file w1) = reqs (w_file w) /\
  w_ctx w1 = w_ctx w /\
  state (w_file w1) = state (w_file w) /\
  active (w_file w1) = (if n_reqs (w_file w) =? 0 then 0 else active (w_file w)) /\
  ncidp (w_file w1) = ncidp (w_file w).
Proof.
  unfold async_write_dequeue. intros H Hu. rewrite Hu in H.
  destruct (queue (w_file w)) as [|a q]; cbn in H; [|discriminate].
  destruct (n_reqs (w_file w) =? 0) eqn:Hn; injection H as <-; cbn;
    rewrite ?Hn; repeat split.
Qed.

Lemma async_write_dequeue_some w s a w1 :
  async_write_dequeue w s = (Some a, w1) ->
  unanimous w s = true /\
  queue (w_file w) = a :: queue (w_file w1) /\
  n_reqs (w_file w1) = n_reqs (w_file w) /\
  reqs (w_file w1) = reqs (w_file w) /\
  w_ctx w1 = w_ctx w /\
  state (w_file w1) = state (w_file w) /\
  active (w_file w1) = active (w_file w) /\
  ncidp (w_file w1) = ncidp (w_file w).
Proof.
  unfold async_write_dequeue. intros H.
  destruct (unanimous w s); [|discriminate].
  destruct (queue (w_file w)) as [|b q]; cbn in H.
  - destruct (n_reqs (w_file w) =? 0); discriminate.
  - injection H as <- <-. repeat split.
Qed.

Lemma writer_reach_inv w0 enq wtr w :
  opened w0 -> writer_reach w0 enq wtr w -> writer_inv enq wtr w.
Proof.
  intros (Hq0 & Hn0 & Ha0 & Hl0) Hr.
  induction Hr as [|enq wtr w a tr w' _ IH He|enq wtr w tr w' _ IH Hact He
                  |enq wtr w w' _ IH Hs].
  - unfold writer_inv. rewrite Hq0, Hn0. cbn. repeat split; auto; try lia.
  - destruct IH as (I1 & I2 & I3 & I4 & I5).
    apply put_var_enqueue_runs in He.
    destruct He as (w2 & Hw & Eq & En & Er & Ea & _).
    injection Hw as <-. unfold writer_inv.
    rewrite Eq, En, Er, Ea, !map_app, app_assoc, I2.
    refine (conj I1 (conj eq_refl (conj I3 (conj I4 _)))).
    intros Hz. destruct (active (w_file w) =? 0) eqn:E0; [discriminate|].
    apply Z.eqb_neq in E0. contradiction.
  - destruct IH as (I1 & I2 & I3 & I4 & I5).
    apply async_write_iteration_runs in He.
    destruct He as (s & rest & -> & He).
    unfold writer_inv. rewrite calls_app, outstanding_app, bputs_app, <- I1.
    cbn [calls map ev_call outstanding bputs app].
    destruct (unanimous w s) eqn:Hu.
    + destruct (async_write_dequeue w s) as [[a|] w1] eqn:Hd; cbn [fst snd] in He.
      * apply async_write_dequeue_some in Hd.
        destruct Hd as (_ & Dq & Dn & Dr & Dc & Ds & Da & Di).
        apply async_write_put_runs in He; [|rewrite Dn; exact I3|rewrite Dr; exact I4].
        destruct He as (usage & mx & req & w2 & Hw & Hc & Hn & Hrq & Hq & Hacti & _).
        injection Hw as <-. fold (calls rest). rewrite Hc.
        rewrite !outstanding_app, !bputs_app. rewrite Hn, Hrq, Hq, Hacti, Da.
        rewrite length_insert, Dr, Dn.
        rewrite Dq in I2. cbn [map] in I2. rewrite <- I2, <- app_assoc.
        assert (Hfl : must_flush mx w1 = true \/
                      (must_flush mx w1 = false /\ n_reqs (w_file w) < N_REQS)).
        { destruct (must_flush mx w1) eqn:Hf; [left; reflexivity|right].
          split; [reflexivity|]. unfold must_flush in Hf.
          apply orb_false_iff in Hf. destruct Hf as [_ Hf].
          apply Z.eqb_neq in Hf. rewrite Dn in Hf. lia. }
        destruct Hfl as [Hf|[Hf Hlt]]; rewrite Hf; cbn; unfold bput_of.
        all: unfold N_REQS in *;
          repeat match goal with |- _ /\ _ => split end;
          auto; try lia; intros Hz; contradiction.
      * apply async_write_dequeue_none in Hd; [|exact Hu].
        destruct Hd as (Dq & Dq1 & Dn & Dr & Dc & Ds & Da & Di).
        destruct (n_reqs (w_file w1) >? 0) eqn:Hpos.
        -- apply flush_requests_runs in He. destruct He as [Hc Hw].
           injection Hw as ->. fold (calls rest). rewrite Hc. cbn.
           rewrite Dq1, Dr. rewrite Dq in I2. unfold N_REQS in *.
           cbn [map] in *. rewrite ?app_nil_r in *.
           repeat match goal with |- _ /\ _ => split end; auto; try lia.
        -- destruct He as [-> Hw]. injection Hw as ->. cbn.
           rewrite Dq1, Dn, Dr. rewrite Dq in I2.
           rewrite Dn in Hpos. rewrite Z.gtb_ltb in Hpos. apply Z.ltb_ge in Hpos.
           cbn [map] in *. rewrite ?app_nil_r in *.
           repeat match goal with |- _ /\ _ => split end; auto; try lia.
           rewrite Da. destruct (n_reqs (w_file w) =? 0) eqn:Hz0.
           ++ apply Z.eqb_eq in Hz0. auto.
           ++ intros Hz. contradiction.
    + destruct He as [-> Hw]. injection Hw as ->. cbn.
      rewrite ?app_nil_r.
      repeat match goal with |- _ /\ _ => split end; auto; lia.
  - destruct IH as (I1 & I2 & I3 & I4 & I5).
    destruct Hs as (Sq & Sn & Sr & Sa).
    unfold writer_inv. rewrite Sq, Sn, Sr, Sa.
    repeat match goal with |- _ /\ _ => split end; auto; lia.
Qed.

Lemma list_cons_neq {A : Type} (a : A) (l : list A) : l <> a :: l.
Proof.
  intros H. apply (f_equal (@length A)) in H. cbn in H. lia.
Qed.

(** C2. In every reachable state the outstanding-request count is within
    [0, N_REQS], and every writer iteration returns and leaves it so.  An
    iteration that popped a descriptor [a] runs in this order: the buffer
    usage query, which answers [usage]; the all-reduce with MAX of [usage]
    plus the descriptor's size, which answers [max_usage]; then, exactly when
    [max_usage] exceeds [BUFSIZE] or the count has reached [N_REQS], a
    wait-all over the request table, after which the count is zero; and only
    then the buffered put, whose request lands in the slot that the count
    names and adds one to the count. *)
Theorem async_write_back_pressure (w0 : world)
  (enq : list SMIOL_async_buffer) (wtr : list event) (w : world)
  (tr : list event) (o : outcome world) :
  opened w0 ->
  writer_reach w0 enq wtr w ->
  exec (async_write_iteration w) tr o ->
  0 <= n_reqs (w_file w) <= N_REQS /\
  exists w',
    o = Returned w' /\
    0 <= n_reqs (w_file w') <= N_REQS /\
    forall a : SMIOL_async_buffer,
      queue (w_file w) = a :: queue (w_file w') ->
      exists (sum_empty status usage max_usage waited : Z) (put : Z * Z),
        let f := w_file w in
        let comm := async_io_comm (w_ctx w) in
        let flush := (max_usage >? BUFSIZE) || (n_reqs f =? N_REQS) in
        let slot := if flush then 0 else n_reqs f in
        tr =
          [Ev SMIOL_async_ticket_lock tt;
           Ev (MPI_Allreduce_sum 0 comm) sum_empty;
           Ev SMIOL_async_ticket_unlock tt;
           Ev (ncmpi_inq_buffer_usage (ncidp f)) (status, usage);
           Ev (MPI_Allreduce_max (to_int64 (to_int64 (usage + ab_bufsize a)))
                                 comm) max_usage]
          ++ (if flush
              then [Ev (ncmpi_wait_all (ncidp f) (n_reqs f) (reqs f)) waited]
              else [])
          ++ [Ev (bput_of a) put; Ev (free (a_ptr (ab_mpi_start a))) tt;
              Ev (free (a_ptr (ab_mpi_count a))) tt; Ev (free (ab_buf a)) tt;
              Ev (free (ab_self a)) tt] /\
        n_reqs (w_file w') = slot + 1 /\
        reqs (w_file w') = <[Z.to_nat slot := snd put]> (reqs f).
Proof.
  intros Ho Hr He.
  pose proof (writer_reach_inv _ _ _ _ Ho Hr) as (I1 & I2 & I3 & I4 & I5).
  split; [exact I3|].
  apply async_write_iteration_runs in He.
  destruct He as (s & rest & -> & He).
  destruct (unanimous w s) eqn:Hu.
  - destruct (async_write_dequeue w s) as [[a|] w1] eqn:Hd; cbn [fst snd] in He.
    + apply async_write_dequeue_some in Hd.
      destruct Hd as (_ & Dq & Dn & Dr & Dc & Ds & Da & Di).
      pose proof He as He'.
      apply async_write_put_runs in He'; [|rewrite Dn; exact I3|rewrite Dr; exact I4].
      destruct He' as (_ & _ & _ & w2 & -> & _ & _ & _ & Hq & _).
      apply async_write_put_events in He.
      destruct He as (status & usage & mx & waited & put & Ht & Hn & Hrq).
      cbn zeta in Ht, Hn, Hrq.
      exists w2. split; [reflexivity|].
      assert (Hb : 0 <= n_reqs (w_file w2) <= N_REQS).
      { rewrite Hn. destruct (must_flush mx w1) eqn:Hf; [unfold N_REQS; lia|].
        unfold must_flush in Hf. apply orb_false_iff in Hf. destruct Hf as [_ Hf].
        apply Z.eqb_neq in Hf. lia. }
      split; [exact Hb|].
      intros a' Ha'. rewrite Dq, Hq in Ha'. injection Ha' as <-.
      exists s, status, usage, mx, waited, put.
      cbn zeta. unfold must_flush, projected_usage in *.
      rewrite Dn, Dr, Dc, Di in *. rewrite Dq. cbn [SMIOL_async_queue_empty].
      split; [rewrite Ht; reflexivity|]. split; assumption.
    + apply async_write_dequeue_none in Hd; [|exact Hu].
      destruct Hd as (Dq & Dq1 & Dn & Dr & Dc & Ds & Da & Di).
      destruct (n_reqs (w_file w1) >? 0).
      * apply flush_requests_runs in He. destruct He as [_ ->].
        eexists. split; [reflexivity|]. cbn. split; [unfold N_REQS; lia|].
        intros a Ha. rewrite Dq in Ha. discriminate.
      * destruct He as [-> ->]. exists w1. split; [reflexivity|].
        rewrite Dn. split; [exact I3|].
        intros a Ha. rewrite Dq in Ha. discriminate.
  - destruct He as [-> ->]. exists w. split; [reflexivity|].
    split; [exact I3|]. intros a Ha. exfalso. exact (list_cons_neq _ _ Ha).
Qed.

(** An iteration that finds [file->active] set and leaves it clear. *)
Lemma async_write_iteration_exit w tr w' :
  active (w_file w) <> 0 ->
  exec (async_write_iteration w) tr (Returned w') ->
  active (w_file w') = 0 ->
  queue (w_file w) = [] /\
  n_reqs (w_file w) = 0 /\
  queue (w_file w') = [] /\
  n_reqs (w_file w') = 0 /\
  exists sum_empty,
    tr = [Ev SMIOL_async_ticket_lock tt;
          Ev (MPI_Allreduce_sum 1 (async_io_comm (w_ctx w))) sum_empty;
          Ev SMIOL_async_ticket_unlock tt] /\
    (sum_empty = 0 \/ sum_empty = num_io_tasks (w_ctx w)).
Proof.
  intros Hact He Hz.
  apply async_write_iteration_runs in He.
  destruct He as (s & rest & -> & He).
  destruct (unanimous w s) eqn:Hu.
  - destruct (async_write_dequeue w s) as [[a|] w1] eqn:Hd; cbn [fst snd] in He.
    + exfalso. apply async_write_dequeue_some in Hd.
      destruct Hd as (_ & Dq & Dn & Dr & Dc & Ds & Da & Di).
      apply async_write_put_cases in He. destruct He as (usage & mx & He).
      cbn zeta in He.
      destruct ((0 <=? (if must_flush mx w1 then 0 else n_reqs (w_file w1))) &&
                ((if must_flush mx w1 then 0 else n_reqs (w_file w1))
                 <? Z.of_nat (length (reqs (w_file w1))))).
      * destruct He as (req & w2 & Hw & _ & _ & _ & _ & Ha2 & _).
        injection Hw as <-. rewrite Ha2, Da in Hz. contradiction.
      * destruct He as [He _]. discriminate.
    + apply async_write_dequeue_none in Hd; [|exact Hu].
      destruct Hd as (Dq & Dq1 & Dn & Dr & Dc & Ds & Da & Di).
      assert (Hn0 : n_reqs (w_file w) = 0).
      { destruct (n_reqs (w_file w1) >? 0).
        - apply flush_requests_runs in He. destruct He as [_ Hw].
          injection Hw as ->. cbn in Hz. rewrite Da in Hz.
          destruct (n_reqs (w_file w) =? 0) eqn:E; [apply Z.eqb_eq, E|contradiction].
        - destruct He as [_ Hw]. injection Hw as <-. rewrite Da in Hz.
          destruct (n_reqs (w_file w) =? 0) eqn:E; [apply Z.eqb_eq, E|contradiction]. }
      rewrite Dn, Hn0 in He. change (0 >? 0) with false in He.
      destruct He as [-> Hw]. injection Hw as <-.
      rewrite Dq1, Dn. repeat split; auto.
      exists s. rewrite Dq. split; [reflexivity|]. apply unanimous_spec, Hu.
  - destruct He as [_ Hw]. injection Hw as <-. contradiction.
Qed.

(** The loop returns only on a file with nothing queued and nothing
    outstanding, provided it holds on entry whenever the flag is clear. *)
Lemma async_write_loop_exit fuel w tr w' :
  (active (w_file w) = 0 ->
   queue (w_file w) = [] /\ n_reqs (w_file w) = 0) ->
  exec (async_write_loop fuel w) tr (Returned (true, w')) ->
  active (w_file w') = 0 /\ queue (w_file w') = [] /\ n_reqs (w_file w') = 0.
Proof.
  revert w tr. induction fuel as [|fuel IH]; intros w tr Hq He;
    cbn [async_write_loop] in He.
  - destruct (active (w_file w) =? 0) eqn:Ha.
    + destruct He as [_ Hw]. injection Hw as <-.
      apply Z.eqb_eq in Ha. split; [exact Ha|]. exact (Hq Ha).
    + destruct He as [_ Hw]. discriminate.
  - destruct (active (w_file w) =? 0) eqn:Ha.
    + destruct He as [_ Hw]. injection Hw as <-.
      apply Z.eqb_eq in Ha. split; [exact Ha|]. exact (Hq Ha).
    + apply Z.eqb_neq in Ha. apply exec_bind in He.
      destruct He as [[_ He]|(w1 & tr1 & tr2 & H1 & H2 & ->)]; [discriminate|].
      apply (IH w1 tr2); [|exact H2].
      intros Hz.
      pose proof (async_write_iteration_exit w tr1 w1 Ha H1 Hz) as (_ & _ & Q & N & _).
      auto.
Qed.



(** Once the writer is not active, every descriptor queued so far has been
    handed to the backend, in the order of queueing, and no put is left
    without the wait-all that retires it. *)
Lemma writer_quiescent w0 enq wtr w :
  opened w0 ->
  writer_reach w0 enq wtr w ->
  active (w_file w) = 0 ->
  queue (w_file w) = [] /\
  n_reqs (w_file w) = 0 /\
  bputs (calls wtr) = map bput_of enq /\
  outstanding (calls wtr) 0 = 0.
Proof.
  intros Ho Hr Hz.
  pose proof (writer_reach_inv _ _ _ _ Ho Hr) as (I1 & I2 & I3 & I4 & I5).
  destruct (I5 Hz) as [Q N]. rewrite Q in I2. cbn [map] in I2.
  rewrite app_nil_r in I2. rewrite <- I1. auto.
Qed.

(** ** Concrete runs *)

Lemma enqueue0_exec :
  exec (put_var_enqueue descriptor0 (world0 PNETCDF_DATA_MODE)) enqueue0_trace
       (Returned writer_world0).
Proof. exact (run_exec scripted _ (mk_script [] [] 1)). Qed.

Lemma iteration0_exec :
  exec (async_write_iteration writer_world0) iteration0_trace
       (Returned iteration0_world).
Proof. exact (run_exec scripted _ (mk_script [] [] 1000)). Qed.

Lemma writer0_exec :
  exec (async_write 3 writer_world0) writer0_trace (fst writer0_run).
Proof. exact (run_exec scripted _ (mk_script [] [] 1000)). Qed.

Lemma world0_opened : opened (world0 PNETCDF_DATA_MODE).
Proof. repeat split; reflexivity. Qed.

Lemma writer_world0_reach :
  writer_reach (world0 PNETCDF_DATA_MODE) [descriptor0] [] writer_world0.
Proof.
  exact (reach_enqueue _ [] [] _ descriptor0 _ _ (reach_start _) enqueue0_exec).
Qed.


Lemma async_write_back_pressure_witness :
  opened (world0 PNETCDF_DATA_MODE) /\
  writer_reach (world0 PNETCDF_DATA_MODE) [descriptor0] [] writer_world0 /\
  exec (async_write_iteration writer_world0) iteration0_trace
       (Returned iteration0_world) /\
  0 <= n_reqs (w_file writer_world0) <= N_REQS.
Proof.
  split; [exact world0_opened|]. split; [exact writer_world0_reach|].
  split; [exact iteration0_exec|].
  exact (proj1 (async_write_back_pressure _ _ _ _ _ _ world0_opened
                  writer_world0_reach iteration0_exec)).
Defined.

Lemma exit0_exec :
  exec (async_write_iteration idle_world0) exit0_trace (Returned exit0_world).
Proof. exact (run_exec scripted _ (mk_script [] [] 1000)). Qed.


(** C4, as stated, fails: in the run of the writer on [writer_world0] the
    buffer of the queued descriptor is released right after its buffered put,
    and the wait-all that retires the put comes only in the next
    iteration. *)
Lemma buffer_freed_before_wait_all :
  exec (async_write 3 writer_world0) writer0_trace
       (Returned (true, writer0_world)) /\
  queue (w_file writer_world0) = [descriptor0] /\
  take 11 (calls writer0_trace) =
    [sched_setaffinity; SMIOL_async_ticket_lock; MPI_Allreduce_sum 0 2;
     SMIOL_async_ticket_unlock; ncmpi_inq_buffer_usage 7;
     MPI_Allreduce_max 64 2; bput_of descriptor0;
     free 910; free 920; free (ab_buf descriptor0); free 900] /\
  existsb is_wait_all (drop 11 (calls writer0_trace)) = true /\
  free_only_after_wait (ab_buf descriptor0) 0 (calls writer0_trace) = false.
Proof.
  split; [exact writer0_exec|]. repeat split; reflexivity.
Qed.

(** C4, amended.  The critical section of [SMIOL_put_var] appends the
    descriptor to the queue and releases nothing.  In the iteration that pops
    a descriptor the writer releases nothing before the buffered put; it
    releases the descriptor's arrays, its buffer and the descriptor itself
    right after the put has returned, while the request of that put is still
    outstanding: the wait-all that retires it is issued later. *)
Theorem descriptor_buffer_release :
  (forall (a : SMIOL_async_buffer) (w : world) (tr : list event)
          (o : outcome world),
      exec (put_var_enqueue a w) tr o ->
      exists w',
        o = Returned w' /\
        queue (w_file w') = queue (w_file w) ++ [a] /\
        forallb (fun c => negb (is_free c)) (calls tr) = true) /\
  (forall (a : SMIOL_async_buffer) (w : world) (tr : list event) (w' : world),
      exec (async_write_put a w) tr (Returned w') ->
      exists before,
        calls tr = before ++
          [bput_of a; free (a_ptr (ab_mpi_start a));
           free (a_ptr (ab_mpi_count a)); free (ab_buf a); free (ab_self a)] /\
        forallb (fun c => negb (is_free c)) before = true /\
        1 <= n_reqs (w_file w') /\
        outstanding (calls tr) (n_reqs (w_file w)) = n_reqs (w_file w')).
Proof.
  split.
  - intros a w tr o He. apply put_var_enqueue_runs in He.
    destruct He as (w' & -> & Q & _ & _ & _ & _ & _ & Hf).
    exists w'. repeat split; auto.
    clear - Hf. induction (calls tr) as [|c l IH]; [reflexivity|].
    cbn in *. apply andb_true_iff in Hf. destruct Hf as [Hc Hl].
    apply andb_true_iff in Hc. destruct Hc as [Hc _].
    rewrite Hc. cbn. auto.
  - intros a w tr w' He. apply async_write_put_cases in He.
    destruct He as (usage & mx & He). cbn zeta in He.
    destruct ((0 <=? (if must_flush mx w then 0 else n_reqs (w_file w))) &&
              ((if must_flush mx w then 0 else n_reqs (w_file w))
               <? Z.of_nat (length (reqs (w_file w))))) eqn:Hr.
    + destruct He as (req & w2 & Hw & Hc & Hn & _).
      injection Hw as <-. eexists. split; [exact Hc|].
      apply andb_true_iff in Hr. destruct Hr as [Hr _]. apply Z.leb_le in Hr.
      rewrite Hc, Hn, !outstanding_app.
      destruct (must_flush mx w); cbn; repeat split; lia.
    + destruct He as [He _]. discriminate.
Qed.

Lemma descriptor_buffer_release_witness :
  exec (put_var_enqueue descriptor0 (world0 PNETCDF_DATA_MODE)) enqueue0_trace
       (Returned writer_world0) /\
  forallb (fun c => negb (is_free c)) (calls enqueue0_trace) = true.
Proof.
  split; [exact enqueue0_exec|].
  destruct (proj1 descriptor_buffer_release _ _ _ _ enqueue0_exec)
    as (w' & _ & _ & H).
  exact H.
Defined.

(** ** Traces of the API functions *)

Lemma received_statuses_app tr1 tr2 :
  received_statuses (tr1 ++ tr2) = received_statuses tr1 ++ received_statuses tr2.
Proof.
  induction tr1 as [|e tr1 IH]; [reflexivity|]. cbn [app received_statuses].
  destruct (ierr_bcast e) as [[[v c] r]|]; rewrite IH; reflexivity.
Qed.

Lemma failed_status_find tr :
  failed_status tr =
  List.find (fun r => negb (r =? NC_NOERR)) (received_statuses tr).
Proof.
  induction tr as [|e tr IH]; [reflexivity|].
  cbn [failed_status received_statuses].
  destruct (ierr_bcast e) as [[[v c] r]|]; [|exact IH].
  cbn [List.find]. destruct (negb (r =? NC_NOERR)); [reflexivity|exact IH].
Qed.

Lemma failed_status_app tr1 tr2 :
  failed_status (tr1 ++ tr2) =
  match failed_status tr1 with
  | Some e => Some e
  | None => failed_status tr2
  end.
Proof.
  induction tr1 as [|e tr1 IH]; [reflexivity|]. cbn [app failed_status].
  destruct (ierr_bcast e) as [[[v c] r]|]; [|exact IH].
  destruct (negb (r =? NC_NOERR)); [reflexivity|exact IH].
Qed.

Lemma calls_where_app P tr1 tr2 :
  calls_where P (tr1 ++ tr2) = calls_where P tr1 ++ calls_where P tr2.
Proof.
  induction tr1 as [|e tr1 IH]; [reflexivity|]. cbn [app calls_where].
  rewrite IH. destruct (P (ev_call e)); reflexivity.
Qed.

Lemma calls_where_weaken (P Q : call -> bool) tr :
  (forall c, Q c = true -> P c = true) ->
  calls_where P tr = [] -> calls_where Q tr = [].
Proof.
  intros HPQ. induction tr as [|e tr IH]; [reflexivity|]. cbn [calls_where].
  destruct (Q (ev_call e)) eqn:HQ.
  - rewrite (HPQ _ HQ). discriminate.
  - destruct (P (ev_call e)); [discriminate|exact IH].
Qed.

Lemma backend_statuses_app tr1 tr2 :
  backend_statuses (tr1 ++ tr2) = backend_statuses tr1 ++ backend_statuses tr2.
Proof.
  induction tr1 as [|e tr1 IH]; [reflexivity|]. cbn [app backend_statuses].
  destruct (backend_status e); rewrite IH; reflexivity.
Qed.

Lemma backend_failure_app tr1 tr2 :
  backend_failure (tr1 ++ tr2) =
  match backend_failure tr1 with
  | Some e => Some e
  | None => backend_failure tr2
  end.
Proof.
  unfold backend_failure. rewrite backend_statuses_app.
  induction (backend_statuses tr1) as [|r l IH]; [reflexivity|].
  cbn [app List.find]. destruct (negb (r =? NC_NOERR)); auto.
Qed.

Lemma status_protocol_app grp tr1 tr2 :
  status_protocol grp tr1 -> status_protocol grp tr2 ->
  status_protocol grp (tr1 ++ tr2).
Proof.
  intros H1 H2. induction tr1 as [|e tr1 IH]; [exact H2|].
  cbn [app status_protocol] in *. destruct H1 as [He H1].
  split; [|exact (IH H1)].
  destruct (backend_status e); [|exact I].
  destruct tr1 as [|e' tr1]; [contradiction|exact He].
Qed.

Lemma status_origin_weaken prev tr :
  status_origin None tr -> status_origin prev tr.
Proof.
  destruct tr as [|e tr]; [exact id|]. cbn [status_origin].
  intros [He H]. split; [|exact H].
  destruct (ierr_bcast e) as [[[[s|] c] r]|]; [discriminate|exact I|exact I].
Qed.

Lemma status_origin_app prev tr1 tr2 :
  status_origin prev tr1 -> status_origin None tr2 ->
  status_origin prev (tr1 ++ tr2).
Proof.
  revert prev. induction tr1 as [|e tr1 IH]; intros prev H1 H2.
  - apply status_origin_weaken, H2.
  - cbn [app status_origin] in *. destruct H1 as [He H1]. split; auto.
Qed.

Lemma latched_app w tr1 tr2 :
  latched w (tr1 ++ tr2) =
  match failed_status tr1 with
  | Some e => latch e w
  | None => latched w tr2
  end.
Proof.
  unfold latched. rewrite failed_status_app.
  destruct (failed_status tr1); reflexivity.
Qed.

(** Symbolic execution through the idioms of the API functions. *)
Ltac bind_head p :=
  lazymatch p with
  | bind ?q _ => bind_head q
  | _ => p
  end.

Ltac api_step H :=
  unfold on_io_task, bcast_ierr, bcast_int, read_local, or_return, set_default,
    store_through, join_writer, switch_to_define_mode, switch_to_data_mode in H;
  cbn [exec bind do_call option_map] in H;
  lazymatch type of H with
  | ex _ =>
      let r := fresh "r" in
      let tr := fresh "tr" in
      destruct H as (r & tr & -> & H)
  | _ = [] /\ _ => destruct H as [-> H]
  | exec ?p _ _ =>
      let h := bind_head p in
      lazymatch h with
      | if ?b then _ else _ =>
          first [ match goal with Hb : b = _ |- _ => rewrite Hb in H end
                | destruct b eqn:? ]
      | match ?x with _ => _ end => destruct x eqn:?
      end
  end.

Ltac api_steps H :=
  repeat api_step H;
  try (progress cbn [exec bind do_call option_map] in H).

(** Closing a leaf: the trace is explicit. *)
Ltac trace_facts :=
  cbn [status_protocol received_statuses failed_status backend_status
       ierr_bcast backend_statuses backend_failure leader_trace latched
       List.find String.eqb Ascii.eqb Bool.eqb fst snd calls map ev_call app
       w_file w_ctx with_file with_ctx latch].

Lemma exec_bind_ret {A B : Type} (p : prog A) (f : A -> prog B) tr b :
  exec (bind p f) tr (Returned b) ->
  exists a tr1 tr2,
    exec p tr1 (Returned a) /\ exec (f a) tr2 (Returned b) /\ tr = tr1 ++ tr2.
Proof.
  intros H. apply exec_bind in H.
  destruct H as [[_ H]|H]; [discriminate|exact H].
Qed.

Lemma sync_calls_mode tr : sync_calls tr = [] -> mode_calls tr = [].
Proof.
  apply calls_where_weaken. intros c H. unfold is_sync_call. rewrite H.
  reflexivity.
Qed.

Lemma sync_calls_join_read tr : sync_calls tr = [] -> join_read_calls tr = [].
Proof.
  apply calls_where_weaken. intros c H. unfold is_sync_call, is_join_or_read in *.
  destruct (is_mode_call c); [reflexivity|exact H].
Qed.

Lemma status_protocol_cons_quiet grp e tr :
  backend_status e = None ->
  status_protocol grp tr -> status_protocol grp (e :: tr).
Proof. intros He H. cbn [status_protocol]. rewrite He. auto. Qed.

Lemma w_file_latched w tr : w_file (latched w tr) = w_file w.
Proof. unfold latched. destruct (failed_status tr); reflexivity. Qed.

Lemma w_ctx_latched w tr :
  w_ctx (latched w tr) =
  match failed_status tr with
  | Some e => set_lib_error SMIOL_LIBRARY_PNETCDF e (w_ctx w)
  | None => w_ctx w
  end.
Proof. unfold latched. destruct (failed_status tr); reflexivity. Qed.

(** Returned values of finished runs. *)
Ltac inj_ret :=
  repeat match goal with
         | H : Returned _ = Returned _ |- _ => injection H; clear H; intros; subst
         | H : Crashed = Returned _ |- _ => discriminate H
         | H : Returned _ = Crashed |- _ => discriminate H
         end.

(** Normalising the facts about an explicit trace. *)
Ltac trace_step :=
  cbn [status_protocol status_origin failed_status calls_where backend_status
       ierr_bcast
       ev_call is_sync_call is_mode_call is_join is_read is_join_or_read orb
       String.eqb Ascii.eqb Bool.eqb option_map fst snd app negb] in *;
  rewrite ?failed_status_app, ?calls_where_app;
  repeat match goal with
         | H : (_ =? NC_NOERR) = _ |- _ => progress rewrite H
         | H : failed_status _ = _ |- _ => progress rewrite H
         | H : calls_where _ _ = _ |- _ => progress rewrite H
         end.

Ltac leaf :=
  subst;
  unfold inquiry_post, inquiry_step, latched, mode_calls, sync_calls,
    join_read_calls in *;
  repeat match goal with
         | H : negb _ = true |- _ => apply negb_true_iff in H
         | H : negb _ = false |- _ => apply negb_false_iff in H
         end;
  repeat (progress trace_step).

Ltac finish :=
  repeat match goal with
         | |- _ /\ _ => split
         | |- True => exact I
         | |- ex _ => eexists; reflexivity
         | |- status_protocol _ (_ ++ _) => apply status_protocol_app
         | H : forall grp, status_protocol grp ?t |- status_protocol _ ?t =>
             apply H
         | |- status_origin _ (_ ++ _) => apply status_origin_app
         | H : forall prev, status_origin prev ?t |- status_origin _ ?t =>
             apply H
         | H : status_origin None ?t |- status_origin _ ?t =>
             apply status_origin_weaken, H
         | |- status_protocol _ _ =>
             progress cbn [status_protocol backend_status ierr_bcast]
         | |- status_origin _ _ =>
             progress cbn [status_origin backend_status ierr_bcast]
         | |- _ = _ => reflexivity
         | |- _ -> _ => intro
         end;
  try assumption; try congruence; try tauto;
  try (repeat match goal with
              | H : context [failed_status ?t] |- _ => revert H
              end;
       repeat match goal with
              | |- context [failed_status ?t] => destruct (failed_status t)
              end;
       intros; try reflexivity; try congruence;
       try match goal with
           | H : _ -> ?G |- ?G => apply H; congruence
           end).

(** Using the lemma [lem] about the call at the head of [H]. *)
Ltac call_post H lem :=
  let a := fresh "a" in
  let Ha := fresh "Hcall" in
  first
    [ apply exec_bind_ret in H;
      destruct H as (a & ? & ? & Ha & H & ->); apply lem in Ha
    | apply lem in H ].

Lemma quiet_nil : quiet_trace [].
Proof. repeat split. Qed.

Lemma status_origin_cons_quiet prev e tr :
  ierr_bcast e = None -> backend_status e = None ->
  status_origin None tr -> status_origin prev (e :: tr).
Proof. intros Hi Hb H. cbn [status_origin]. rewrite Hi, Hb. auto. Qed.

Lemma quiet_cons e tr :
  backend_status e = None -> ierr_bcast e = None ->
  is_sync_call (ev_call e) = false ->
  quiet_trace tr -> quiet_trace (e :: tr).
Proof.
  intros Hb Hi Hs (Hp & Ho & Hc & Hf). split; [|split; [|split]].
  - intros grp. apply status_protocol_cons_quiet; auto.
  - intros prev. apply status_origin_cons_quiet; auto.
  - unfold sync_calls in *. cbn [calls_where]. rewrite Hs. exact Hc.
  - cbn [failed_status]. rewrite Hi. exact Hf.
Qed.

Lemma quiet_app tr1 tr2 :
  quiet_trace tr1 -> quiet_trace tr2 -> quiet_trace (tr1 ++ tr2).
Proof.
  intros (Hp1 & Ho1 & Hc1 & Hf1) (Hp2 & Ho2 & Hc2 & Hf2).
  split; [|split; [|split]].
  - intros grp. apply status_protocol_app; auto.
  - intros prev. apply status_origin_app; auto.
  - unfold sync_calls in *. rewrite calls_where_app, Hc1, Hc2. reflexivity.
  - rewrite failed_status_app, Hf1. exact Hf2.
Qed.

Ltac quiet :=
  repeat first
    [ exact quiet_nil
    | assumption
    | apply quiet_app
    | apply quiet_cons; [reflexivity|reflexivity|reflexivity|] ].

Lemma free_all_quiet ps tr o : exec (free_all ps) tr o -> quiet_trace tr.
Proof.
  revert tr o. induction ps as [|p ps IH]; intros tr o H; cbn [free_all] in H;
    api_steps H.
  - quiet.
  - apply IH in H. quiet.
Qed.

Lemma alloc_dimnames_quiet n allocated dimnames_ptr tr o :
  exec (alloc_dimnames n allocated dimnames_ptr) tr o -> quiet_trace tr.
Proof.
  revert allocated tr o.
  induction n as [|n IH]; intros allocated tr o H; cbn [alloc_dimnames] in H;
    api_steps H.
  - quiet.
  - apply exec_bind in H.
    destruct H as [[H ->]|(a & tr1 & tr2 & H1 & H & ->)].
    + apply free_all_quiet in H. quiet.
    + apply free_all_quiet in H1. api_steps H. quiet.
  - apply IH in H. quiet.
Qed.

Lemma inquire_dim_unlimited_post dimidp dimsize is_unlimited w tr a :
  exec (inquire_dim_unlimited dimidp dimsize is_unlimited w) tr (Returned a) ->
  inquiry_post w tr (fst (fst (fst a))) (snd a).
Proof.
  unfold inquire_dim_unlimited. intros H. api_steps H; inj_ret; leaf; finish.
Qed.

Lemma inquire_dim_pnetcdf_post name dimsize is_unlimited w tr a :
  exec (inquire_dim_pnetcdf name dimsize is_unlimited w) tr (Returned a) ->
  inquiry_post w tr (fst (fst (fst a))) (snd a).
Proof.
  unfold inquire_dim_pnetcdf. intros H. api_steps H; inj_ret.
  all: try (apply inquire_dim_unlimited_post in H; destruct H as (? & ? & ? & ?);
            destruct a as [[[rv d] u] w']).
  all: leaf; finish.
Qed.

Lemma SMIOL_inquire_dim_post file dimname dimsize is_unlimited w tr a :
  exec (SMIOL_inquire_dim file dimname dimsize is_unlimited w) tr (Returned a) ->
  inquiry_post w tr (fst (fst (fst a))) (snd a).
Proof.
  unfold SMIOL_inquire_dim. intros H. api_steps H; inj_ret.
  all: try (apply inquire_dim_pnetcdf_post in H; destruct H as (? & ? & ? & ?);
            destruct a as [[[rv d] u] w']).
  all: leaf; finish.
Qed.

(** Splitting the hypotheses produced by the lemmas above. *)
Ltac split_posts :=
  repeat match goal with
         | p : (_ * _)%type |- _ => destruct p
         end;
  cbn [fst snd] in *;
  repeat match goal with
         | H : inquiry_post _ _ _ _ /\ _ |- _ => destruct H as [H ?]
         | H : inquiry_step _ _ /\ _ |- _ => destruct H as [H ?]
         end;
  repeat match goal with
         | H : inquiry_post _ _ _ _ |- _ => destruct H as (? & ? & ? & ? & ?)
         | H : inquiry_step _ _ |- _ => destruct H as (? & ? & ? & ?)
         | H : quiet_trace _ |- _ => destruct H as (? & ? & ? & ?)
         end.

Lemma att_varid_post varname w tr a :
  exec (att_varid varname w) tr (Returned a) ->
  match a with
  | inl b => inquiry_post w tr (fst b) (snd b) /\ is_success (fst b) = false
  | inr _ => inquiry_step w tr
  end.
Proof.
  unfold att_varid. intros H. api_steps H; inj_ret; leaf; finish.
Qed.

Lemma inquire_att_value_post varidp aname att xtypep lenp att_type att_len w
  tr a :
  exec (inquire_att_value varidp aname att xtypep lenp att_type att_len w) tr
    (Returned a) ->
  inquiry_post w tr (fst (fst (fst a))) (snd a).
Proof.
  unfold inquire_att_value. intros H. api_steps H; inj_ret; leaf; finish.
Qed.

Lemma SMIOL_inquire_att_post file varname att_name att_type att_len att w tr a :
  exec (SMIOL_inquire_att file varname att_name att_type att_len att w) tr
    (Returned a) ->
  inquiry_post w tr (fst (fst (fst a))) (snd a).
Proof.
  unfold SMIOL_inquire_att. intros H. api_steps H; inj_ret.
  all: try (leaf; finish; fail).
  all: call_post H att_varid_post.
  all: api_steps H; inj_ret.
  all: try apply inquire_att_value_post in H.
  all: split_posts; leaf; finish.
Qed.

Lemma inquire_var_dimnames_post n i dimids_ptr dimids dimnames w tr a :
  exec (inquire_var_dimnames n i dimids_ptr dimids dimnames w) tr (Returned a) ->
  inquiry_post w tr (fst (fst a)) (snd a).
Proof.
  revert i dimnames tr.
  induction n as [|n IH]; intros i dimnames tr H;
    cbn [inquire_var_dimnames] in H; api_steps H; inj_ret.
  all: try (apply IH in H; destruct a as [[rv names] w']).
  all: split_posts; leaf; finish.
Qed.

Lemma SMIOL_inquire_var_post file varname vartype ndims dimnames w tr a :
  exec (SMIOL_inquire_var file varname vartype ndims dimnames w) tr
    (Returned a) ->
  inquiry_post w tr (fst (fst (fst (fst a)))) (snd a).
Proof.
  unfold SMIOL_inquire_var. intros H. api_steps H; inj_ret.
  all: try (call_post H inquire_var_dimnames_post; api_steps H; inj_ret).
  all: split_posts; leaf; finish.
Qed.

Lemma success_no_failure rv tr :
  is_success rv = true ->
  (failed_status tr <> None -> rv = Code SMIOL_LIBRARY_ERROR) ->
  failed_status tr = None.
Proof.
  intros Hs H. destruct (failed_status tr) as [e|]; [|reflexivity].
  rewrite H in Hs by discriminate. discriminate.
Qed.

(** After a call that returned success the world is the one before it. *)
Ltac succeeded :=
  repeat match goal with
         | H : negb (is_success _) = false |- _ => apply negb_false_iff in H
         | Hs : is_success ?rv = true,
           Hf : failed_status ?t <> None -> ?rv = Code SMIOL_LIBRARY_ERROR |- _ =>
             pose proof (success_no_failure _ _ Hs Hf); clear Hf
         end.

Lemma inquire_dimsizes_post n file names dimsizes has_unlimited_dim w tr a :
  exec (inquire_dimsizes n file names dimsizes has_unlimited_dim w) tr
    (Returned a) ->
  inquiry_post w tr (fst (fst (fst a))) (snd a).
Proof.
  revert dimsizes has_unlimited_dim tr.
  induction n as [|n IH]; intros dimsizes has_unlimited_dim tr H;
    cbn [inquire_dimsizes] in H; unfold read_string in H; api_steps H; inj_ret.
  all: try (leaf; finish; fail).
  all: call_post H SMIOL_inquire_dim_post; api_steps H; inj_ret.
  all: split_posts; succeeded.
  all: try match goal with
           | Hw : ?w1 = latched _ ?t, Hf : failed_status ?t = None |- _ =>
               unfold latched in Hw; rewrite Hf in Hw; subst w1
           end.
  all: try (apply IH in H; split_posts).
  all: leaf; finish.
Qed.

Ltac world_back :=
  repeat match goal with
         | Hw : ?w1 = latched _ ?t, Hf : failed_status ?t = None |- _ =>
             unfold latched in Hw; rewrite Hf in Hw; subst w1
         end.

Ltac inquiry_calls H :=
  first
    [ call_post H SMIOL_inquire_var_post
    | call_post H inquire_dimsizes_post
    | call_post H SMIOL_inquire_dim_post
    | call_post H alloc_dimnames_quiet
    | call_post H free_all_quiet ].

Ltac drive H calls :=
  api_steps H; inj_ret;
  repeat (calls H; api_steps H; inj_ret; split_posts; succeeded; world_back).

Lemma build_start_count_post file varname decomp write_or_read w tr a :
  exec (build_start_count file varname decomp write_or_read w) tr (Returned a) ->
  match fst a with
  | inl rv => inquiry_post w tr rv (snd a) /\ is_success rv = false
  | inr sc => inquiry_step w tr /\ snd a = w
  end.
Proof.
  unfold build_start_count. intros H.
  drive H ltac:(fun H => inquiry_calls H).
  all: leaf; finish.
Qed.

(** ** The operations *)

Ltac op_leaf :=
  subst; unfold status_post, mode_post, join_before_read in *;
  repeat match goal with
         | H : sync_calls ?t = [] |- _ =>
             pose proof (sync_calls_mode _ H);
             pose proof (sync_calls_join_read _ H); clear H
         end;
  leaf;
  cbn [app state w_file w_ctx with_file with_ctx set_state set_queue
       set_writer set_active set_frame latch io_task io_group_comm ncidp] in *;
  repeat match goal with
         | H : (_ =? _) = true |- _ => apply Z.eqb_eq in H
         | H : (_ =? _) = false |- _ => apply Z.eqb_neq in H
         end.

Ltac op_finish :=
  repeat match goal with
         | |- _ /\ _ => split
         | |- True => exact I
         | |- ex _ => eexists; reflexivity
         | |- status_protocol _ (_ ++ _) => apply status_protocol_app
         | H : forall grp, status_protocol grp ?t |- status_protocol _ ?t =>
             apply H
         | |- status_origin _ (_ ++ _) => apply status_origin_app
         | H : forall prev, status_origin prev ?t |- status_origin _ ?t =>
             apply H
         | H : status_origin None ?t |- status_origin _ ?t =>
             apply status_origin_weaken, H
         | |- status_origin _ _ =>
             progress cbn [status_origin backend_status ierr_bcast]
         | |- status_protocol _ _ =>
             progress cbn [status_protocol backend_status ierr_bcast]
         | |- _ = _ => reflexivity
         | |- _ -> _ => intro
         | |- _ \/ _ => first [left; solve [op_finish] | right; solve [op_finish]]
         end;
  try assumption; try congruence; try tauto;
  try (subst;
       match goal with
       | H : is_success (Code SMIOL_SUCCESS) = false |- _ => discriminate H
       end);
  try (repeat match goal with
              | H : context [failed_status ?t] |- _ => revert H
              end;
       repeat match goal with
              | |- context [failed_status ?t] => destruct (failed_status t)
              end;
       cbn [w_ctx with_ctx latch]; intros; try reflexivity; try congruence;
       try match goal with
           | H : _ -> ?G |- ?G => apply H; congruence
           | H : Some _ <> None -> _ = _ |- _ =>
               specialize (H ltac:(discriminate)); congruence
           end).

Lemma SMIOL_define_dim_post file dimname dimsize w tr a :
  exec (SMIOL_define_dim file dimname dimsize w) tr (Returned a) ->
  status_post w tr (fst a) (snd a) /\
  mode_post PNETCDF_DATA_MODE PNETCDF_DEFINE_MODE
    (ncmpi_redef (ncidp (w_file w))) w tr (fst a) (snd a) /\
  join_before_read tr.
Proof.
  unfold SMIOL_define_dim. intros H. api_steps H; inj_ret.
  all: op_leaf; op_finish.
Qed.

Lemma define_var_dimids_post n i dimnames dimids_ptr dimids w tr a :
  exec (define_var_dimids n i dimnames dimids_ptr dimids w) tr (Returned a) ->
  match a with
  | inl b => inquiry_post w tr (fst b) (snd b) /\ is_success (fst b) = false
  | inr _ => inquiry_step w tr
  end.
Proof.
  revert i dimids tr.
  induction n as [|n IH]; intros i dimids tr H;
    cbn [define_var_dimids] in H; api_steps H; inj_ret.
  all: try (apply IH in H; destruct a as [[rv w']|ids]).
  all: split_posts; leaf; finish.
Qed.

Ltac op_calls H :=
  first
    [ call_post H define_var_dimids_post
    | call_post H att_varid_post
    | call_post H build_start_count_post
    | call_post H free_all_quiet ].

Lemma SMIOL_define_var_post file varname vartype ndims dimnames w tr a :
  exec (SMIOL_define_var file varname vartype ndims dimnames w) tr
    (Returned a) ->
  status_post w tr (fst a) (snd a) /\
  mode_post PNETCDF_DATA_MODE PNETCDF_DEFINE_MODE
    (ncmpi_redef (ncidp (w_file w))) w tr (fst a) (snd a) /\
  join_before_read tr.
Proof.
  unfold SMIOL_define_var. intros H.
  drive H ltac:(fun H => op_calls H).
  all: op_leaf; op_finish.
Qed.

Lemma SMIOL_define_att_post file varname att_name att_type att w tr a :
  exec (SMIOL_define_att file varname att_name att_type att w) tr
    (Returned a) ->
  status_post w tr (fst a) (snd a) /\
  mode_post PNETCDF_DATA_MODE PNETCDF_DEFINE_MODE
    (ncmpi_redef (ncidp (w_file w))) w tr (fst a) (snd a) /\
  join_before_read tr.
Proof.
  unfold SMIOL_define_att. intros H.
  drive H ltac:(fun H => op_calls H).
  all: op_leaf; op_finish.
Qed.

Lemma SMIOL_sync_file_post file w tr a :
  exec (SMIOL_sync_file file w) tr (Returned a) ->
  status_post w tr (fst a) (snd a) /\
  mode_post PNETCDF_DEFINE_MODE PNETCDF_DATA_MODE
    (ncmpi_enddef (ncidp (w_file w))) w tr (fst a) (snd a) /\
  join_before_read tr.
Proof.
  unfold SMIOL_sync_file. intros H. api_steps H; inj_ret.
  all: op_leaf; op_finish.
Qed.

Lemma SMIOL_put_var_post agg file varname decomp buf w tr a :
  exec (SMIOL_put_var agg file varname decomp buf w) tr (Returned a) ->
  status_post w tr (fst a) (snd a) /\
  mode_post PNETCDF_DEFINE_MODE PNETCDF_DATA_MODE
    (ncmpi_enddef (ncidp (w_file w))) w tr (fst a) (snd a).
Proof.
  unfold SMIOL_put_var. intros H.
  unfold put_var_transfer, put_var_aggregate, put_var_queue, put_var_enqueue in H.
  drive H ltac:(fun H => op_calls H).
  all: op_leaf; op_finish.
Qed.

Lemma SMIOL_get_var_post agg file varname decomp buf w tr a :
  exec (SMIOL_get_var agg file varname decomp buf w) tr (Returned a) ->
  status_post w tr (fst a) (snd a) /\
  mode_post PNETCDF_DEFINE_MODE PNETCDF_DATA_MODE
    (ncmpi_enddef (ncidp (w_file w))) w tr (fst a) (snd a) /\
  join_before_read tr.
Proof.
  unfold SMIOL_get_var. intros H. unfold get_var_transfer in H.
  drive H ltac:(fun H => op_calls H).
  all: op_leaf; op_finish.
Qed.
(** ** Runs that end in undefined behaviour *)

Lemma quiet_crash w tr : quiet_trace tr -> crash_post w tr.
Proof. intros (Hp & Ho & _ & Hf). repeat split; auto. Qed.

Lemma step_crash w tr : inquiry_step w tr -> crash_post w tr.
Proof. intros (Hp & Ho & _ & Hf). repeat split; auto. Qed.

Ltac crash_leaf := unfold crash_post in *; leaf; finish.

Lemma inquire_dim_unlimited_crash dimidp dimsize is_unlimited w tr :
  exec (inquire_dim_unlimited dimidp dimsize is_unlimited w) tr Crashed ->
  False.
Proof.
  unfold inquire_dim_unlimited. intros H. api_steps H; inj_ret.
Qed.

Lemma inquire_dim_pnetcdf_crash name d is_unlimited w tr :
  exec (inquire_dim_pnetcdf name (Some d) is_unlimited w) tr Crashed -> False.
Proof.
  unfold inquire_dim_pnetcdf. intros H. api_steps H; inj_ret.
  all: exact (inquire_dim_unlimited_crash _ _ _ _ _ H).
Qed.

Lemma SMIOL_inquire_dim_crash file dimname d is_unlimited w tr :
  exec (SMIOL_inquire_dim file dimname (Some d) is_unlimited w) tr Crashed ->
  False.
Proof.
  unfold SMIOL_inquire_dim. intros H. api_steps H; inj_ret.
  all: exact (inquire_dim_pnetcdf_crash _ _ _ _ _ H).
Qed.

(** Using the lemmas about the call at the head of [H], whose run may end
    either way. *)
Ltac call_any H ret crash :=
  let a := fresh "a" in
  let Ha := fresh "Hcall" in
  apply exec_bind in H;
  destruct H as [[H _]|(a & ? & ? & Ha & H & ->)];
  [ crash H | ret Ha ].

Ltac never H lem := apply lem in H; contradiction.

Ltac crash_norm :=
  unfold crash_post, inquiry_step in *;
  repeat match goal with
         | H : _ /\ _ |- _ => destruct H
         end;
  split_posts; succeeded; world_back.

Ltac crash_finish := crash_norm; leaf; finish.

Lemma free_all_crash ps tr : exec (free_all ps) tr Crashed -> False.
Proof.
  revert tr. induction ps as [|p ps IH]; intros tr H; cbn [free_all] in H;
    api_steps H; inj_ret. exact (IH _ H).
Qed.

Lemma alloc_dimnames_crash n allocated dimnames_ptr tr :
  exec (alloc_dimnames n allocated dimnames_ptr) tr Crashed -> False.
Proof.
  revert allocated tr.
  induction n as [|n IH]; intros allocated tr H; cbn [alloc_dimnames] in H;
    api_steps H; inj_ret.
  - call_any H ltac:(fun Ha => idtac) ltac:(fun H => never H free_all_crash).
    api_steps H; inj_ret.
  - exact (IH _ _ H).
Qed.

Lemma inquire_dimsizes_crash n file names dimsizes u w tr :
  (n <= length dimsizes)%nat ->
  exec (inquire_dimsizes n file names dimsizes u w) tr Crashed ->
  inquiry_step w tr.
Proof.
  revert dimsizes u w tr.
  induction n as [|n IH]; intros dimsizes u w tr Hn H;
    cbn [inquire_dimsizes] in H; unfold read_string in H.
  - api_steps H; inj_ret.
  - destruct (dimsizes !! n) as [d0|] eqn:Ed;
      [|apply lookup_ge_None in Ed; lia].
    api_steps H; inj_ret.
    all: try (crash_finish; fail).
    all: call_any H ltac:(fun Ha => apply SMIOL_inquire_dim_post in Ha)
                    ltac:(fun H => never H SMIOL_inquire_dim_crash).
    all: api_steps H; inj_ret.
    all: split_posts; succeeded; world_back.
    all: apply IH in H;
      [|try match goal with
            | |- context [match ?o with Some _ => _ | None => _ end] =>
                destruct o
            end; rewrite ?length_insert; lia].
    all: crash_finish.
Qed.

Lemma inquire_var_dimnames_crash n i dimids_ptr dimids dimnames w tr :
  exec (inquire_var_dimnames n i dimids_ptr dimids dimnames w) tr Crashed ->
  inquiry_step w tr.
Proof.
  revert i dimnames tr.
  induction n as [|n IH]; intros i dimnames tr H;
    cbn [inquire_var_dimnames] in H; api_steps H; inj_ret.
  all: try (apply IH in H).
  all: crash_finish.
Qed.

Lemma SMIOL_inquire_var_crash file varname vartype ndims dimnames w tr :
  exec (SMIOL_inquire_var file varname vartype ndims dimnames w) tr Crashed ->
  inquiry_step w tr.
Proof.
  unfold SMIOL_inquire_var. intros H. api_steps H; inj_ret.
  all: call_any H ltac:(fun Ha => apply inquire_var_dimnames_post in Ha)
                  ltac:(fun H => apply inquire_var_dimnames_crash in H).
  all: try (api_steps H; inj_ret).
  all: crash_finish.
Qed.

Ltac crash_calls H :=
  first
    [ call_any H ltac:(fun Ha => apply SMIOL_inquire_var_post in Ha)
                 ltac:(fun H => apply SMIOL_inquire_var_crash in H)
    | call_any H ltac:(fun Ha => apply inquire_dimsizes_post in Ha)
                 ltac:(fun H => apply inquire_dimsizes_crash in H;
                                [|rewrite length_replicate; lia])
    | call_any H ltac:(fun Ha => apply alloc_dimnames_quiet in Ha)
                 ltac:(fun H => never H alloc_dimnames_crash)
    | call_any H ltac:(fun Ha => apply free_all_quiet in Ha)
                 ltac:(fun H => never H free_all_crash) ].

Ltac crash_drive H calls :=
  api_steps H; inj_ret;
  repeat (calls H; try (api_steps H; inj_ret); split_posts; succeeded;
          world_back).

Lemma build_start_count_crash file varname decomp write_or_read w tr :
  exec (build_start_count file varname decomp write_or_read w) tr Crashed ->
  inquiry_step w tr.
Proof.
  unfold build_start_count. intros H.
  crash_drive H ltac:(fun H => crash_calls H).
  all: crash_finish.
Qed.

Lemma define_var_dimids_crash n i dimnames dimids_ptr dimids w tr :
  exec (define_var_dimids n i dimnames dimids_ptr dimids w) tr Crashed ->
  inquiry_step w tr.
Proof.
  revert i dimids tr.
  induction n as [|n IH]; intros i dimids tr H;
    cbn [define_var_dimids] in H; api_steps H; inj_ret.
  all: try (apply IH in H).
  all: crash_finish.
Qed.

Lemma att_varid_crash varname w tr :
  exec (att_varid varname w) tr Crashed -> False.
Proof. unfold att_varid. intros H. api_steps H; inj_ret. Qed.

Lemma inquire_att_value_crash varidp aname att xtypep lenp att_type att_len w
  tr :
  exec (inquire_att_value varidp aname att xtypep lenp att_type att_len w) tr
    Crashed -> False.
Proof. unfold inquire_att_value. intros H. api_steps H; inj_ret. Qed.

Ltac op_crash_calls H :=
  first
    [ call_any H ltac:(fun Ha => apply define_var_dimids_post in Ha)
                 ltac:(fun H => apply define_var_dimids_crash in H)
    | call_any H ltac:(fun Ha => apply att_varid_post in Ha)
                 ltac:(fun H => never H att_varid_crash)
    | call_any H ltac:(fun Ha => apply build_start_count_post in Ha)
                 ltac:(fun H => apply build_start_count_crash in H)
    | call_any H ltac:(fun Ha => apply free_all_quiet in Ha)
                 ltac:(fun H => never H free_all_crash) ].

Ltac op_crash_finish := crash_norm; op_leaf; op_finish.

Lemma SMIOL_define_var_crash file varname vartype ndims dimnames w tr :
  exec (SMIOL_define_var file varname vartype ndims dimnames w) tr Crashed ->
  crash_post w tr.
Proof.
  unfold SMIOL_define_var. intros H.
  crash_drive H ltac:(fun H => op_crash_calls H).
  all: op_crash_finish.
Qed.

Lemma SMIOL_put_var_crash agg file varname decomp buf w tr :
  exec (SMIOL_put_var agg file varname decomp buf w) tr Crashed ->
  crash_post w tr.
Proof.
  unfold SMIOL_put_var. intros H.
  unfold put_var_transfer, put_var_aggregate, put_var_queue, put_var_enqueue in H.
  crash_drive H ltac:(fun H => op_crash_calls H).
  all: op_crash_finish.
Qed.

Lemma SMIOL_get_var_crash agg file varname decomp buf w tr :
  exec (SMIOL_get_var agg file varname decomp buf w) tr Crashed ->
  inquiry_step w tr.
Proof.
  unfold SMIOL_get_var. intros H. unfold get_var_transfer in H.
  crash_drive H ltac:(fun H => op_crash_calls H).
  all: crash_finish.
Qed.

Lemma SMIOL_inquire_att_crash file varname att_name att_type att_len att w tr :
  exec (SMIOL_inquire_att file varname att_name att_type att_len att w) tr
    Crashed -> False.
Proof.
  unfold SMIOL_inquire_att, att_varid, inquire_att_value. intros H.
  api_steps H; inj_ret.
Qed.

Lemma run_op_crash file op w tr :
  exec (run_op file op w) tr Crashed ->
  null_lookup_failed op tr = false ->
  crash_post w tr.
Proof.
  intros H Hn. destruct op; cbn [run_op] in H.
  - unfold SMIOL_define_dim in H. api_steps H; inj_ret.
  - exact (SMIOL_define_var_crash _ _ _ _ _ _ _ H).
  - unfold SMIOL_define_att in H.
    crash_drive H ltac:(fun H => op_crash_calls H).
  - destruct dimsize as [d|].
    + call_any H ltac:(fun Ha => idtac)
                 ltac:(fun H => never H SMIOL_inquire_dim_crash).
      api_steps H; inj_ret.
    + exfalso. unfold SMIOL_inquire_dim, inquire_dim_pnetcdf,
        inquire_dim_unlimited in H.
      cbn [null_lookup_failed] in Hn.
      api_steps H; inj_ret;
        cbn [received_statuses ierr_bcast String.eqb Ascii.eqb Bool.eqb]
          in Hn;
        apply negb_false_iff in Hn; congruence.
  - call_any H ltac:(fun Ha => idtac)
               ltac:(fun H => apply SMIOL_inquire_var_crash in H).
    + exact (step_crash _ _ H).
    + api_steps H; inj_ret.
  - call_any H ltac:(fun Ha => idtac)
               ltac:(fun H => never H SMIOL_inquire_att_crash).
    api_steps H; inj_ret.
  - exact (SMIOL_put_var_crash _ _ _ _ _ _ _ H).
  - exact (step_crash _ _ (SMIOL_get_var_crash _ _ _ _ _ _ _ H)).
  - unfold SMIOL_sync_file in H. api_steps H; inj_ret.
  - unfold SMIOL_set_frame in H. api_steps H; inj_ret.
  - unfold SMIOL_get_frame in H. api_steps H; inj_ret.
Qed.

(** ** Start and count *)

Lemma start_count_axis_spec file_frame rank decomp write_or_read u i d es :
  0 <= file_frame < two_64 -> 0 <= d < two_64 ->
  fst (start_count_axis file_frame rank decomp write_or_read u (Z.of_nat i) d es) =
  spec_start_count file_frame rank decomp write_or_read (negb (u =? 0)) i d.
Proof.
  intros Hf Hd. unfold start_count_axis, spec_start_count.
  rewrite (to_size_t_id d Hd), (to_size_t_id file_frame Hf).
  replace (Z.of_nat i =? 0) with (Nat.eqb i 0)
    by (destruct i; reflexivity).
  replace (Z.of_nat i =? 1) with (Nat.eqb i 1)
    by (destruct i as [|[|i]]; try reflexivity; symmetry; apply Z.eqb_neq; lia).
  destruct (negb (u =? 0)), decomp as [dc|], (write_or_read =? START_COUNT_WRITE),
    (negb (rank =? 0)), i as [|[|i]]; reflexivity.
Qed.

Lemma start_count_loop_axes file_frame rank decomp write_or_read u :
  forall dimsizes k es start count,
    (k + length dimsizes <= length start)%nat ->
    (k + length dimsizes <= length count)%nat ->
    let r := start_count_loop file_frame rank decomp write_or_read u k dimsizes
               es start count in
    length (snd (fst r)) = length start /\
    length (snd r) = length count /\
    (forall j, (j < k)%nat ->
       snd (fst r) !! j = start !! j /\ snd r !! j = count !! j) /\
    (forall j d, dimsizes !! j = Some d ->
       exists e,
         let a := start_count_axis file_frame rank decomp write_or_read u
                    (Z.of_nat (k + j)) d e in
         snd (fst r) !! (k + j)%nat = Some (fst (fst a)) /\
         snd r !! (k + j)%nat = Some (snd (fst a))).
Proof.
  induction dimsizes as [|d rest IH]; intros k es start count Hs Hc;
    cbn [start_count_loop length] in *.
  - cbn [fst snd]. repeat split; auto. intros j d' Hj. discriminate.
  - destruct (start_count_axis file_frame rank decomp write_or_read u
                (Z.of_nat k) d es) as [[s c] es'] eqn:Ha.
    specialize (IH (S k) es' (<[k:=s]> start) (<[k:=c]> count)).
    rewrite !length_insert in IH.
    destruct (IH ltac:(lia) ltac:(lia)) as (L1 & L2 & Hlow & Hhigh).
    split; [exact L1|]. split; [exact L2|]. split.
    + intros j Hj. destruct (Hlow j ltac:(lia)) as [E1 E2].
      rewrite E1, E2, !list_lookup_insert_ne by lia. auto.
    + intros [|j] d' Hj.
      * cbn in Hj. injection Hj as <-. exists es.
        rewrite Nat.add_0_r, Ha. cbn [fst snd].
        destruct (Hlow k ltac:(lia)) as [E1 E2]. rewrite E1, E2.
        rewrite !list_lookup_insert_eq by lia. auto.
      * cbn in Hj. destruct (Hhigh j d' Hj) as [e He]. exists e.
        replace (k + S j)%nat with (S k + j)%nat by lia. exact He.
Qed.

Lemma inquire_dimsizes_length n file names dimsizes u w tr a :
  exec (inquire_dimsizes n file names dimsizes u w) tr (Returned a) ->
  length (snd (fst (fst a))) = length dimsizes.
Proof.
  revert dimsizes u w tr.
  induction n as [|n IH]; intros dimsizes u w tr H;
    cbn [inquire_dimsizes] in H; unfold read_string in H; api_steps H; inj_ret; try reflexivity.
  all: apply exec_bind_ret in H; destruct H as (b & tr1 & tr2 & _ & H & ->).
  all: api_steps H; inj_ret; try apply IH in H; cbn [fst snd] in *.
  all: rewrite ?H; destruct o0; rewrite ?length_insert; reflexivity.
Qed.

(** ** The values that the inquiries delivered *)

Lemma bcast_values_app name tr1 tr2 :
  bcast_values name (tr1 ++ tr2) = bcast_values name tr1 ++ bcast_values name tr2.
Proof.
  induction tr1 as [|[c r] tr1 IH]; [reflexivity|].
  cbn [app bcast_values]. rewrite IH. apply app_assoc.
Qed.

(** Normalising the values of an explicit trace. *)
Ltac values_norm :=
  repeat (progress (rewrite ?bcast_values_app in *;
                    cbn [bcast_values String.eqb Ascii.eqb Bool.eqb app] in * )).

Lemma free_all_values ps tr o :
  exec (free_all ps) tr o -> forall name, bcast_values name tr = [].
Proof.
  revert tr. induction ps as [|p ps IH]; intros tr H name; cbn [free_all] in H;
    api_steps H; [reflexivity|]. exact (IH _ H name).
Qed.

Lemma alloc_dimnames_values n allocated dimnames_ptr tr o :
  exec (alloc_dimnames n allocated dimnames_ptr) tr o ->
  forall name, bcast_values name tr = [].
Proof.
  revert allocated tr.
  induction n as [|n IH]; intros allocated tr H name; cbn [alloc_dimnames] in H;
    api_steps H.
  - reflexivity.
  - apply exec_bind in H.
    destruct H as [[H ->]|(a & tr1 & tr2 & H1 & H & ->)].
    + exact (free_all_values _ _ _ H name).
    + pose proof (free_all_values _ _ _ H1 name) as E. api_steps H.
      values_norm. rewrite E. reflexivity.
  - exact (IH _ _ H name).
Qed.

Lemma alloc_dimnames_length n allocated dimnames_ptr tr ptrs :
  exec (alloc_dimnames n allocated dimnames_ptr) tr (Returned (Some ptrs)) ->
  length ptrs = (length allocated + n)%nat.
Proof.
  revert allocated tr.
  induction n as [|n IH]; intros allocated tr H; cbn [alloc_dimnames] in H;
    api_steps H; inj_ret.
  - lia.
  - apply exec_bind_ret in H. destruct H as (? & ? & ? & _ & H & _).
    api_steps H. inj_ret. discriminate.
  - apply IH in H. rewrite length_app in H. cbn [length] in H. lia.
Qed.

Lemma SMIOL_inquire_dim_values file name d0 u0 w tr rv d u w' :
  exec (SMIOL_inquire_dim file name (Some d0) (Some u0) w) tr
    (Returned (rv, d, u, w')) ->
  is_success rv = true ->
  exists v x y,
    bcast_values "dimsize"%string tr = [v] /\
    bcast_values "unlimdimidp"%string tr = [x] /\
    bcast_values "dimidp"%string tr = [y] /\
    d = Some v /\ u = Some (if x =? y then 1 else 0) /\ w' = w.
Proof.
  unfold SMIOL_inquire_dim, inquire_dim_pnetcdf, inquire_dim_unlimited.
  intros H Hs. api_steps H; inj_ret; try discriminate Hs.
  all: values_norm; eexists _, _, _; repeat split.
Qed.

Lemma latest_of_lists (u x y : Z) (l1 l2 : list Z) :
  length l1 = length l2 ->
  match last ([x] ++ l1), last ([y] ++ l2) with
  | Some a, Some b => if a =? b then 1 else 0
  | _, _ => u
  end =
  match last l1, last l2 with
  | Some a, Some b => if a =? b then 1 else 0
  | _, _ => if x =? y then 1 else 0
  end.
Proof.
  intros Hl. rewrite !last_app.
  destruct l1 as [|a l1] using rev_ind; destruct l2 as [|b l2] using rev_ind;
    rewrite ?length_app in Hl; cbn [length] in Hl; try lia.
  - reflexivity.
  - rewrite !last_snoc. reflexivity.
Qed.

Lemma inquire_dimsizes_values n file names dimsizes u w tr rv ds' u' w' :
  exec (inquire_dimsizes n file names dimsizes u w) tr
    (Returned (rv, ds', u', w')) ->
  is_success rv = true ->
  (n <= length dimsizes)%nat ->
  ds' = reverse (bcast_values "dimsize"%string tr) ++ drop n dimsizes /\
  length (bcast_values "dimsize"%string tr) = n /\
  length (bcast_values "unlimdimidp"%string tr) = n /\
  length (bcast_values "dimidp"%string tr) = n /\
  u' = latest_unlimited u tr /\ w' = w.
Proof.
  revert dimsizes u w tr.
  induction n as [|n IH]; intros dimsizes u w tr H Hs Hn;
    cbn [inquire_dimsizes] in H; unfold read_string in H.
  - api_steps H; inj_ret. cbn. rewrite drop_0. repeat split.
  - destruct (dimsizes !! n) as [d0|] eqn:Ed;
      [|apply lookup_ge_None in Ed; lia].
    api_steps H; inj_ret.
    all: apply exec_bind_ret in H;
      destruct H as ([[[rv1 d1] u1] w1] & tr1 & tr2 & H1 & H & ->).
    all: api_steps H; inj_ret; try congruence.
    all: match goal with E : is_success _ = true |- _ =>
           destruct (SMIOL_inquire_dim_values _ _ _ _ _ _ _ _ _ _ H1 E)
             as (v & x & y & V1 & V2 & V3 & -> & -> & ->)
         end.
    all: cbn [default from_option id] in H.
    all: apply IH in H; [|exact Hs|rewrite length_insert; lia].
    all: destruct H as (-> & L1 & L2 & L3 & -> & ->).
    all: unfold latest_unlimited; values_norm; rewrite V1, V2, V3;
      cbn [app length]; rewrite L1, L2, L3.
    all: split; [|repeat split; symmetry; apply latest_of_lists; congruence].
    all: rewrite reverse_cons, <- app_assoc; f_equal; cbn [app].
    all: rewrite drop_insert_ge by lia; rewrite Nat.sub_diag.
    all: rewrite (drop_S _ d0 _ Ed); reflexivity.
Qed.

Lemma inquire_var_dimnames_values name n i dimids_ptr dimids dimnames w tr o :
  String.eqb "ierr" name = false ->
  exec (inquire_var_dimnames n i dimids_ptr dimids dimnames w) tr o ->
  bcast_values name tr = [].
Proof.
  intros Hne. revert i dimnames tr.
  induction n as [|n IH]; intros i dimnames tr H;
    cbn [inquire_var_dimnames] in H; api_steps H.
  all: try (apply IH in H).
  all: values_norm; rewrite ?Hne, ?H; reflexivity.
Qed.

Lemma inquire_var_dimnames_world n i dimids_ptr dimids dimnames w tr rv names'
  w' :
  exec (inquire_var_dimnames n i dimids_ptr dimids dimnames w) tr
    (Returned (rv, names', w')) ->
  is_success rv = true -> w' = w.
Proof.
  revert i dimnames tr.
  induction n as [|n IH]; intros i dimnames tr H Hs;
    cbn [inquire_var_dimnames] in H; api_steps H; inj_ret;
    try discriminate Hs; try reflexivity.
  all: exact (IH _ _ _ H Hs).
Qed.

Lemma SMIOL_inquire_var_values file varname vartype ndims dimnames w tr rv vt
  nd names' w' :
  exec (SMIOL_inquire_var file varname vartype ndims dimnames w) tr
    (Returned (rv, vt, nd, names', w')) ->
  bcast_values "dimsize"%string tr = [] /\
  bcast_values "unlimdimidp"%string tr = [] /\
  bcast_values "dimidp"%string tr = [] /\
  (is_success rv = true ->
   match vartype with
   | Some _ => exists x, bcast_values "xtypep"%string tr = [x] /\
                         vt = Some (smiol_type_of x)
   | None => bcast_values "xtypep"%string tr = []
   end /\
   match ndims with
   | Some _ => exists n, head (bcast_values "ndimsp"%string tr) = Some n /\
                         nd = Some n
   | None => True
   end /\
   w' = w).
Proof.
  unfold SMIOL_inquire_var. intros H. api_steps H; inj_ret.
  all: try (apply exec_bind_ret in H;
            destruct H as ([[rv1 n1] w1] & tr1 & tr2 & H1 & H & ->);
            api_steps H; inj_ret;
            pose proof (inquire_var_dimnames_values "dimsize" _ _ _ _ _ _ _ _
                          eq_refl H1);
            pose proof (inquire_var_dimnames_values "unlimdimidp" _ _ _ _ _ _
                          _ _ eq_refl H1);
            pose proof (inquire_var_dimnames_values "dimidp" _ _ _ _ _ _ _ _
                          eq_refl H1);
            pose proof (inquire_var_dimnames_values "xtypep" _ _ _ _ _ _ _ _
                          eq_refl H1);
            pose proof (inquire_var_dimnames_values "ndimsp" _ _ _ _ _ _ _ _
                          eq_refl H1)).
  all: values_norm.
  all: repeat match goal with
              | E : bcast_values _ _ = [] |- _ => rewrite E
              end.
  all: cbn [app head is_success].
  all: repeat split; try discriminate; try (eexists; split; reflexivity).
  all: eapply inquire_var_dimnames_world; eassumption.
Qed.

(** The calls that [build_start_count] makes, with what they tell about the
    values delivered. *)
Ltac axes_call H :=
  let Ha := fresh "Hcall" in
  apply exec_bind_ret in H;
  lazymatch type of H with
  | ex (fun a => _) =>
      let a := fresh "a" in
      destruct H as (a & ? & ? & Ha & H & ->);
      lazymatch type of Ha with
      | exec (SMIOL_inquire_var _ _ _ _ _ _) _ _ =>
          destruct a as [[[[? ?] ?] ?] ?];
          apply SMIOL_inquire_var_values in Ha;
          destruct Ha as (? & ? & ? & Ha)
      | exec (inquire_dimsizes _ _ _ _ _ _) _ _ =>
          destruct a as [[[? ?] ?] ?]
      | exec (alloc_dimnames _ _ _) _ _ =>
          pose proof (alloc_dimnames_values _ _ _ _ _ Ha)
      | exec (free_all _) _ _ =>
          pose proof (free_all_values _ _ _ Ha)
      end
  end.

Lemma build_start_count_delivered file varname decomp write_or_read w tr sc
  w' :
  exec (build_start_count file varname decomp write_or_read w) tr
    (Returned (inr sc, w')) ->
  let n := Z.to_nat (sc_ndims sc) in
  sc_ndims sc = inquired_ndims tr /\
  length (inquired_dimsizes tr) = n /\
  (sc_element_size sc, a_data (sc_start sc), a_data (sc_count sc)) =
  start_count_loop (frame (w_file w)) (comm_rank (w_ctx w)) decomp write_or_read
    (inquired_unlimited tr) 0 (inquired_dimsizes tr)
    (basic_element_size (inquired_type tr))
    (replicate n 0) (replicate n 0) /\
  w' = w.
Proof.
  unfold build_start_count. intros H.
  repeat (first [axes_call H | progress (api_steps H; inj_ret)]);
    try discriminate.
  repeat match goal with
         | E : negb _ = false |- _ => apply negb_false_iff in E
         end.
  match goal with
  | E : is_success ?r = true, Hc : is_success ?r = true -> (ex _) /\ _ |- _ =>
      destruct (Hc E) as ((t & Ht & ->) & (nd & Hnd & ->) & ->)
  end.
  match goal with
  | E : is_success ?r = true, Hc : is_success ?r = true -> _ /\ True /\ _ |- _ =>
      destruct (Hc E) as (Ht2 & _ & ->)
  end.
  match goal with
  | E : is_success ?r = true, Hc : exec (inquire_dimsizes _ _ _ _ _ _) _ _ |- _ =>
      apply inquire_dimsizes_values in Hc;
      [ destruct Hc as (-> & L1 & L2 & L3 & -> & ->)
      | exact E | rewrite length_replicate; lia ]
  end.
  cbn [default from_option id sc_ndims sc_element_size sc_start sc_count
       a_data] in *.
  rewrite drop_ge, app_nil_r in * by (rewrite length_replicate; lia).
  unfold inquired_ndims, inquired_dimsizes, inquired_unlimited, inquired_type,
    latest_unlimited.
  values_norm.
  repeat match goal with
         | E : bcast_values _ _ = _ |- _ => rewrite E
         | E : forall name, bcast_values name _ = [] |- _ => rewrite !E
         end.
  cbn [app head default from_option id]. rewrite ?app_nil_r.
  destruct (bcast_values "ndimsp"%string x) as [|n0 l0] eqn:En;
    [discriminate Hnd|]. cbn [head] in Hnd. injection Hnd as ->.
  cbn [app head default from_option id].
  split; [reflexivity|]. split; [rewrite length_reverse; exact L1|].
  split; [|reflexivity].
  symmetry. assumption.
Qed.

Lemma start_count_loop_spec file_frame rank decomp write_or_read u dimsizes
  es :
  0 <= file_frame < two_64 ->
  Forall (fun d => 0 <= d < two_64) dimsizes ->
  let n := length dimsizes in
  let r := start_count_loop file_frame rank decomp write_or_read u 0 dimsizes es
             (replicate n 0) (replicate n 0) in
  length (snd (fst r)) = n /\ length (snd r) = n /\
  forall i d, dimsizes !! i = Some d ->
    let sc := spec_start_count file_frame rank decomp write_or_read
                (negb (u =? 0)) i d in
    snd (fst r) !! i = Some (fst sc) /\ snd r !! i = Some (snd sc).
Proof.
  intros Hf Hd n r.
  destruct (start_count_loop_axes file_frame rank decomp write_or_read u
              dimsizes 0 es (replicate n 0) (replicate n 0))
    as (L1 & L2 & _ & Hax).
  { rewrite length_replicate. subst n. lia. }
  { rewrite length_replicate. subst n. lia. }
  fold r in L1, L2, Hax. rewrite length_replicate in L1, L2.
  split; [exact L1|]. split; [exact L2|].
  intros i d Hi sc. destruct (Hax i d Hi) as [e He]. cbn [Nat.add] in He.
  assert (Hr : 0 <= d < two_64).
  { rewrite Forall_lookup in Hd. exact (Hd i d Hi). }
  pose proof (start_count_axis_spec file_frame rank decomp write_or_read u i d
                e Hf Hr) as Hs.
  fold sc in Hs. cbn zeta in He. destruct He as [E1 E2].
  rewrite E1, E2, <- Hs. auto.
Qed.


Lemma axes0_exec :
  exec (build_start_count PTR (Some "x"%string) (Some decomp0) START_COUNT_WRITE
          (world0 PNETCDF_DATA_MODE))
       axes0_trace (Returned (inr axes0_result, world0 PNETCDF_DATA_MODE)).
Proof.
  exact (run_exec scripted _
           (mk_script [0; 1; 0; 5; 0; 2; 0; 1; 0; 2; 0; 0; 0; 0; 11; 0; 100;
                       0; 10; 0; 10; 0; 7; 0; 10] [] 1000)).
Qed.


(** ** SMIOL_free_decomp *)

Lemma free0_exec :
  exec (SMIOL_free_decomp true (Some (Some decomp0))) free0_trace
       (Returned (Code SMIOL_SUCCESS, None)).
Proof. exact (run_exec scripted _ (mk_script [] [] 1000)). Qed.

(** C9.  [SMIOL_free_decomp] on a null handle-pointer dereferences it: no
    run returns.  On a pointer to a null decomposition it returns
    [SMIOL_SUCCESS] without any call; on a decomposition it releases, under
    aggregation, the aggregation communicator (when there is one) and the
    counts and displacements, then both exchange lists and the structure,
    nulls the handle and returns [SMIOL_SUCCESS]. *)
Theorem free_decomp_null_handle_pointer :
  (forall agg, SMIOL_free_decomp agg None = Crash) /\
  (forall agg, SMIOL_free_decomp agg (Some None) = Ret (Code SMIOL_SUCCESS, None)) /\
  (forall agg d tr o,
     exec (SMIOL_free_decomp agg (Some (Some d))) tr o ->
     o = Returned (Code SMIOL_SUCCESS, None) /\
     calls tr =
       (if agg
        then (if negb (agg_comm d =? MPI_COMM_NULL)
              then [MPI_Comm_free (agg_comm d)] else []) ++
             [free (counts d); free (displs d)]
        else []) ++
       [free (comp_list d); free (io_list d); free (decomp_ptr d)]).
Proof.
  split; [reflexivity|]. split; [reflexivity|].
  intros agg d tr o H. unfold SMIOL_free_decomp in H.
  destruct agg; [destruct (negb (agg_comm d =? MPI_COMM_NULL))|];
    api_steps H; subst; auto.
Qed.

Lemma free_decomp_null_handle_pointer_witness :
  SMIOL_free_decomp true None = Crash /\
  calls free0_trace =
    [free 830; free 840; free 810; free 820; free 800].
Proof.
  split; [exact (proj1 free_decomp_null_handle_pointer true)|].
  exact (proj2 (proj2 (proj2 free_decomp_null_handle_pointer) true decomp0 _ _
                  free0_exec)).
Defined.

(** ** SMIOL_inquire_dim *)

Lemma inquire0_exec :
  exec (SMIOL_inquire_dim PTR (Some "x"%string) (Some 99) None
          (world0 PNETCDF_DATA_MODE))
       inquire0_trace
       (Returned (Code SMIOL_SUCCESS, Some 12, None, world0 PNETCDF_DATA_MODE)).
Proof. exact (run_exec scripted _ (mk_script [0; 3; 0; 12] [] 1000)). Qed.

(** C10.  With both output pointers null [SMIOL_inquire_dim] returns
    [SMIOL_INVALID_ARGUMENT] without making any call and leaves the world
    as it is, for every file handle and dimension name.  With an output
    pointer that is not null, a run either returns
    [SMIOL_INVALID_ARGUMENT] without any call (null file or name), or
    starts with the stores of the default 0 through every output pointer
    that is not null, and only then consults the backend, with the outputs
    holding these defaults. *)
Theorem inquire_dim_guard_and_defaults :
  (forall file dimname w,
     SMIOL_inquire_dim file dimname None None w =
     Ret (Code SMIOL_INVALID_ARGUMENT, None, None, w)) /\
  (forall file dimname dimsize is_unlimited w tr o,
     (dimsize <> None \/ is_unlimited <> None) ->
     exec (SMIOL_inquire_dim file dimname dimsize is_unlimited w) tr o ->
     (tr = [] /\
      o = Returned (Code SMIOL_INVALID_ARGUMENT, dimsize, is_unlimited, w) /\
      (file = NULL \/ dimname = None)) \/
     (exists name rest,
        file = PTR /\ dimname = Some name /\
        tr = default_stores dimsize is_unlimited ++ rest /\
        forallb (fun e => negb (is_ncmpi (ev_call e) || is_mpi (ev_call e)))
          (default_stores dimsize is_unlimited) = true /\
        exec (inquire_dim_pnetcdf name (option_map (fun _ => 0) dimsize)
                (option_map (fun _ => 0) is_unlimited) w) rest o)).
Proof.
  split.
  - intros [|] [name|] w; reflexivity.
  - intros file dimname dimsize is_unlimited w tr o Hnn H.
    destruct file; [left; destruct dimname; destruct H as [-> ->]; auto|].
    destruct dimname as [name|];
      [|left; destruct H as [-> ->]; auto].
    right. exists name. unfold SMIOL_inquire_dim, default_stores in *.
    destruct dimsize as [d|], is_unlimited as [u|]; cbn [option_map].
    + api_steps H. destruct r, r0. eexists. repeat split. exact H.
    + api_steps H. destruct r. eexists. repeat split. exact H.
    + api_steps H. destruct r. eexists. repeat split. exact H.
    + destruct Hnn as [Hnn|Hnn]; contradiction.
Qed.

Lemma inquire_dim_guard_and_defaults_witness :
  exists rest,
    inquire0_trace = Ev (store out_dimsize 0) tt :: rest /\
    exec (inquire_dim_pnetcdf "x" (Some 0) None (world0 PNETCDF_DATA_MODE)) rest
      (Returned (Code SMIOL_SUCCESS, Some 12, None, world0 PNETCDF_DATA_MODE)).
Proof.
  destruct (proj2 inquire_dim_guard_and_defaults PTR (Some "x"%string) (Some 99)
              None (world0 PNETCDF_DATA_MODE) _ _
              (or_introl (fun E => eq_ind (Some 99)
                 (fun o => match o with Some _ => True | None => False end)
                 I None E))
              inquire0_exec)
    as [(E & _)|(name & rest & _ & En & Et & _ & Hx)].
  - discriminate E.
  - injection En as <-. exists rest. split; [exact Et|exact Hx].
Defined.

(** ** The mode of a file *)

Lemma SMIOL_open_file_state CREATE WRITE READ context filename mode file c tr
  rv f c' :
  exec (SMIOL_open_file CREATE WRITE READ context filename mode file c) tr
    (Returned (rv, Some (Some f), c')) ->
  (has_flag mode CREATE = true -> state f = PNETCDF_DEFINE_MODE) /\
  (has_flag mode CREATE = false ->
   state f = PNETCDF_DATA_MODE /\
   (has_flag mode WRITE = true \/ has_flag mode READ = true)).
Proof.
  unfold SMIOL_open_file, open_backend, unfinished_file. intros H.
  cbn [pthread_setup] in H.
  repeat (api_steps H; cbn [pthread_setup] in H); inj_ret.
  all: try discriminate.
  all: cbn [state]; split; intros; try congruence; auto.
Qed.

Lemma inquiry_status w tr rv w' :
  inquiry_post w tr rv w' -> status_post w tr rv w'.
Proof.
  intros (Hp & Ho & _ & -> & Hf). repeat split; assumption.
Qed.

Lemma inquiry_modes w tr rv w' :
  inquiry_post w tr rv w' ->
  state (w_file w') = state (w_file w) /\ mode_calls tr = [] /\
  join_before_read tr.
Proof.
  intros (_ & _ & Hs & -> & _). rewrite w_file_latched.
  split; [reflexivity|]. split; [exact (sync_calls_mode _ Hs)|].
  unfold join_before_read. rewrite (sync_calls_join_read _ Hs). exact I.
Qed.

(** The operations that neither write metadata nor access data. *)
Lemma run_op_inquiry file op w tr rv w' :
  is_metadata_write op = false -> is_data_access op = false ->
  exec (run_op file op w) tr (Returned (rv, w')) ->
  status_post w tr rv w' /\
  state (w_file w') = state (w_file w) /\ mode_calls tr = [] /\
  join_before_read tr.
Proof.
  intros Hm Hd H. destruct op; try discriminate; cbn [run_op] in H.
  - call_post H SMIOL_inquire_dim_post. api_steps H; inj_ret.
    rewrite app_nil_r. cbn [fst snd] in Hcall.
    exact (conj (inquiry_status _ _ _ _ Hcall) (inquiry_modes _ _ _ _ Hcall)).
  - call_post H SMIOL_inquire_var_post. api_steps H; inj_ret.
    rewrite app_nil_r. cbn [fst snd] in Hcall.
    exact (conj (inquiry_status _ _ _ _ Hcall) (inquiry_modes _ _ _ _ Hcall)).
  - call_post H SMIOL_inquire_att_post. api_steps H; inj_ret.
    rewrite app_nil_r. cbn [fst snd] in Hcall.
    exact (conj (inquiry_status _ _ _ _ Hcall) (inquiry_modes _ _ _ _ Hcall)).
  - unfold SMIOL_set_frame in H. api_steps H; inj_ret; repeat split;
      intros; cbn [failed_status] in *; congruence.
  - unfold SMIOL_get_frame in H. api_steps H; inj_ret; repeat split;
      intros; cbn [failed_status] in *; congruence.
Qed.

Lemma run_op_metadata file op w tr rv w' :
  is_metadata_write op = true ->
  exec (run_op file op w) tr (Returned (rv, w')) ->
  status_post w tr rv w' /\
  mode_post PNETCDF_DATA_MODE PNETCDF_DEFINE_MODE
    (ncmpi_redef (ncidp (w_file w))) w tr rv w' /\
  join_before_read tr.
Proof.
  intros Hm H. destruct op; try discriminate; cbn [run_op] in H.
  - exact (SMIOL_define_dim_post _ _ _ _ _ _ H).
  - exact (SMIOL_define_var_post _ _ _ _ _ _ _ _ H).
  - exact (SMIOL_define_att_post _ _ _ _ _ _ _ _ H).
Qed.

Lemma run_op_data file op w tr rv w' :
  is_data_access op = true ->
  exec (run_op file op w) tr (Returned (rv, w')) ->
  status_post w tr rv w' /\
  mode_post PNETCDF_DEFINE_MODE PNETCDF_DATA_MODE
    (ncmpi_enddef (ncidp (w_file w))) w tr rv w'.
Proof.
  intros Hm H. destruct op; try discriminate; cbn [run_op] in H.
  - exact (SMIOL_put_var_post _ _ _ _ _ _ _ _ H).
  - destruct (SMIOL_get_var_post _ _ _ _ _ _ _ _ H) as (? & ? & _). auto.
  - destruct (SMIOL_sync_file_post _ _ _ _ H) as (? & ? & _). auto.
Qed.

Lemma run_op_status file op w tr rv w' :
  exec (run_op file op w) tr (Returned (rv, w')) -> status_post w tr rv w'.
Proof.
  intros H. destruct (is_metadata_write op) eqn:Hm.
  - exact (proj1 (run_op_metadata _ _ _ _ _ _ Hm H)).
  - destruct (is_data_access op) eqn:Hd.
    + exact (proj1 (run_op_data _ _ _ _ _ _ Hd H)).
    + exact (proj1 (run_op_inquiry _ _ _ _ _ _ Hm Hd H)).
Qed.

(** What [mode_post] says about a file that is in one of the two modes. *)
Lemma mode_post_facts source target switch w tr rv w' :
  (source = PNETCDF_DATA_MODE /\ target = PNETCDF_DEFINE_MODE \/
   source = PNETCDF_DEFINE_MODE /\ target = PNETCDF_DATA_MODE) ->
  mode_ok w ->
  mode_post source target switch w tr rv w' ->
  mode_ok w' /\
  (state (w_file w') <> state (w_file w) ->
   state (w_file w) = source /\ state (w_file w') = target /\
   (io_task (w_file w) <> 0 -> mode_calls tr = [switch])) /\
  (mode_calls tr <> [] ->
   io_task (w_file w) <> 0 /\ state (w_file w) = source /\
   mode_calls tr = [switch]) /\
  (rv = Code SMIOL_SUCCESS -> state (w_file w') = target).
Proof.
  unfold mode_ok, PNETCDF_DATA_MODE, PNETCDF_DEFINE_MODE.
  intros Hst Hok (P1 & P2 & P3). repeat split.
  - destruct P2 as [->|(_ & -> & _)]; [exact Hok|].
    destruct Hst as [[_ ->]|[_ ->]]; auto.
  - destruct P2 as [E|(E & _ & _)]; [contradiction|exact E].
  - destruct P2 as [E|(_ & E & _)]; [contradiction|exact E].
  - destruct P2 as [E|(_ & _ & E)]; [contradiction|exact E].
  - destruct (mode_calls tr) as [|c [|c' l]]; [contradiction| |contradiction].
    tauto.
  - destruct (mode_calls tr) as [|c [|c' l]]; [contradiction| |contradiction].
    tauto.
  - destruct (mode_calls tr) as [|c [|c' l]]; [contradiction| |contradiction].
    destruct P1 as (-> & _). reflexivity.
  - intros Hs. destruct P2 as [E|(_ & E & _)]; [|exact E]. rewrite E.
    destruct (Z.eq_dec (state (w_file w)) source) as [Es|Es].
    + rewrite <- E. exact (P3 Hs Es).
    + destruct Hst as [[-> ->]|[-> ->]]; destruct Hok; congruence.
Qed.

(** C5, as stated, fails: a read of a variable from a file in define mode
    puts the file into data mode, emitting the backend's enddef, in a run
    that makes no data write and no sync. *)
Lemma get_var_switches_to_data_mode :
  exec (SMIOL_get_var false PTR (Some "x"%string) None 100
          (world0 PNETCDF_DEFINE_MODE))
       get_var0_trace (Returned (Code SMIOL_SUCCESS, get_var0_world)) /\
  state (w_file (world0 PNETCDF_DEFINE_MODE)) = PNETCDF_DEFINE_MODE /\
  state (w_file get_var0_world) = PNETCDF_DATA_MODE /\
  mode_calls get_var0_trace = [ncmpi_enddef 7] /\
  forallb (fun c => negb (is_write_or_sync c)) (calls get_var0_trace) = true.
Proof.
  split; [exact (run_exec scripted _ (mk_script [] [] 1000))|].
  repeat split; reflexivity.
Qed.

(** C5, amended.  A file that [SMIOL_open_file] returns is in define mode
    when the create flag is set, and otherwise in data mode, the write or
    the read flag being set.  An operation on a file that is in one of the
    two modes leaves it in one of them; the mode changes only from data to
    define in a metadata write, and from define to data in a data write, a
    data read or a sync, on an I/O task together with the backend's redef or
    enddef, which is the only mode call of the run and is made in no other
    situation; a metadata write that succeeds leaves the file in define
    mode, and a data write, data read or sync that succeeds leaves it in
    data mode. *)
Theorem file_mode_transitions :
  (forall CREATE WRITE READ context filename mode file c tr rv f c',
     exec (SMIOL_open_file CREATE WRITE READ context filename mode file c) tr
       (Returned (rv, Some (Some f), c')) ->
     (has_flag mode CREATE = true -> state f = PNETCDF_DEFINE_MODE) /\
     (has_flag mode CREATE = false ->
      state f = PNETCDF_DATA_MODE /\
      (has_flag mode WRITE = true \/ has_flag mode READ = true))) /\
  (forall file op w tr rv w',
     mode_ok w ->
     exec (run_op file op w) tr (Returned (rv, w')) ->
     mode_ok w' /\
     (state (w_file w') <> state (w_file w) ->
      (is_metadata_write op = true /\
       state (w_file w) = PNETCDF_DATA_MODE /\
       state (w_file w') = PNETCDF_DEFINE_MODE /\
       (io_task (w_file w) <> 0 ->
        mode_calls tr = [ncmpi_redef (ncidp (w_file w))])) \/
      (is_data_access op = true /\
       state (w_file w) = PNETCDF_DEFINE_MODE /\
       state (w_file w') = PNETCDF_DATA_MODE /\
       (io_task (w_file w) <> 0 ->
        mode_calls tr = [ncmpi_enddef (ncidp (w_file w))]))) /\
     (mode_calls tr <> [] ->
      io_task (w_file w) <> 0 /\
      ((is_metadata_write op = true /\
        state (w_file w) = PNETCDF_DATA_MODE /\
        mode_calls tr = [ncmpi_redef (ncidp (w_file w))]) \/
       (is_data_access op = true /\
        state (w_file w) = PNETCDF_DEFINE_MODE /\
        mode_calls tr = [ncmpi_enddef (ncidp (w_file w))]))) /\
     (rv = Code SMIOL_SUCCESS -> is_metadata_write op = true ->
      state (w_file w') = PNETCDF_DEFINE_MODE) /\
     (rv = Code SMIOL_SUCCESS -> is_data_access op = true ->
      state (w_file w') = PNETCDF_DATA_MODE)).
Proof.
  split; [exact SMIOL_open_file_state|].
  intros file op w tr rv w' Hok H.
  destruct (is_metadata_write op) eqn:Hm; [|destruct (is_data_access op) eqn:Hd].
  - assert (Hd : is_data_access op = false) by (destruct op; try discriminate; reflexivity).
    destruct (run_op_metadata _ _ _ _ _ _ Hm H) as (_ & Hp & _).
    destruct (mode_post_facts _ _ _ _ _ _ _ (or_introl (conj eq_refl eq_refl))
                Hok Hp) as (F1 & F2 & F3 & F4).
    rewrite Hd. split; [exact F1|]. split; [|split; [|split]].
    + intros Hne. left. split; [reflexivity|exact (F2 Hne)].
    + intros Hne. destruct (F3 Hne) as (I1 & I2 & I3). split; [exact I1|].
      left. auto.
    + auto.
    + discriminate.
  - destruct (run_op_data _ _ _ _ _ _ Hd H) as (_ & Hp).
    destruct (mode_post_facts _ _ _ _ _ _ _ (or_intror (conj eq_refl eq_refl))
                Hok Hp) as (F1 & F2 & F3 & F4).
    split; [exact F1|]. split; [|split; [|split]].
    + intros Hne. right. split; [reflexivity|exact (F2 Hne)].
    + intros Hne. destruct (F3 Hne) as (I1 & I2 & I3). split; [exact I1|].
      right. auto.
    + discriminate.
    + auto.
  - destruct (run_op_inquiry _ _ _ _ _ _ Hm Hd H) as (_ & Hs & Hc & _).
    unfold mode_ok in *. rewrite Hs, Hc. split; [exact Hok|].
    repeat split; try contradiction; discriminate.
Qed.

Lemma define0_exec :
  exec (run_op PTR define_x (world0 PNETCDF_DATA_MODE)) define0_trace
       (Returned (Code SMIOL_SUCCESS, define0_world)).
Proof. exact (run_exec scripted _ (mk_script [] [] 1000)). Qed.

Lemma created0_exec :
  exec (SMIOL_open_file flag_create flag_write flag_read PTR "f" flag_create PTR
          ctx0)
       (snd created0_run)
       (Returned (Code SMIOL_SUCCESS, Some (Some created0_file), ctx0)).
Proof. exact (run_exec scripted _ (mk_script [] [] 1000)). Qed.

Lemma file_mode_transitions_witness :
  state created0_file = PNETCDF_DEFINE_MODE /\
  mode_ok (world0 PNETCDF_DATA_MODE) /\
  state (w_file define0_world) = PNETCDF_DEFINE_MODE.
Proof.
  assert (Hok : mode_ok (world0 PNETCDF_DATA_MODE)) by (right; reflexivity).
  split; [|split; [exact Hok|]].
  - exact (proj1 (proj1 file_mode_transitions _ _ _ _ _ _ _ _ _ _ _ _
                    created0_exec) eq_refl).
  - destruct (proj2 file_mode_transitions _ _ _ _ _ _ Hok define0_exec)
      as (_ & _ & _ & Hs & _).
    exact (Hs eq_refl eq_refl).
Defined.

(** ** Backend failures *)

Lemma backend_not_bcast e s : backend_status e = Some s -> ierr_bcast e = None.
Proof. destruct e as [c r]. destruct c; cbn; congruence. Qed.

(** On the group leader the statuses received are the statuses of the
    backend calls. *)
Lemma leader_statuses grp n tr :
  (length tr <= n)%nat ->
  status_protocol grp tr -> status_origin None tr -> leader_trace tr ->
  backend_statuses tr = received_statuses tr.
Proof.
  revert tr. induction n as [|n IH]; intros tr Hn Hp Ho Hl.
  - destruct tr; [reflexivity|cbn in Hn; lia].
  - destruct tr as [|e tr]; [reflexivity|].
    cbn [status_protocol status_origin leader_trace backend_statuses
         received_statuses length] in *.
    destruct Hp as [Hp1 Hp], Ho as [Ho1 Ho], Hl as [Hl1 Hl].
    destruct (backend_status e) as [s|] eqn:Hb.
    + rewrite (backend_not_bcast _ _ Hb).
      destruct tr as [|e' tr]; [contradiction|].
      destruct Hp1 as [r Hr].
      cbn [status_protocol status_origin leader_trace backend_statuses
           received_statuses length] in *.
      destruct Hp as [_ Hp], Ho as [_ Ho], Hl as [Hl2 Hl].
      rewrite Hr in *. subst r.
      destruct (backend_status e') as [s'|] eqn:Hb'.
      * rewrite (backend_not_bcast _ _ Hb') in Hr. discriminate.
      * f_equal. apply IH; auto. lia.
    + destruct (ierr_bcast e) as [[[[s|] c] r]|].
      * discriminate.
      * contradiction.
      * apply IH; auto. lia.
Qed.

Lemma leader_failure grp tr :
  status_protocol grp tr -> status_origin None tr -> leader_trace tr ->
  backend_failure tr = failed_status tr.
Proof.
  intros Hp Ho Hl. unfold backend_failure.
  rewrite (leader_statuses grp (length tr) tr (le_n _) Hp Ho Hl).
  symmetry. apply failed_status_find.
Qed.

(** What a rank does with the statuses it receives. *)
Lemma status_post_decision w tr rv w' :
  status_post w tr rv w' ->
  match failed_status tr with
  | Some e =>
      rv = Code SMIOL_LIBRARY_ERROR /\
      lib_type (w_ctx w') = SMIOL_LIBRARY_PNETCDF /\
      lib_ierr (w_ctx w') = e
  | None => w_ctx w' = w_ctx w
  end.
Proof.
  intros (_ & _ & Hc & Hf). rewrite w_ctx_latched in Hc.
  destruct (failed_status tr) as [e|]; [|exact Hc].
  rewrite Hc. split; [apply Hf; discriminate|]. split; reflexivity.
Qed.


(** What a run of an operation comes to, however it ends. *)
Lemma run_op_outcome file op w tr o :
  exec (run_op file op w) tr o ->
  null_lookup_failed op tr = false ->
  status_protocol (io_group_comm (w_file w)) tr /\
  status_origin None tr /\
  match failed_status tr with
  | Some e =>
      exists w', o = Returned (Code SMIOL_LIBRARY_ERROR, w') /\
                 lib_type (w_ctx w') = SMIOL_LIBRARY_PNETCDF /\
                 lib_ierr (w_ctx w') = e
  | None =>
      forall rv w', o = Returned (rv, w') -> w_ctx w' = w_ctx w
  end.
Proof.
  intros H Hn. destruct o as [[rv w']|].
  - pose proof (run_op_status _ _ _ _ _ _ H) as S.
    pose proof (status_post_decision _ _ _ _ S) as D.
    destruct S as (P & O & _). split; [exact P|]. split; [exact O|].
    destruct (failed_status tr) as [e|].
    + destruct D as (-> & D). exists w'. split; [reflexivity|exact D].
    + intros rv0 w0 E. injection E as <- <-. exact D.
  - destruct (run_op_crash _ _ _ _ H Hn) as (P & O & F).
    split; [exact P|]. split; [exact O|]. rewrite F. discriminate.
Qed.

Lemma null_lookup_failed_statuses op tr1 tr2 :
  received_statuses tr1 = received_statuses tr2 ->
  null_lookup_failed op tr1 = null_lookup_failed op tr2.
Proof. intros E. unfold null_lookup_failed. rewrite E. reflexivity. Qed.


Lemma leader0_exec :
  exec (run_op PTR define_x (world0 PNETCDF_DATA_MODE)) leader0_trace
       (Returned (Code SMIOL_LIBRARY_ERROR, leader0_world)).
Proof. exact (run_exec scripted _ (mk_script [0; -36; 0] [] 1000)). Qed.

Lemma follower0_exec :
  exec (run_op PTR define_x (world1 PNETCDF_DATA_MODE)) follower0_trace
       (Returned (Code SMIOL_LIBRARY_ERROR, follower0_world)).
Proof. exact (run_exec scripted _ (mk_script [] [0; -36] 1000)). Qed.


(** ** Reads and the writer *)

Lemma async_write_loop_returns_inactive fuel w tr w' :
  exec (async_write_loop fuel w) tr (Returned (true, w')) ->
  active (w_file w') = 0.
Proof.
  revert w tr. induction fuel as [|fuel IH]; intros w tr H;
    cbn [async_write_loop] in H;
    destruct (active (w_file w) =? 0) eqn:Ha.
  - destruct H as [_ H]. injection H as <-. apply Z.eqb_eq, Ha.
  - destruct H as [_ H]. discriminate.
  - destruct H as [_ H]. injection H as <-. apply Z.eqb_eq, Ha.
  - apply exec_bind_ret in H. destruct H as (w1 & tr1 & tr2 & _ & H & _).
    exact (IH _ _ H).
Qed.

(** The iterations of the loop are steps of the history of the file. *)
Lemma async_write_loop_reach w0 enq fuel :
  forall wtr w t b w1,
    writer_reach w0 enq wtr w ->
    exec (async_write_loop fuel w) t (Returned (b, w1)) ->
    writer_reach w0 enq (wtr ++ t) w1.
Proof.
  induction fuel as [|fuel IH]; intros wtr w t b w1 Hr H;
    cbn [async_write_loop] in H;
    destruct (active (w_file w) =? 0) eqn:Ha.
  - destruct H as [-> H]. injection H as _ <-. rewrite app_nil_r. exact Hr.
  - destruct H as [-> H]. injection H as _ <-. rewrite app_nil_r. exact Hr.
  - destruct H as [-> H]. injection H as _ <-. rewrite app_nil_r. exact Hr.
  - apply exec_bind_ret in H. destruct H as (w2 & tr1 & tr2 & H1 & H & ->).
    rewrite app_assoc. apply (IH _ w2 _ b); [|exact H].
    apply Z.eqb_neq in Ha. exact (reach_iteration _ _ _ _ _ _ Hr Ha H1).
Qed.

(** With the flag clear the loop ends at once. *)
Lemma async_write_loop_idle fuel w t b w1 :
  active (w_file w) = 0 ->
  exec (async_write_loop fuel w) t (Returned (b, w1)) -> t = [] /\ w1 = w.
Proof.
  intros Hz H. apply Z.eqb_eq in Hz.
  destruct fuel; cbn [async_write_loop] in H; rewrite Hz in H;
    destruct H as [-> H]; injection H as _ <-; auto.
Qed.

Lemma alongside_reach w0 enq wtr w tr wtr' w' :
  writer_reach w0 enq wtr w -> alongside w tr wtr' w' ->
  writer_reach w0 enq (wtr ++ wtr') w'.
Proof.
  intros Hr Ha. revert wtr Hr.
  induction Ha as [w|w t w1 tr wtr' w' Hact He _ IH|w e tr wtr' w' _ _ IH
                  |w e fuel t w1 tr wtr' w' _ Hl _ IH]; intros wtr Hr.
  - rewrite app_nil_r. exact Hr.
  - rewrite app_assoc. apply IH.
    exact (reach_iteration _ _ _ _ _ _ Hr Hact He).
  - exact (IH _ Hr).
  - rewrite app_assoc. apply IH.
    exact (async_write_loop_reach _ _ _ _ _ _ _ _ Hr Hl).
Qed.

(** Once the flag is clear the writer does nothing more. *)
Lemma alongside_idle w tr wtr w' :
  alongside w tr wtr w' -> active (w_file w) = 0 -> w' = w /\ wtr = [].
Proof.
  induction 1 as [w|w t w1 tr wtr w' Hact _ _ _|w e tr wtr w' _ _ IH
                 |w e fuel t w1 tr wtr w' _ Hl _ IH]; intros Hz; auto.
  - contradiction.
  - destruct (async_write_loop_idle _ _ _ _ _ Hz Hl) as [-> ->].
    exact (IH Hz).
Qed.

(** After a join of the calling thread the flag is clear. *)
Lemma alongside_joined w tr wtr w' :
  alongside w tr wtr w' -> existsb is_join (calls tr) = true ->
  active (w_file w') = 0.
Proof.
  induction 1 as [w|w t w1 tr wtr w' _ _ _ IH|w e tr wtr w' Hj _ IH
                 |w e fuel t w1 tr wtr w' _ Hl Ha _]; intros Hx.
  - discriminate Hx.
  - exact (IH Hx).
  - cbn [calls map existsb] in Hx. rewrite Hj in Hx. exact (IH Hx).
  - pose proof (async_write_loop_returns_inactive _ _ _ _ Hl) as Hz.
    destruct (alongside_idle _ _ _ _ Ha Hz) as [-> _]. exact Hz.
Qed.

Lemma existsb_join_read tr :
  existsb is_join (calls tr) = true <->
  existsb is_join (calls_where is_join_or_read tr) = true.
Proof.
  induction tr as [|e tr IH]; cbn [calls_where calls map existsb];
    [reflexivity|].
  unfold is_join_or_read at 1.
  destruct (is_join (ev_call e)) eqn:Hj; cbn [orb existsb].
  - rewrite Hj. reflexivity.
  - destruct (is_read (ev_call e)); cbn [existsb]; rewrite ?Hj; exact IH.
Qed.

(** In a trace whose joins and reads are as [join_before_read] says, a
    read comes after a join. *)
Lemma read_after_join tr pre c r post :
  join_before_read tr ->
  tr = pre ++ Ev c r :: post -> is_read c = true ->
  existsb is_join (calls pre) = true.
Proof.
  intros Hj -> Hr. unfold join_before_read, join_read_calls in Hj.
  rewrite calls_where_app in Hj. cbn [calls_where ev_call] in Hj.
  unfold is_join_or_read at 2 in Hj. rewrite Hr, orb_true_r in Hj.
  apply existsb_join_read. unfold join_read_calls.
  assert (Hn : is_join c = false) by (destruct c; try discriminate; reflexivity).
  destruct (calls_where is_join_or_read pre) as [|c1 [|c2 l]];
    cbn [app] in Hj.
  - destruct (calls_where is_join_or_read post) as [|? [|? ?]].
    + congruence.
    + destruct Hj as [Hj _]. congruence.
    + contradiction.
  - destruct (calls_where is_join_or_read post) as [|? ?].
    + destruct Hj as [Hj _]. cbn [existsb]. rewrite Hj. reflexivity.
    + contradiction.
  - destruct l; contradiction.
Qed.

(** The joins and reads of a run of [SMIOL_get_var], however it ends. *)
Lemma SMIOL_get_var_joins agg file varname decomp buf w tr o :
  exec (SMIOL_get_var agg file varname decomp buf w) tr o ->
  join_before_read tr.
Proof.
  intros H. destruct o as [a|].
  - exact (proj2 (proj2 (SMIOL_get_var_post _ _ _ _ _ _ _ _ H))).
  - apply SMIOL_get_var_crash in H. destruct H as (_ & _ & Hs & _).
    unfold join_before_read. rewrite (sync_calls_join_read _ Hs). exact I.
Qed.

(** A read that succeeds has joined the writer and, on an I/O task, has
    then read from the backend. *)
Lemma SMIOL_get_var_reads agg file varname decomp buf w tr w' :
  exec (SMIOL_get_var agg file varname decomp buf w) tr
    (Returned (Code SMIOL_SUCCESS, w')) ->
  match join_read_calls tr with
  | [j] => is_join j = true /\ io_task (w_file w) = 0
  | [j; c] => is_join j = true /\ is_read c = true /\ io_task (w_file w) <> 0
  | _ => False
  end.
Proof.
  unfold SMIOL_get_var. intros H. unfold get_var_transfer in H.
  drive H ltac:(fun H => op_calls H).
  all: try match goal with
           | E : is_success (Code SMIOL_SUCCESS) = false |- _ => discriminate E
           end.
  all: op_leaf.
  all: try discriminate; repeat split; try assumption; try congruence.
Qed.


Lemma get_var1_exec :
  exec (SMIOL_get_var false PTR (Some "x"%string) None 100 writer_world0)
       get_var1_trace (fst get_var1_run).
Proof. exact (run_exec scripted _ (mk_script [] [] 1000)). Qed.

Lemma iteration1_exec :
  exec (async_write_iteration iteration0_world) iteration1_trace
       (Returned iteration1_world).
Proof. exact (run_exec scripted _ (mk_script [] [] 1000)). Qed.

Lemma iteration2_exec :
  exec (async_write_iteration iteration1_world) iteration2_trace
       (Returned iteration2_world).
Proof. exact (run_exec scripted _ (mk_script [] [] 1000)). Qed.

(** With the flag clear, the calling thread goes on alone. *)
Lemma alongside_alone w tr :
  active (w_file w) = 0 -> alongside w tr [] w.
Proof.
  intros Hz. induction tr as [|e tr IH]; [constructor|].
  destruct (is_join (ev_call e)) eqn:Hj.
  - apply (alongside_join w e 0 [] w tr [] w Hj); [|exact IH].
    cbn [async_write_loop]. apply Z.eqb_eq in Hz. rewrite Hz.
    split; reflexivity.
  - apply alongside_call; assumption.
Qed.


(** * Further properties *)

(** ** Calls and results of all runs *)

Lemma safe_bind {A B : Type} Q (R1 : A -> Prop) (R : B -> Prop) (p : prog A)
  (f : A -> prog B) :
  safe Q R1 p -> (forall a, R1 a -> safe Q R (f a)) -> safe Q R (bind p f).
Proof.
  intros Hp Hf. induction p as [a| |c k IH]; cbn [bind safe] in *.
  - apply Hf, Hp.
  - exact I.
  - destruct Hp as [Hc Hk]. split; [exact Hc|]. intros r. apply IH, Hk.
Qed.

Lemma safe_weaken {A : Type} (Q Q' : call -> bool) (R R' : A -> Prop)
  (p : prog A) :
  (forall c, Q c = true -> Q' c = true) -> (forall a, R a -> R' a) ->
  safe Q R p -> safe Q' R' p.
Proof.
  intros HQ HR. induction p as [a| |c k IH]; cbn [safe]; auto.
  intros [Hc Hk]. split; [exact (HQ _ Hc)|]. intros r. apply IH, Hk.
Qed.

Lemma safe_exec {A : Type} Q (R : A -> Prop) (p : prog A) tr o :
  safe Q R p -> exec p tr o ->
  forallb Q (calls tr) = true /\ forall a, o = Returned a -> R a.
Proof.
  revert tr. induction p as [a| |c k IH]; intros tr Hp He; cbn [safe exec] in *.
  - destruct He as [-> ->]. split; [reflexivity|].
    intros a' E. injection E as <-. exact Hp.
  - destruct He as [-> ->]. split; [reflexivity|]. discriminate.
  - destruct He as (r & tr' & -> & He). destruct Hp as [Hc Hk].
    cbn [calls map forallb ev_call]. rewrite Hc.
    exact (IH r tr' (Hk r) He).
Qed.

Lemma safe_ret {A : Type} Q (R : A -> Prop) a : R a -> safe Q R (Ret a).
Proof. exact id. Qed.

Lemma safe_vis {A : Type} Q (R : A -> Prop) c (k : result c -> prog A) :
  Q c = true -> (forall r, safe Q R (k r)) -> safe Q R (Vis c k).
Proof. intros Hc Hk. exact (conj Hc Hk). Qed.

(** Normal forms of the worlds that the functions build. *)
Ltac world_norm :=
  repeat match goal with
         | H : _ /\ _ |- _ => destruct H
         end;
  cbn [fst snd w_file w_ctx with_file with_ctx latch set_state set_frame
       set_queue set_writer set_active set_n_reqs set_reqs frame io_task
       io_file_comm
       io_group_comm n_reqs reqs mode ncidp state queue writer active checksum]
    in *;
  repeat match goal with
         | H : w_file _ = w_file _ |- _ => progress (rewrite ?H in * )
         end.

(** A call is allowed: it is in the set, and a backend call is made on an
    I/O task only. *)
Ltac call_ok :=
  first
    [ reflexivity
    | unfold rank_calls; cbn [andb orb negb is_ncmpi is_inquiry_call
                              is_api_call is_request_call];
      world_norm;
      match goal with
      | H : (io_task _ =? 0) = false |- _ => rewrite H; reflexivity
      end ].

(** Decomposing a program along its structure: [sub] applies the lemmas
    about the functions it calls, [leaf] proves what is said of a returned
    value. *)
Ltac safe_step sub leaf :=
  unfold on_io_task, bcast_ierr, bcast_int, read_local, or_return, set_default,
    store_through, join_writer, switch_to_define_mode, switch_to_data_mode;
  cbn [bind do_call option_map];
  lazymatch goal with
  | |- safe _ _ (Ret _) => apply safe_ret; cbn beta; world_norm; leaf
  | |- safe _ _ Crash => exact I
  | |- safe _ _ (Vis _ _) => apply safe_vis; [call_ok|intro]
  | |- safe _ _ ?p =>
      let h := bind_head p in
      lazymatch h with
      | if ?b then _ else _ =>
          first [ match goal with Hb : b = _ |- _ => rewrite Hb end
                | destruct b eqn:? ]
      | match ?x with _ => _ end =>
          first [ is_var x; destruct x | destruct x eqn:? ]
      | _ => first [ sub
                   | eapply safe_bind; [sub|intros ? ?; world_norm] ]
      end
  end.

Ltac safe_steps sub leaf := repeat (safe_step sub leaf).

(** Using the lemma [lem] about a function that is started in a world
    whose file is the one of the initial world. *)
Ltac via lem :=
  first
    [ apply lem
    | eapply safe_weaken; [| |apply lem];
      [ intros ?; world_norm; exact id
      | intros ?; world_norm; exact id ] ].

(** ** The inquiries *)

Ltac same_file := reflexivity.

Lemma safe_free_all Q ps :
  (forall p, Q (free p) = true) -> safe Q (fun _ => True) (free_all ps).
Proof.
  intros HQ. induction ps as [|p ps IH]; cbn [free_all safe bind do_call].
  - exact I.
  - split; [apply HQ|]. intros _. exact IH.
Qed.

Lemma safe_alloc_dimnames Q n allocated dimnames_ptr :
  (forall z, Q (malloc z) = true) -> (forall p, Q (free p) = true) ->
  safe Q (fun _ => True) (alloc_dimnames n allocated dimnames_ptr).
Proof.
  intros Hm Hf. revert allocated. induction n as [|n IH]; intros allocated;
    cbn [alloc_dimnames].
  - exact I.
  - cbn [bind do_call safe]. split; [apply Hm|]. intros r.
    destruct (r =? 0); [|apply IH].
    eapply safe_bind; [apply safe_free_all; exact Hf|].
    intros _ _. cbn [bind do_call safe]. split; [apply Hf|].
    intros _. exact I.
Qed.

Lemma safe_inquire_dim_unlimited dimidp dimsize is_unlimited w :
  safe (rank_calls is_inquiry_call (w_file w)) (fun a => w_file (snd a) = w_file w)
    (inquire_dim_unlimited dimidp dimsize is_unlimited w).
Proof. unfold inquire_dim_unlimited. safe_steps fail same_file. Qed.

Lemma safe_inquire_dim_pnetcdf name dimsize is_unlimited w :
  safe (rank_calls is_inquiry_call (w_file w)) (fun a => w_file (snd a) = w_file w)
    (inquire_dim_pnetcdf name dimsize is_unlimited w).
Proof.
  unfold inquire_dim_pnetcdf.
  safe_steps ltac:(apply safe_inquire_dim_unlimited) same_file.
Qed.

Lemma safe_SMIOL_inquire_dim file dimname dimsize is_unlimited w :
  safe (rank_calls is_inquiry_call (w_file w)) (fun a => w_file (snd a) = w_file w)
    (SMIOL_inquire_dim file dimname dimsize is_unlimited w).
Proof.
  unfold SMIOL_inquire_dim.
  safe_steps ltac:(apply safe_inquire_dim_pnetcdf) same_file.
Qed.

Lemma safe_att_varid varname w :
  safe (rank_calls is_inquiry_call (w_file w))
    (fun a => match a with
              | inl b => w_file (snd b) = w_file w
              | inr _ => True
              end)
    (att_varid varname w).
Proof. unfold att_varid. safe_steps fail ltac:(first [reflexivity|exact I]). Qed.

Lemma safe_inquire_att_value varidp aname att xtypep lenp att_type att_len w :
  safe (rank_calls is_inquiry_call (w_file w)) (fun a => w_file (snd a) = w_file w)
    (inquire_att_value varidp aname att xtypep lenp att_type att_len w).
Proof. unfold inquire_att_value. safe_steps fail same_file. Qed.

Lemma safe_SMIOL_inquire_att file varname att_name att_type att_len att w :
  safe (rank_calls is_inquiry_call (w_file w)) (fun a => w_file (snd a) = w_file w)
    (SMIOL_inquire_att file varname att_name att_type att_len att w).
Proof.
  unfold SMIOL_inquire_att.
  safe_steps ltac:(first [ apply safe_att_varid
                         | apply safe_inquire_att_value ])
             ltac:(first [reflexivity|assumption]).
Qed.

Lemma safe_inquire_var_dimnames n i dimids_ptr dimids dimnames w :
  safe (rank_calls is_inquiry_call (w_file w)) (fun a => w_file (snd a) = w_file w)
    (inquire_var_dimnames n i dimids_ptr dimids dimnames w).
Proof.
  revert i dimnames. induction n as [|n IH]; intros i dimnames;
    cbn [inquire_var_dimnames].
  - safe_steps fail same_file.
  - safe_steps ltac:(apply IH) same_file.
Qed.

Lemma safe_SMIOL_inquire_var file varname vartype ndims dimnames w :
  safe (rank_calls is_inquiry_call (w_file w)) (fun a => w_file (snd a) = w_file w)
    (SMIOL_inquire_var file varname vartype ndims dimnames w).
Proof.
  unfold SMIOL_inquire_var.
  safe_steps ltac:(apply safe_inquire_var_dimnames)
             ltac:(first [reflexivity|assumption]).
Qed.

Lemma safe_inquire_dimsizes n file names dimsizes u w :
  safe (rank_calls is_inquiry_call (w_file w))
    (fun a => w_file (snd a) = w_file w)
    (inquire_dimsizes n file names dimsizes u w).
Proof.
  revert dimsizes u w. induction n as [|n IH]; intros dimsizes u w;
    cbn [inquire_dimsizes]; unfold read_string.
  - safe_steps fail same_file.
  - safe_steps ltac:(first [ via IH | via safe_SMIOL_inquire_dim ])
               ltac:(first [reflexivity|assumption]).
Qed.

(** A returned code that is known not to be success. *)
Ltac not_success :=
  repeat match goal with
         | H : negb _ = true |- _ => apply negb_true_iff in H
         | H : negb _ = false |- _ => apply negb_false_iff in H
         end;
  first [ reflexivity | assumption | exact I ].

Lemma safe_build_start_count file varname decomp write_or_read w :
  safe (rank_calls is_inquiry_call (w_file w))
    (fun a => w_file (snd a) = w_file w /\
              match fst a with
              | inl rv => is_success rv = false
              | inr _ => True
              end)
    (build_start_count file varname decomp write_or_read w).
Proof.
  unfold build_start_count.
  safe_steps ltac:(first [ via safe_SMIOL_inquire_var
                         | via safe_inquire_dimsizes
                         | apply safe_alloc_dimnames; reflexivity
                         | apply safe_free_all; reflexivity ])
             ltac:(split; [first [reflexivity|assumption]|not_success]).
Qed.

(** ** The operations *)

Lemma inquiry_rank_api f c :
  rank_calls is_inquiry_call f c = true -> rank_calls is_api_call f c = true.
Proof.
  unfold rank_calls. intros H. apply andb_true_iff in H. destruct H as [Hc Hr].
  rewrite Hr, andb_true_r. destruct c; cbn in *; congruence.
Qed.

(** An inquiry inside an operation. *)
Ltac via_inquiry lem :=
  eapply safe_weaken; [| |apply lem];
  [ intros ?; world_norm; apply inquiry_rank_api
  | intros ?; world_norm; exact id ].

Ltac op_sub :=
  first
    [ apply safe_free_all; reflexivity
    | via_inquiry safe_build_start_count
    | via_inquiry safe_att_varid
    | via_inquiry safe_SMIOL_inquire_dim
    | via_inquiry safe_SMIOL_inquire_var
    | via_inquiry safe_SMIOL_inquire_att ].

(** The effect of an operation at a returned value. *)
Ltac effect_leaf :=
  unfold op_effect, same_identity, same_queue;
  repeat match goal with
         | H : negb _ = true |- _ => apply negb_true_iff in H
         | H : negb _ = false |- _ => apply negb_false_iff in H
         end;
  cbn [fst snd is_success andb negb]; world_norm;
  repeat match goal with
         | H : is_success _ = _ |- _ => rewrite H
         | H : (io_task _ =? 0) = _ |- _ => rewrite H
         end;
  cbn [andb negb];
  repeat match goal with
         | |- _ /\ _ => split
         | |- _ = _ => reflexivity
         | |- ex _ => eexists
         | |- 1 <> 0 => discriminate
         | H : (?x =? 0) = false |- ?x <> 0 => apply Z.eqb_neq, H
         end.

Lemma safe_define_var_dimids n i dimnames dimids_ptr dimids w :
  safe (rank_calls is_api_call (w_file w))
    (fun a => match a with
              | inl b => w_file (snd b) = w_file w
              | inr _ => True
              end)
    (define_var_dimids n i dimnames dimids_ptr dimids w).
Proof.
  revert i dimids. induction n as [|n IH]; intros i dimids;
    cbn [define_var_dimids].
  - safe_steps fail ltac:(exact I).
  - safe_steps ltac:(apply IH) ltac:(first [reflexivity|exact I]).
Qed.

Lemma safe_run_op file op w :
  safe (rank_calls is_api_call (w_file w)) (op_effect op w) (run_op file op w).
Proof.
  destruct op; cbn [run_op].
  - unfold SMIOL_define_dim. safe_steps fail effect_leaf.
  - unfold SMIOL_define_var.
    safe_steps ltac:(apply safe_define_var_dimids) effect_leaf.
  - unfold SMIOL_define_att. safe_steps op_sub effect_leaf.
  - safe_steps op_sub effect_leaf.
  - safe_steps op_sub effect_leaf.
  - safe_steps op_sub effect_leaf.
  - unfold SMIOL_put_var, put_var_transfer, put_var_aggregate, put_var_queue,
      put_var_enqueue.
    safe_steps op_sub effect_leaf.
  - unfold SMIOL_get_var, get_var_transfer. safe_steps op_sub effect_leaf.
  - unfold SMIOL_sync_file. safe_steps fail effect_leaf.
  - unfold SMIOL_set_frame. safe_steps fail effect_leaf.
  - unfold SMIOL_get_frame. safe_steps fail effect_leaf.
Qed.

(** ** The writer thread *)

Lemma writer_keeps_refl w : writer_keeps w w.
Proof. repeat split. Qed.

Lemma writer_keeps_trans w1 w2 w3 :
  writer_keeps w1 w2 -> writer_keeps w2 w3 -> writer_keeps w1 w3.
Proof.
  unfold writer_keeps. intros H1 H2.
  destruct H1 as (A1 & A2 & A3 & A4 & A5 & A6 & A7 & A8).
  destruct H2 as (B1 & B2 & B3 & B4 & B5 & B6 & B7 & B8).
  repeat split; congruence.
Qed.

Ltac keeps_leaf :=
  unfold writer_keeps; world_norm;
  repeat match goal with
         | |- _ /\ _ => split
         | |- _ = _ => rewrite ?length_insert; reflexivity
         end.

Lemma async_write_dequeue_keeps w s :
  writer_keeps w (snd (async_write_dequeue w s)).
Proof.
  unfold async_write_dequeue, SMIOL_async_queue_remove.
  destruct (unanimous w s); [|apply writer_keeps_refl].
  destruct (queue (w_file w)) as [|b q]; [|repeat split].
  destruct (n_reqs (set_queue [] (w_file w)) =? 0); repeat split.
Qed.

Lemma safe_async_write_iteration w :
  safe is_writer_call (writer_keeps w) (async_write_iteration w).
Proof.
  unfold async_write_iteration. cbn [bind do_call].
  apply safe_vis; [reflexivity|]. intros _.
  apply safe_vis; [reflexivity|]. intros s.
  pose proof (async_write_dequeue_keeps w s) as K.
  destruct (async_write_dequeue w s) as [async w0]. cbn [snd] in K.
  cbn [bind]. apply safe_vis; [reflexivity|]. intros _.
  eapply safe_weaken;
    [exact (fun c H => H)
    |intros a Ha; exact (writer_keeps_trans _ _ _ K Ha)|].
  clear K. unfold async_write_put, flush_requests.
  safe_steps fail keeps_leaf.
Qed.

Lemma safe_async_write_loop fuel w :
  safe is_writer_call (fun a => writer_keeps w (snd a)) (async_write_loop fuel w).
Proof.
  revert w. induction fuel as [|fuel IH]; intros w; cbn [async_write_loop];
    destruct (active (w_file w) =? 0);
    try (apply safe_ret; apply writer_keeps_refl).
  eapply safe_bind; [apply safe_async_write_iteration|].
  intros w' Hw. eapply safe_weaken; [exact (fun c H => H)| |apply IH].
  intros a Ha. exact (writer_keeps_trans _ _ _ Hw Ha).
Qed.

Lemma safe_async_write fuel w :
  safe is_writer_call (fun a => writer_keeps w (snd a)) (async_write fuel w).
Proof.
  unfold async_write. cbn [bind do_call]. apply safe_vis; [reflexivity|].
  intros _. apply safe_async_write_loop.
Qed.

(** ** Theorems *)

Lemma rank_calls_in P f c : rank_calls P f c = true -> P c = true.
Proof. unfold rank_calls. intros H. apply andb_true_iff in H. tauto. Qed.

Lemma rank_calls_local P f c :
  io_task f = 0 -> rank_calls P f c = true -> negb (is_ncmpi c) = true.
Proof.
  unfold rank_calls. intros -> H. apply andb_true_iff in H.
  destruct H as [_ H]. cbn in H. rewrite orb_false_r in H. exact H.
Qed.

Lemma safe_run_inquiry file op w :
  is_inquiry_op op = true ->
  safe (rank_calls is_inquiry_call (w_file w))
    (fun a => w_file (snd a) = w_file w) (run_op file op w).
Proof.
  intros Hop. destruct op; try discriminate; cbn [run_op].
  - eapply safe_bind; [apply safe_SMIOL_inquire_dim|].
    intros [[[rv d] u] w'] H. exact H.
  - eapply safe_bind; [apply safe_SMIOL_inquire_var|].
    intros [[[[rv t] n] d] w'] H. exact H.
  - eapply safe_bind; [apply safe_SMIOL_inquire_att|].
    intros [[[rv t] n] w'] H. exact H.
Qed.

(** X1.  The operations never call the backend's buffered put, its wait-all
    or its buffer-usage inquiry, in any run; the writer thread makes no
    other backend call than these three, and besides them only takes and
    releases the ticket lock, all-reduces, and frees descriptors: it
    broadcasts nothing. *)
Theorem request_calls_belong_to_writer :
  (forall file op w tr o,
     exec (run_op file op w) tr o -> forallb is_api_call (calls tr) = true) /\
  (forall fuel w tr o,
     exec (async_write fuel w) tr o ->
     forallb is_writer_call (calls tr) = true).
Proof.
  split.
  - intros file op w tr o H.
    refine (proj1 (safe_exec is_api_call (op_effect op w) _ _ _ _ H)).
    eapply safe_weaken; [|exact (fun a Ha => Ha)|apply safe_run_op].
    intros c. apply rank_calls_in.
  - intros fuel w tr o H.
    exact (proj1 (safe_exec _ _ _ _ _ (safe_async_write fuel w) H)).
Qed.

Lemma request_calls_belong_to_writer_witness :
  forallb is_api_call (calls define0_trace) = true /\
  forallb is_writer_call (calls writer0_trace) = true.
Proof.
  split.
  - exact (proj1 request_calls_belong_to_writer _ _ _ _ _ define0_exec).
  - exact (proj2 request_calls_belong_to_writer _ _ _ _ writer0_exec).
Defined.

(** X2.  An inquiry (of a dimension, a variable or an attribute) makes no
    call but backend inquiries, broadcasts, allocations and releases of
    scratch memory and stores through its output pointers, in any run, and
    a run that returns leaves the file as it was. *)
Theorem inquiries_are_read_only file op w tr o :
  is_inquiry_op op = true ->
  exec (run_op file op w) tr o ->
  forallb is_inquiry_call (calls tr) = true /\
  forall rv w', o = Returned (rv, w') -> w_file w' = w_file w.
Proof.
  intros Hop H.
  assert (S : safe is_inquiry_call (fun a => w_file (snd a) = w_file w)
                (run_op file op w)).
  { eapply safe_weaken; [|exact (fun a Ha => Ha)|exact (safe_run_inquiry _ _ _ Hop)].
    intros c. apply rank_calls_in. }
  destruct (safe_exec _ _ _ _ _ S H) as [Hc Hr]. split; [exact Hc|].
  intros rv w' E. exact (Hr _ E).
Qed.

Lemma inquire_op0_exec :
  exec (run_op PTR inquire_x (world0 PNETCDF_DATA_MODE)) inquire_op0_trace
       (Returned inquire_op0_result).
Proof. exact (run_exec scripted _ (mk_script [0; 3; 0; 12; 0; 3] [] 1000)). Qed.

Lemma inquiries_are_read_only_witness :
  forallb is_inquiry_call (calls inquire_op0_trace) = true /\
  w_file (snd inquire_op0_result) = w_file (world0 PNETCDF_DATA_MODE).
Proof.
  destruct (inquiries_are_read_only PTR inquire_x (world0 PNETCDF_DATA_MODE)
              _ _ eq_refl inquire_op0_exec) as [Hc Hr].
  split; [exact Hc|]. exact (Hr _ _ eq_refl).
Defined.

(** X3.  On a rank that is not an I/O task no operation makes any backend
    call, in any run. *)
Theorem backend_calls_on_io_task_only file op w tr o :
  io_task (w_file w) = 0 ->
  exec (run_op file op w) tr o ->
  forallb (fun c => negb (is_ncmpi c)) (calls tr) = true.
Proof.
  intros Hio H.
  refine (proj1 (safe_exec _ (op_effect op w) _ _ _ _ H)).
  eapply safe_weaken; [|exact (fun a Ha => Ha)|apply safe_run_op].
  intros c. exact (rank_calls_local _ _ _ Hio).
Qed.

Lemma backend_calls_on_io_task_only_witness :
  io_task (w_file (world1 PNETCDF_DATA_MODE)) = 0 /\
  forallb (fun c => negb (is_ncmpi c)) (calls follower0_trace) = true.
Proof.
  split; [reflexivity|].
  exact (backend_calls_on_io_task_only PTR define_x (world1 PNETCDF_DATA_MODE)
           _ _ eq_refl follower0_exec).
Defined.

(** X4.  No operation changes what identifies the file, nor the request
    table and its count.  A [SMIOL_put_var] that succeeds on an I/O task has
    appended one descriptor for this file to the queue and leaves the
    writer active; in every other case an operation leaves the queue and
    the active flag as they were.  The frame changes only in a
    [SMIOL_set_frame] that succeeds, to the given value. *)
Theorem operations_effect_on_file file op w tr a :
  exec (run_op file op w) tr (Returned a) -> op_effect op w a.
Proof.
  intros H.
  exact (proj2 (safe_exec _ _ _ _ _ (safe_run_op file op w) H) a eq_refl).
Qed.

Lemma put_var0_exec :
  exec (run_op PTR (op_put_var false (Some "x"%string) None 100)
          (world0 PNETCDF_DATA_MODE))
       put_var0_trace (Returned put_var0_result).
Proof. exact (run_exec scripted _ (mk_script [] [] 1000)). Qed.

Lemma operations_effect_on_file_witness :
  fst put_var0_result = Code SMIOL_SUCCESS /\
  length (queue (w_file (snd put_var0_result))) = 1%nat /\
  op_effect (op_put_var false (Some "x"%string) None 100)
    (world0 PNETCDF_DATA_MODE) put_var0_result.
Proof.
  split; [reflexivity|]. split; [reflexivity|].
  exact (operations_effect_on_file _ _ _ _ _ put_var0_exec).
Defined.

(** X5.  The writer thread leaves the context, the frame, the mode, the
    file's identity and the writer handle as they were, and keeps the size
    of the request table. *)
Theorem writer_leaves_api_state fuel w tr b w' :
  exec (async_write fuel w) tr (Returned (b, w')) -> writer_keeps w w'.
Proof.
  intros H.
  exact (proj2 (safe_exec _ _ _ _ _ (safe_async_write fuel w) H) _ eq_refl).
Qed.

Lemma writer_leaves_api_state_witness :
  writer_keeps writer_world0 writer0_world.
Proof. exact (writer_leaves_api_state _ _ _ _ _ writer0_exec). Defined.
(** ** Heap blocks *)

Lemma owns_perm {A : Type} live live' (R : list Z -> A -> Prop) (p : prog A) :
  Permutation live' live -> owns live R p -> owns live' R p.
Proof.
  revert live live'. induction p as [a| |c k IH]; intros live live' Hl Hp;
    cbn [owns] in *.
  - destruct Hp as (l & Hp & HR). exists l. split; [|exact HR].
    etransitivity; eassumption.
  - exact I.
  - destruct Hp as (l & Hp & Hk). exists l. split; [|exact Hk].
    etransitivity; eassumption.
Qed.

Lemma owns_weaken {A : Type} live (R R' : list Z -> A -> Prop) (p : prog A) :
  (forall l a, R l a -> R' l a) -> owns live R p -> owns live R' p.
Proof.
  intros HR. revert live. induction p as [a| |c k IH]; intros live;
    cbn [owns]; auto.
  - intros (l & Hl & Ha). exists l. auto.
  - intros (l & Hl & Hk). exists l. split; [exact Hl|]. intros r.
    apply IH, Hk.
Qed.

(** The blocks that the caller owns besides those that the callee needs
    stay with the caller. *)
Lemma owns_frame {A : Type} live F (R : list Z -> A -> Prop) (p : prog A) :
  owns live R p ->
  owns (live ++ F) (fun l a => exists l0, l = l0 ++ F /\ R l0 a) p.
Proof.
  revert live. induction p as [a| |c k IH]; intros live; cbn [owns].
  - intros (l & Hl & Ha). exists (l ++ F). split.
    + apply Permutation_app_tail, Hl.
    + exists l. auto.
  - auto.
  - intros (l & Hl & Hk). exists (l ++ F). split.
    + rewrite app_assoc. apply Permutation_app_tail, Hl.
    + intros r. rewrite app_assoc. apply IH, Hk.
Qed.

Lemma owns_bind {A B : Type} live (P : list Z -> A -> Prop)
  (R : list Z -> B -> Prop) (p : prog A) (f : A -> prog B) :
  owns live P p -> (forall l a, P l a -> owns l R (f a)) ->
  owns live R (bind p f).
Proof.
  intros Hp Hf. revert live Hp. induction p as [a| |c k IH]; intros live Hp;
    cbn [bind owns] in *.
  - destruct Hp as (l & Hl & Ha). eapply owns_perm; [exact Hl|]. auto.
  - exact I.
  - destruct Hp as (l & Hl & Hk). exists l. split; [exact Hl|].
    intros r. apply IH, Hk.
Qed.

(** What holds of every value that returns holds of the values that return
    with the blocks. *)
Lemma owns_safe {A : Type} Q (R1 : A -> Prop) live (P : list Z -> A -> Prop)
  (p : prog A) :
  safe Q R1 p -> owns live P p -> owns live (fun l a => R1 a /\ P l a) p.
Proof.
  revert live. induction p as [a| |c k IH]; intros live Hs Hp;
    cbn [safe owns] in *.
  - destruct Hp as (l & Hl & Ha). exists l. auto.
  - exact I.
  - destruct Hs as [_ Hs]. destruct Hp as (l & Hl & Hk). exists l.
    split; [exact Hl|]. intros r. apply IH; auto.
Qed.

(** A call to a function that needs the blocks [live0] of those that the
    caller owns, followed by the rest of the caller. *)
Lemma owns_call {A B : Type} Q (R1 : A -> Prop) live0 (P : list Z -> A -> Prop)
  L F (R : list Z -> B -> Prop) (p : prog A) (f : A -> prog B) :
  safe Q R1 p -> owns live0 P p -> Permutation L (live0 ++ F) ->
  (forall l0 a, R1 a -> P l0 a -> owns (l0 ++ F) R (f a)) ->
  owns L R (bind p f).
Proof.
  intros Hs Hp HL Hf. eapply owns_perm; [exact HL|].
  eapply owns_bind.
  - apply owns_frame. eapply owns_safe; [exact Hs|exact Hp].
  - intros l a (l0 & -> & H1 & HP). auto.
Qed.

(** The same for a call in tail position. *)
Lemma owns_tail {A : Type} Q (R1 : A -> Prop) live0 (P : list Z -> A -> Prop)
  L F (R : list Z -> A -> Prop) (p : prog A) :
  safe Q R1 p -> owns live0 P p -> Permutation L (live0 ++ F) ->
  (forall l0 a, R1 a -> P l0 a -> R (l0 ++ F) a) ->
  owns L R p.
Proof.
  intros Hs Hp HL HR. eapply owns_perm; [exact HL|].
  eapply owns_weaken; [|apply owns_frame; eapply owns_safe; [exact Hs|exact Hp]].
  intros l a (l0 & -> & H1 & HP). auto.
Qed.

Lemma safe_true {A : Type} (p : prog A) :
  safe (fun _ => true) (fun _ => True) p.
Proof. induction p; cbn [safe]; auto. Qed.

Lemma owns_ret {A : Type} live (R : list Z -> A -> Prop) a :
  R live a -> owns live R (Ret a).
Proof. intros H. exists live. auto. Qed.

Lemma owns_ret_perm {A : Type} live live' (R : list Z -> A -> Prop) a :
  Permutation live live' -> R live' a -> owns live R (Ret a).
Proof. intros Hl H. exists live'. auto. Qed.

Lemma owns_malloc {A : Type} live (R : list Z -> A -> Prop) z
  (k : result (malloc z) -> prog A) :
  (forall r, owns (r :: live) R (k r)) -> owns live R (Vis (malloc z) k).
Proof. intros H. exists live. split; [reflexivity|exact H]. Qed.

Lemma owns_free {A : Type} live live' (R : list Z -> A -> Prop) p
  (k : result (free p) -> prog A) :
  Permutation live (p :: live') -> (forall r, owns live' R (k r)) ->
  owns live R (Vis (free p) k).
Proof. intros Hl H. exists live'. split; [exact Hl|exact H]. Qed.

Lemma owns_other {A : Type} live (R : list Z -> A -> Prop) c
  (k : result c -> prog A) :
  is_memory c = false -> (forall r, owns live R (k r)) -> owns live R (Vis c k).
Proof.
  intros Hc H. exists live.
  assert (released c = []) as -> by (destruct c; (discriminate || reflexivity)).
  split; [reflexivity|]. intros r.
  assert (allocated c r = []) as -> by (destruct c; (discriminate || reflexivity)).
  exact (H r).
Qed.

(** The blocks of a returning run. *)
Lemma owns_exec {A : Type} live (R : list Z -> A -> Prop) (p : prog A) tr a :
  owns live R p -> exec p tr (Returned a) ->
  exists live', R live' a /\
    Permutation (allocations tr ++ live) (frees tr ++ live').
Proof.
  revert live tr. induction p as [x| |c k IH]; intros live tr Hp He;
    cbn [owns exec] in *.
  - destruct He as [-> E]. injection E as <-.
    destruct Hp as (l & Hl & Ha). exists l. auto.
  - destruct He as [_ E]. discriminate.
  - destruct He as (r & tr' & -> & He). destruct Hp as (l & Hl & Hk).
    destruct (IH r _ _ (Hk r) He) as (l' & Ha & Hperm). exists l'.
    split; [exact Ha|]. cbn [allocations frees].
    rewrite <- !app_assoc, Hl, <- Hperm. solve_Permutation.
Qed.

(** Finding a block, or a list of blocks, among those owned. *)
Lemma take_head (p : Z) l : Permutation (p :: l) (p :: l).
Proof. reflexivity. Qed.

Lemma take_skip (p x : Z) l l' :
  Permutation l (p :: l') -> Permutation (x :: l) (p :: x :: l').
Proof. intros ->. apply perm_swap. Qed.

Lemma take_app_l (p : Z) l1 l1' l2 :
  Permutation l1 (p :: l1') -> Permutation (l1 ++ l2) (p :: l1' ++ l2).
Proof. intros ->. reflexivity. Qed.

Lemma take_app_r (p : Z) l1 l2 l2' :
  Permutation l2 (p :: l2') -> Permutation (l1 ++ l2) (p :: l1 ++ l2').
Proof. intros ->. symmetry. apply Permutation_middle. Qed.

Ltac take :=
  first [ apply take_head
        | apply take_skip; take
        | apply take_app_l; take
        | apply take_app_r; take ].

Lemma takes_nil (l : list Z) : Permutation l ([] ++ l).
Proof. reflexivity. Qed.

Lemma takes_cons (p : Z) ps l l' F :
  Permutation l (p :: l') -> Permutation l' (ps ++ F) ->
  Permutation l ((p :: ps) ++ F).
Proof. intros -> ->. reflexivity. Qed.

Lemma takes_all (ps : list Z) : Permutation ps (ps ++ []).
Proof. rewrite app_nil_r. reflexivity. Qed.

Lemma takes_here (ps l : list Z) : Permutation (ps ++ l) (ps ++ l).
Proof. reflexivity. Qed.

Lemma takes_skip (ps : list Z) x l F :
  Permutation l (ps ++ F) -> Permutation (x :: l) (ps ++ x :: F).
Proof. intros ->. apply Permutation_middle. Qed.

Lemma takes_app_r (ps l1 l2 F : list Z) :
  Permutation l2 (ps ++ F) -> Permutation (l1 ++ l2) (ps ++ l1 ++ F).
Proof. intros ->. solve_Permutation. Qed.

Ltac takes_list :=
  first [ apply takes_all
        | apply takes_here
        | apply takes_skip; takes_list
        | apply takes_app_r; takes_list ].

Ltac takes :=
  lazymatch goal with
  | |- Permutation _ ([] ++ _) => apply takes_nil
  | |- Permutation _ ((_ :: _) ++ _) => eapply takes_cons; [take|takes]
  | |- Permutation _ (_ ++ _) => takes_list
  end.

(** What the tests of the program tell about the results of the calls. *)
Ltac flag_norm :=
  repeat match goal with
         | H : negb _ = true |- _ => apply negb_true_iff in H
         | H : negb _ = false |- _ => apply negb_false_iff in H
         | H : ?c = true -> _, H' : ?c = true |- _ => specialize (H H')
         | H : _ /\ _ |- _ => destruct H
         | H : ex _ |- _ => destruct H
         | H : ?l = _ |- _ =>
             is_var l; lazymatch type of l with list Z => subst l end
         end.

Ltac leaf_norm :=
  repeat match goal with a : (_ * _)%type |- _ => destruct a end;
  cbn [fst snd is_success] in *; intros; flag_norm; cbn [app];
  rewrite ?app_nil_r.

(** One step through a program for [owns]; [sub] goes through a call of a
    function that has its own lemmas, [leaf] proves what is stated of a
    returned value. *)
Ltac owns_step sub leaf :=
  unfold on_io_task, bcast_ierr, bcast_int, read_local, or_return, set_default,
    store_through, join_writer, switch_to_define_mode, switch_to_data_mode;
  cbn [bind do_call option_map]; cbn [fst snd] in *; flag_norm; cbn [app];
  lazymatch goal with
  | |- owns _ _ (Ret _) =>
      first
        [ solve [ apply owns_ret; cbn beta iota; world_norm; leaf_norm; leaf ]
        | solve [ eapply owns_ret_perm; cycle 1;
                  [ cbn beta iota; world_norm; leaf_norm; leaf
                  | solve_Permutation ] ]
        | apply owns_ret; cbn beta iota; world_norm; leaf_norm ]
  | |- owns _ _ Crash => exact I
  | |- owns _ _ (Vis (malloc _) _) => apply owns_malloc; intro
  | |- owns _ _ (Vis (free _) _) => eapply owns_free; [take|intro]
  | |- owns _ _ (Vis _ _) => apply owns_other; [reflexivity|intro]
  | |- owns _ _ ?p =>
      let h := bind_head p in
      lazymatch h with
      | if ?b then _ else _ =>
          first [ match goal with Hb : b = _ |- _ => rewrite Hb end
                | destruct b eqn:? ]
      | match ?x with _ => _ end =>
          first [ is_var x; destruct x | destruct x eqn:? ]
      | _ => sub
      end
  | |- _ => leaf_norm; leaf
  end.

Ltac owns_steps sub leaf := repeat (owns_step sub leaf).

(** Going through a call with a lemma about what it returns and a lemma
    about its blocks. *)
Ltac owns_with ls lm :=
  first
    [ eapply owns_call; [ls|lm|takes|]
    | eapply owns_tail; [ls|lm|takes|] ];
  intros ? ? ? ?; cbn beta in *; world_norm; flag_norm; cbn [app].

Ltac owns_via Ls Lm := owns_with ltac:(apply Ls) ltac:(apply Lm).

Ltac owns_mem Lm := owns_with ltac:(apply safe_true) ltac:(apply Lm).

Ltac nothing_owned := first [ reflexivity | exact I | assumption ].

Lemma owns_free_all ps : owns ps (fun l _ => l = []) (free_all ps).
Proof.
  induction ps as [|p ps IH]; cbn [free_all].
  - apply owns_ret. reflexivity.
  - cbn [bind do_call]. eapply owns_free; [take|]. intros _. exact IH.
Qed.

Lemma owns_alloc_dimnames n allocated dimnames_ptr :
  owns (dimnames_ptr :: allocated)
    (fun l a => match a with
                | Some ps => l = dimnames_ptr :: ps
                | None => True
                end)
    (alloc_dimnames n allocated dimnames_ptr).
Proof.
  revert allocated. induction n as [|n IH]; intros allocated;
    cbn [alloc_dimnames].
  - apply owns_ret. reflexivity.
  - cbn [bind do_call]. apply owns_malloc. intros p.
    destruct (p =? 0).
    + owns_steps ltac:(owns_mem owns_free_all) ltac:(exact I).
    + eapply owns_perm; [|apply IH]. solve_Permutation.
Qed.

Lemma owns_inquire_dim_unlimited dimidp dimsize is_unlimited w :
  owns [] (fun l _ => l = [])
    (inquire_dim_unlimited dimidp dimsize is_unlimited w).
Proof. unfold inquire_dim_unlimited. owns_steps fail nothing_owned. Qed.

Lemma owns_inquire_dim_pnetcdf name dimsize is_unlimited w :
  owns [] (fun l _ => l = [])
    (inquire_dim_pnetcdf name dimsize is_unlimited w).
Proof.
  unfold inquire_dim_pnetcdf.
  owns_steps ltac:(owns_mem owns_inquire_dim_unlimited) nothing_owned.
Qed.

Lemma owns_SMIOL_inquire_dim file dimname dimsize is_unlimited w :
  owns [] (fun l _ => l = [])
    (SMIOL_inquire_dim file dimname dimsize is_unlimited w).
Proof.
  unfold SMIOL_inquire_dim.
  owns_steps ltac:(owns_mem owns_inquire_dim_pnetcdf) nothing_owned.
Qed.

Lemma owns_inquire_dimsizes n file names dimsizes u w :
  owns [] (fun l _ => l = []) (inquire_dimsizes n file names dimsizes u w).
Proof.
  revert dimsizes u w. induction n as [|n IH]; intros dimsizes u w;
    cbn [inquire_dimsizes]; unfold read_string.
  - owns_steps fail nothing_owned.
  - owns_steps ltac:(first [ owns_mem IH | owns_mem owns_SMIOL_inquire_dim ])
               nothing_owned.
Qed.

Lemma owns_att_varid varname w :
  owns []
    (fun l a => l = [] /\
                match a with
                | inl b => is_success (fst b) = false
                | inr _ => True
                end)
    (att_varid varname w).
Proof.
  unfold att_varid. owns_steps fail ltac:(split; first [reflexivity|exact I]).
Qed.

Lemma owns_inquire_att_value varidp aname att xtypep lenp att_type att_len w :
  owns [] (fun l _ => l = [])
    (inquire_att_value varidp aname att xtypep lenp att_type att_len w).
Proof. unfold inquire_att_value. owns_steps fail nothing_owned. Qed.

Lemma owns_SMIOL_inquire_att file varname att_name att_type att_len att w :
  owns [] (fun l _ => l = [])
    (SMIOL_inquire_att file varname att_name att_type att_len att w).
Proof.
  unfold SMIOL_inquire_att.
  owns_steps ltac:(first [ owns_mem owns_att_varid
                         | owns_mem owns_inquire_att_value ])
             nothing_owned.
Qed.

(** After a code that is not success nothing is to be proved. *)
Ltac on_success :=
  first [ reflexivity | exact I | assumption | discriminate | congruence ].

Lemma owns_inquire_var_dimnames n i dimids_ptr dimids dimnames w :
  owns [dimids_ptr]
    (fun l a => match a with
                | (rv, _, _) => is_success rv = true -> l = []
                end)
    (inquire_var_dimnames n i dimids_ptr dimids dimnames w).
Proof.
  revert i dimnames. induction n as [|n IH]; intros i dimnames;
    cbn [inquire_var_dimnames].
  - owns_steps fail on_success.
  - owns_steps ltac:(owns_mem IH) on_success.
Qed.

Lemma owns_SMIOL_inquire_var file varname vartype ndims dimnames w :
  owns []
    (fun l a => match a with
                | (rv, _, _, _, _) => is_success rv = true -> l = []
                end)
    (SMIOL_inquire_var file varname vartype ndims dimnames w).
Proof.
  unfold SMIOL_inquire_var.
  owns_steps ltac:(owns_mem owns_inquire_var_dimnames)
             on_success.
Qed.

Lemma owns_build_start_count file varname decomp write_or_read w :
  owns []
    (fun l a => match fst a with
                | inl _ => True
                | inr sc => l = [a_ptr (sc_start sc); a_ptr (sc_count sc)]
                end)
    (build_start_count file varname decomp write_or_read w).
Proof.
  unfold build_start_count.
  owns_steps ltac:(first [ owns_mem owns_SMIOL_inquire_var
                         | owns_mem owns_inquire_dimsizes
                         | owns_mem owns_alloc_dimnames
                         | owns_mem owns_free_all ])
             ltac:(first [exact I|reflexivity]).
Qed.

Lemma owns_define_var_dimids n i dimnames dimids_ptr dimids w :
  owns [dimids_ptr]
    (fun l a => match a with
                | inl b => is_success (fst b) = false
                | inr _ => l = [dimids_ptr]
                end)
    (define_var_dimids n i dimnames dimids_ptr dimids w).
Proof.
  revert i dimids. induction n as [|n IH]; intros i dimids;
    cbn [define_var_dimids].
  - owns_steps fail on_success.
  - owns_steps ltac:(owns_mem IH) on_success.
Qed.

(** The blocks that an operation keeps, at a returned value. *)
Ltac kept_leaf :=
  unfold kept_by; cbn [fst snd];
  repeat match goal with
         | H : (io_task _ =? 0) = _ |- _ => rewrite H
         end;
  first [ reflexivity | discriminate | congruence
        | eexists; first [ reflexivity | split; reflexivity ] ].

Ltac kept_sub :=
  first
    [ owns_via safe_build_start_count owns_build_start_count
    | owns_mem owns_define_var_dimids
    | owns_mem owns_att_varid
    | owns_mem owns_SMIOL_inquire_dim
    | owns_mem owns_SMIOL_inquire_var
    | owns_mem owns_SMIOL_inquire_att
    | owns_mem owns_free_all ].

Lemma owns_run_op file op w :
  owns [] (fun l a => is_success (fst a) = true -> kept_by op w a l)
    (run_op file op w).
Proof.
  destruct op; cbn [run_op].
  - unfold SMIOL_define_dim. owns_steps fail kept_leaf.
  - unfold SMIOL_define_var. owns_steps kept_sub kept_leaf.
  - unfold SMIOL_define_att. owns_steps kept_sub kept_leaf.
  - owns_steps kept_sub kept_leaf.
  - owns_steps kept_sub kept_leaf.
  - owns_steps kept_sub kept_leaf.
  - unfold SMIOL_put_var, put_var_transfer, put_var_aggregate, put_var_queue,
      put_var_enqueue.
    owns_steps kept_sub kept_leaf.
  - unfold SMIOL_get_var, get_var_transfer. owns_steps kept_sub kept_leaf.
  - unfold SMIOL_sync_file. owns_steps fail kept_leaf.
  - unfold SMIOL_set_frame. owns_steps fail kept_leaf.
  - unfold SMIOL_get_frame. owns_steps fail kept_leaf.
Qed.

(** ** The blocks of the writer thread *)

Lemma owns_async_write_put a w :
  owns (descriptor_blocks a)
    (fun l w' => l = [] /\ queue (w_file w') = queue (w_file w))
    (async_write_put a w).
Proof.
  unfold async_write_put, flush_requests, descriptor_blocks.
  owns_steps fail ltac:(split; reflexivity).
Qed.

Lemma owns_async_write_iteration w :
  owns (queue_blocks w) (fun l w' => l = queue_blocks w')
    (async_write_iteration w).
Proof.
  unfold async_write_iteration. cbn [bind do_call].
  apply owns_other; [reflexivity|]. intros _.
  apply owns_other; [reflexivity|]. intros s.
  unfold async_write_dequeue, SMIOL_async_queue_remove, queue_blocks.
  destruct (unanimous w s).
  - destruct (queue (w_file w)) as [|a q] eqn:Hq.
    + destruct (n_reqs (set_queue [] (w_file w)) =? 0) eqn:Hn;
        cbn [bind]; (apply owns_other; [reflexivity|]); intros _;
        unfold flush_requests; owns_steps fail ltac:(reflexivity).
    + cbn [bind flat_map]. apply owns_other; [reflexivity|]. intros _.
      eapply owns_tail;
        [apply safe_true|apply owns_async_write_put|apply takes_here|].
      cbn beta. intros l0 w' _ [-> Hw']. cbn [app]. rewrite Hw'.
      reflexivity.
  - cbn [bind]. apply owns_other; [reflexivity|]. intros _.
    apply owns_ret. reflexivity.
Qed.

Lemma owns_async_write_loop fuel w :
  owns (queue_blocks w) (fun l a => l = queue_blocks (snd a))
    (async_write_loop fuel w).
Proof.
  revert w. induction fuel as [|fuel IH]; intros w; cbn [async_write_loop];
    destruct (active (w_file w) =? 0);
    try (apply owns_ret; reflexivity).
  eapply owns_bind; [apply owns_async_write_iteration|].
  cbn beta. intros l w' ->. apply IH.
Qed.

Lemma owns_async_write fuel w :
  owns (queue_blocks w) (fun l a => l = queue_blocks (snd a))
    (async_write fuel w).
Proof.
  unfold async_write. cbn [bind do_call]. apply owns_other; [reflexivity|].
  intros _. apply owns_async_write_loop.
Qed.

Lemma writer_calls_allocate_nothing tr :
  forallb is_writer_call (calls tr) = true -> allocations tr = [].
Proof.
  induction tr as [|[c r] tr IH]; [reflexivity|].
  cbn [calls map forallb ev_call allocations]. intros H.
  apply andb_true_iff in H. destruct H as [Hc Htr].
  rewrite (IH Htr). destruct c; (discriminate || reflexivity).
Qed.

(** ** Theorems on heap blocks *)

(** X6.  In every run of an operation that returns, each block that the
    operation releases is one that it has allocated itself, and none is
    released twice.  When the operation succeeds, every block that it
    allocated is released again, except that a [SMIOL_put_var] leaves
    allocated: on an I/O task the four blocks of the descriptor that it
    has queued, and on another rank the transfer buffer of a decomposed
    variable. *)
Theorem operations_release_their_blocks file op w tr a :
  exec (run_op file op w) tr (Returned a) ->
  mem_post op w (allocations tr) (frees tr) a.
Proof.
  intros H.
  destruct (owns_exec _ _ _ _ _ (owns_run_op file op w) H) as (l & Hl & Hp).
  rewrite app_nil_r in Hp. split.
  - rewrite Hp. apply submseteq_inserts_r. reflexivity.
  - intros Hs. exists l. split; [exact (Hl Hs)|exact Hp].
Qed.

Lemma operations_release_their_blocks_witness :
  fst put_var0_result = Code SMIOL_SUCCESS /\
  length (allocations put_var0_trace) = 9%nat /\
  length (frees put_var0_trace) = 5%nat /\
  mem_post (op_put_var false (Some "x"%string) None 100)
    (world0 PNETCDF_DATA_MODE) (allocations put_var0_trace)
    (frees put_var0_trace) put_var0_result.
Proof.
  split; [reflexivity|]. split; [reflexivity|]. split; [reflexivity|].
  exact (operations_release_their_blocks _ _ _ _ _ put_var0_exec).
Defined.

(** X7.  The writer thread allocates nothing, and the blocks that a run of
    it releases are exactly the blocks of the descriptors that it has
    taken off the queue, each released once. *)
Theorem writer_releases_taken_descriptors fuel w tr b w' :
  exec (async_write fuel w) tr (Returned (b, w')) ->
  allocations tr = [] /\
  Permutation (queue_blocks w) (frees tr ++ queue_blocks w').
Proof.
  intros H.
  pose proof (proj1 (safe_exec _ _ _ _ _ (safe_async_write fuel w) H)) as Hc.
  apply writer_calls_allocate_nothing in Hc. split; [exact Hc|].
  destruct (owns_exec _ _ _ _ _ (owns_async_write fuel w) H) as (l & -> & Hp).
  rewrite Hc in Hp. exact Hp.
Qed.

Lemma writer_releases_taken_descriptors_witness :
  queue_blocks writer_world0 = [910; 920; 930; 900] /\
  queue_blocks writer0_world = [] /\
  allocations writer0_trace = [] /\
  Permutation (queue_blocks writer_world0)
    (frees writer0_trace ++ queue_blocks writer0_world).
Proof.
  split; [reflexivity|]. split; [reflexivity|].
  exact (writer_releases_taken_descriptors _ _ _ _ _ writer0_exec).
Defined.

Lemma allocations_app tr1 tr2 :
  allocations (tr1 ++ tr2) = allocations tr1 ++ allocations tr2.
Proof.
  induction tr1 as [|[c r] tr1 IH]; [reflexivity|].
  cbn [app allocations]. rewrite IH. apply app_assoc.
Qed.

Lemma frees_app tr1 tr2 : frees (tr1 ++ tr2) = frees tr1 ++ frees tr2.
Proof.
  induction tr1 as [|[c r] tr1 IH]; [reflexivity|].
  cbn [app frees]. rewrite IH. apply app_assoc.
Qed.

(** The writer clears the active flag only when it finds the queue empty. *)
Lemma safe_async_write_iteration_exit w :
  active (w_file w) <> 0 ->
  safe (fun _ => true)
    (fun w' => active (w_file w') = 0 -> queue (w_file w') = [])
    (async_write_iteration w).
Proof.
  intros Ha. unfold async_write_iteration. cbn [bind do_call].
  apply safe_vis; [reflexivity|]. intros _.
  apply safe_vis; [reflexivity|]. intros s.
  unfold async_write_dequeue, SMIOL_async_queue_remove.
  destruct (unanimous w s).
  - destruct (queue (w_file w)) as [|a q] eqn:Hq.
    + destruct (n_reqs (set_queue [] (w_file w)) =? 0) eqn:Hn;
        cbn [bind]; (apply safe_vis; [reflexivity|]); intros _;
        unfold flush_requests;
        safe_steps fail ltac:(intros; first [reflexivity|contradiction]).
    + cbn [bind]. apply safe_vis; [reflexivity|]. intros _.
      unfold async_write_put, flush_requests.
      safe_steps fail ltac:(intros; first [reflexivity|contradiction]).
  - cbn [bind]. apply safe_vis; [reflexivity|]. intros _.
    apply safe_ret. intros E. contradiction.
Qed.

Lemma safe_async_write_loop_exit fuel w :
  (active (w_file w) = 0 -> queue (w_file w) = []) ->
  safe (fun _ => true)
    (fun a => fst a = true -> queue (w_file (snd a)) = [])
    (async_write_loop fuel w).
Proof.
  revert w. induction fuel as [|fuel IH]; intros w Hw; cbn [async_write_loop];
    destruct (active (w_file w) =? 0) eqn:Ha;
    try (apply safe_ret; cbn [fst snd]; intros _; apply Hw, Z.eqb_eq, Ha);
    try (apply safe_ret; cbn [fst snd]; discriminate).
  eapply safe_bind.
  - apply safe_async_write_iteration_exit, Z.eqb_neq, Ha.
  - cbn beta. intros w' Hw'. apply IH, Hw'.
Qed.

Lemma writer1_exec :
  exec (async_write 3 (snd put_var0_result)) writer1_trace
    (Returned (true, writer1_world)).
Proof. exact (run_exec scripted _ (mk_script [] [] 2000)). Qed.

(** X8.  A write and the writer thread together leak nothing: when
    [SMIOL_put_var] has succeeded on an I/O task and the writer thread,
    run on the file as the write left it, has returned, the blocks that the
    two have released are exactly the blocks that they have allocated and
    the blocks of the descriptors that were queued before the write. *)
Theorem written_blocks_released_by_writer agg varname decomp buf w tr1 w1
  fuel tr2 w2 :
  io_task (w_file w) <> 0 ->
  exec (run_op PTR (op_put_var agg varname decomp buf) w) tr1
    (Returned (Code SMIOL_SUCCESS, w1)) ->
  exec (async_write fuel w1) tr2 (Returned (true, w2)) ->
  Permutation (allocations (tr1 ++ tr2) ++ queue_blocks w)
    (frees (tr1 ++ tr2)).
Proof.
  intros Hio H1 H2.
  destruct (owns_exec _ _ _ _ _ (owns_run_op _ _ _) H1) as (l & Hl & Hp1).
  specialize (Hl eq_refl). unfold kept_by in Hl. cbn [fst snd] in Hl.
  apply Z.eqb_neq in Hio. rewrite Hio in Hl. destruct Hl as (x & Hq & ->).
  pose proof (proj2 (safe_exec _ _ _ _ _ (safe_run_op _ _ _) H1) _ eq_refl)
    as (_ & _ & He).
  cbn [fst snd is_success andb] in He. rewrite Hio in He. cbn [negb] in He.
  destruct He as [_ Hact].
  pose proof (proj1 (safe_exec _ _ _ _ _ (safe_async_write fuel w1) H2)) as Hc.
  apply writer_calls_allocate_nothing in Hc.
  destruct (owns_exec _ _ _ _ _ (owns_async_write fuel w1) H2) as (l & -> & Hp2).
  assert (queue (w_file w2) = []) as Hq2.
  { unfold async_write in H2. cbn [bind do_call exec] in H2.
    destruct H2 as (r & tr' & -> & H2).
    refine (proj2 (safe_exec _ _ _ _ _
                     (safe_async_write_loop_exit fuel w1 _) H2) _ eq_refl eq_refl).
    intros E. contradiction. }
  rewrite Hc in Hp2. cbn [app snd] in Hp2. rewrite app_nil_r in Hp1.
  unfold queue_blocks in *. rewrite Hq2 in Hp2. rewrite Hq, flat_map_app in Hp2.
  cbn [flat_map] in Hp2. rewrite !app_nil_r in Hp2.
  rewrite allocations_app, frees_app, Hc, app_nil_r, Hp1, <- Hp2.
  solve_Permutation.
Qed.

Lemma written_blocks_released_by_writer_witness :
  length (allocations (put_var0_trace ++ writer1_trace)) = 9%nat /\
  Permutation
    (allocations (put_var0_trace ++ writer1_trace) ++
     queue_blocks (world0 PNETCDF_DATA_MODE))
    (frees (put_var0_trace ++ writer1_trace)).
Proof.
  split; [reflexivity|].
  refine (written_blocks_released_by_writer false (Some "x"%string) None 100
            (world0 PNETCDF_DATA_MODE) put_var0_trace (snd put_var0_result)
            3 writer1_trace writer1_world _ put_var0_exec writer1_exec).
  discriminate.
Defined.
(** ** Opening and closing *)

Ltac close_leaf :=
  unfold close_post;
  cbn [allocations frees returns allocated released given_back app];
  repeat match goal with
         | |- _ /\ _ => split
         | |- _ = _ => reflexivity
         end.

(** X9.  [SMIOL_close_file] allocates nothing and is all or nothing: when
    it returns with the handle null it has released the mutex, the queue and
    the file structure, each once and in this order; when it returns with
    the handle still set (an invalid checksum, or a mutex that could not be
    destroyed) it has released no block, has given back neither a
    communicator nor the backend file, and the code is not success. *)
Theorem close_file_all_or_nothing CREATE WRITE b f c tr rv left c' :
  exec (SMIOL_close_file CREATE WRITE (Some (Some (b, f))) c) tr
    (Returned (rv, left, c')) ->
  close_post b tr rv left.
Proof.
  unfold SMIOL_close_file, close_backend. intros H.
  api_steps H; inj_ret; close_leaf.
Qed.

Lemma closed0_exec :
  exec (SMIOL_close_file flag_create flag_write
          (Some (Some (blocks0, created0_file))) ctx0)
       closed0_trace (Returned (Code SMIOL_SUCCESS, None, ctx0)).
Proof. exact (run_exec scripted _ (mk_script [] [] 2000)). Qed.

Lemma close_file_all_or_nothing_witness :
  close_post blocks0 closed0_trace (Code SMIOL_SUCCESS) None.
Proof. exact (close_file_all_or_nothing _ _ _ _ _ _ _ _ _ closed0_exec). Defined.

(** X10.  Closing gives back what opening acquired: when [SMIOL_open_file]
    has succeeded and [SMIOL_close_file] succeeds on the file, whatever the
    operations and the writer thread have done in between to the fields
    that they may change, the
    communicators freed are the two that were duplicated, the backend file
    closed is the one that was created or opened, and the write buffer is
    detached exactly when it was attached. *)
Theorem close_file_returns_what_open_file_acquired CREATE WRITE READ context
  filename flags file c tr1 f c1 b f' c2 tr2 left c3 :
  exec (SMIOL_open_file CREATE WRITE READ context filename flags file c) tr1
    (Returned (Code SMIOL_SUCCESS, Some (Some f), c1)) ->
  same_backing f f' ->
  exec (SMIOL_close_file CREATE WRITE (Some (Some (b, f'))) c2) tr2
    (Returned (Code SMIOL_SUCCESS, left, c3)) ->
  Permutation (acquisitions tr1) (returns tr2).
Proof.
  unfold SMIOL_open_file, open_backend, unfinished_file, SMIOL_close_file,
    close_backend.
  intros H1 (Eio & Efc & Egc & Em & En & Ek) H2.
  cbn [pthread_setup] in H1.
  repeat (api_steps H1; cbn [pthread_setup] in H1); inj_ret.
  all: try discriminate.
  all: cbn [io_task io_file_comm io_group_comm mode ncidp checksum] in *.
  all: unfold join_writer, on_io_task in H2;
    cbn [bind do_call w_file w_ctx with_file set_writer io_task io_file_comm
         io_group_comm mode ncidp checksum] in H2;
    rewrite ?Eio, ?Efc, ?Egc, ?Em, ?En, ?Ek in H2;
    repeat match goal with
           | Hb : has_flag _ _ = _ |- _ => rewrite Hb in H2
           end;
    cbn [orb] in H2.
  all: api_steps H2; inj_ret; try discriminate.
  all: cbn [acquisitions returns acquired given_back app snd].
  all: solve_Permutation.
Qed.

Lemma close_file_returns_what_open_file_acquired_witness :
  acquisitions (snd created0_run) =
    [communicator 1001; communicator 1002; backend_file 0; write_buffer 0] /\
  Permutation (acquisitions (snd created0_run)) (returns closed0_trace).
Proof.
  split; [reflexivity|].
  refine (close_file_returns_what_open_file_acquired _ _ _ _ _ _ _ _ _ _ _ _
            _ _ _ _ _ created0_exec _ closed0_exec).
  repeat split.
Defined.

Ltac open_leaf :=
  unfold open_post, fresh_file, assigned_file;
  cbn [allocations frees returns acquisitions allocated released acquired
       given_back app List.filter is_communicator firstn is_success
       frame n_reqs queue writer active checksum mode io_task reqs ncidp];
  repeat match goal with
         | H : (_ =? 0) = false |- _ => rewrite H
         | H : (_ =? 0) = true |- _ => rewrite H
         end;
  cbn [negb];
  repeat match goal with
         | |- _ /\ _ => split
         | |- _ = _ => reflexivity
         | |- _ <> _ => discriminate
         | |- _ -> _ =>
             let E := fresh "E" in
             intros E;
             try match goal with
                 | H : (_ =? 0) = false |- _ => rewrite E in H; discriminate H
                 end
         end.

(** X11.  The outcomes of [SMIOL_open_file].  When it stores nothing
    through [file] (a null [file] or a null [context]) it has made no call
    and returns the code of an invalid argument.  When it stores a null
    pointer, the code is not success, the communicators that it has freed
    are the ones that it had duplicated, and the only block released is the
    file structure.  When it stores a file, it has released nothing and not
    touched the context; after a success the file is fresh (frame 0, no
    request outstanding, empty queue, no writer, not active, valid
    checksum, the mode as given), and otherwise the code is 1 and the file
    has the fields assigned before the mutex is prepared. *)
Theorem open_file_outcomes CREATE WRITE READ context filename flags file c tr
  rv left c' :
  exec (SMIOL_open_file CREATE WRITE READ context filename flags file c) tr
    (Returned (rv, left, c')) ->
  open_post flags c tr rv left c'.
Proof.
  unfold SMIOL_open_file, open_backend, unfinished_file. intros H.
  cbn [pthread_setup] in H.
  repeat (api_steps H; cbn [pthread_setup] in H); inj_ret.
  all: open_leaf.
Qed.

Lemma open_file_outcomes_witness :
  reqs created0_file = replicate (Z.to_nat N_REQS) 0 /\
  open_post flag_create ctx0 (snd created0_run) (Code SMIOL_SUCCESS)
    (Some (Some created0_file)) ctx0.
Proof.
  split; [reflexivity|].
  exact (open_file_outcomes _ _ _ _ _ _ _ _ _ _ _ _ created0_exec).
Defined.
(** ** The size of an element *)

Lemma to_size_t_range z : 0 <= to_size_t z < two_64.
Proof. unfold to_size_t. apply Z.mod_pos_bound. reflexivity. Qed.

Lemma to_size_t_mul_l a b : to_size_t (to_size_t a * b) = to_size_t (a * b).
Proof. unfold to_size_t. apply Z.mul_mod_idemp_l. discriminate. Qed.

Lemma to_size_t_mul_r a b : to_size_t (a * to_size_t b) = to_size_t (a * b).
Proof. unfold to_size_t. apply Z.mul_mod_idemp_r. discriminate. Qed.

Lemma start_count_axis_size file_frame rank decomp write_or_read u i d es :
  0 <= es < two_64 ->
  let es' := snd (start_count_axis file_frame rank decomp write_or_read u
                    (Z.of_nat i) d es) in
  0 <= es' < two_64 /\
  forall k, to_size_t (es' * k) =
            to_size_t (es * (axis_factor decomp (negb (u =? 0)) i d * k)).
Proof.
  intros Hes. unfold start_count_axis, axis_factor.
  replace (Z.of_nat i =? 0) with (Nat.eqb i 0)
    by (destruct i; reflexivity).
  replace (Z.of_nat i =? 1) with (Nat.eqb i 1)
    by (destruct i as [|[|i]]; try reflexivity; symmetry; apply Z.eqb_neq; lia).
  destruct (negb (u =? 0)), decomp as [dc|], (Nat.eqb i 0), (Nat.eqb i 1);
    cbn [andb orb negb fst snd]; (split; [first [exact Hes|apply to_size_t_range]|]);
    intros k;
    rewrite ?to_size_t_mul_l, ?Z.mul_1_r, ?Z.mul_1_l, <- ?Z.mul_assoc,
      ?Z.mul_1_l;
    try reflexivity.
  all: rewrite !Z.mul_assoc, <- (to_size_t_mul_l (es * to_size_t d) k),
         to_size_t_mul_r, to_size_t_mul_l; reflexivity.
Qed.

Lemma start_count_loop_size file_frame rank decomp write_or_read u :
  forall dimsizes i es start count,
    0 <= es < two_64 ->
    fst (fst (start_count_loop file_frame rank decomp write_or_read u i
                dimsizes es start count)) =
    to_size_t (es * slab_size decomp (negb (u =? 0)) i dimsizes).
Proof.
  induction dimsizes as [|d rest IH]; intros i es start count Hes;
    cbn [start_count_loop slab_size].
  - cbn [fst]. rewrite Z.mul_1_r. symmetry. apply to_size_t_id, Hes.
  - pose proof (start_count_axis_size file_frame rank decomp write_or_read u i
                  d es Hes) as Ha.
    destruct (start_count_axis file_frame rank decomp write_or_read u
                (Z.of_nat i) d es) as [[s c] es'].
    cbn [snd] in Ha. destruct Ha as [Hr Hk].
    rewrite (IH (S i) es' _ _ Hr). apply Hk.
Qed.

Lemma basic_element_size_range t : 0 <= basic_element_size t < two_64.
Proof. destruct t; cbn; unfold two_64; lia. Qed.

(** X12.  The element size that [build_start_count] delivers on success is
    the size of one value of the variable's type, as the inquiry of the run
    delivered it (4 or 8 bytes for the numeric types, 1 otherwise), times
    the sizes that the inquiries delivered for all the axes but the record
    axis and the decomposed axis, as a [size_t]. *)
Theorem build_start_count_element_size file varname decomp write_or_read w tr
  sc w' :
  exec (build_start_count file varname decomp write_or_read w) tr
    (Returned (inr sc, w')) ->
  sc_element_size sc =
  to_size_t (basic_element_size (inquired_type tr) *
             slab_size decomp (negb (inquired_unlimited tr =? 0)) 0
               (inquired_dimsizes tr)).
Proof.
  intros H. apply build_start_count_delivered in H.
  destruct H as (_ & _ & Hr & _). cbn zeta in Hr.
  pose proof (start_count_loop_size (frame (w_file w)) (comm_rank (w_ctx w))
                decomp write_or_read (inquired_unlimited tr)
                (inquired_dimsizes tr) 0 (basic_element_size (inquired_type tr))
                (replicate (Z.to_nat (sc_ndims sc)) 0)
                (replicate (Z.to_nat (sc_ndims sc)) 0)
                (basic_element_size_range (inquired_type tr))) as Hs.
  rewrite <- Hr in Hs. exact Hs.
Qed.

Lemma build_start_count_element_size_witness :
  inquired_type axes0_trace = SMIOL_REAL32 /\
  slab_size (Some decomp0) (negb (inquired_unlimited axes0_trace =? 0)) 0
    (inquired_dimsizes axes0_trace) = 1 /\
  sc_element_size axes0_result =
  to_size_t (basic_element_size (inquired_type axes0_trace) *
             slab_size (Some decomp0)
               (negb (inquired_unlimited axes0_trace =? 0)) 0
               (inquired_dimsizes axes0_trace)).
Proof.
  split; [reflexivity|]. split; [reflexivity|].
  exact (build_start_count_element_size _ _ _ _ _ _ _ _ axes0_exec).
Defined.
(** ** Library errors *)

(** [reported] at a returned value. *)
Ltac reported_leaf :=
  unfold reported; cbn [fst snd];
  repeat match goal with
         | H : negb _ = true |- _ => apply negb_true_iff in H
         | H : negb _ = false |- _ => apply negb_false_iff in H
         end;
  first
    [ exact I
    | assumption
    | intros E; discriminate E
    | intros _; cbn [w_ctx latch with_ctx with_file set_lib_error lib_type
                     lib_ierr];
      split; [reflexivity|apply Z.eqb_neq; assumption]
    | match goal with H : reported ?rv _ |- reported ?rv _ => exact H end ].

Lemma reported_inquire_dim_unlimited dimidp dimsize is_unlimited w :
  safe (fun _ => true) (fun '(rv, _, _, w') => reported rv w')
    (inquire_dim_unlimited dimidp dimsize is_unlimited w).
Proof. unfold inquire_dim_unlimited. safe_steps fail reported_leaf. Qed.

Lemma reported_inquire_dim_pnetcdf name dimsize is_unlimited w :
  safe (fun _ => true) (fun '(rv, _, _, w') => reported rv w')
    (inquire_dim_pnetcdf name dimsize is_unlimited w).
Proof.
  unfold inquire_dim_pnetcdf.
  safe_steps ltac:(apply reported_inquire_dim_unlimited) reported_leaf.
Qed.

Lemma reported_SMIOL_inquire_dim file dimname dimsize is_unlimited w :
  safe (fun _ => true) (fun '(rv, _, _, w') => reported rv w')
    (SMIOL_inquire_dim file dimname dimsize is_unlimited w).
Proof.
  unfold SMIOL_inquire_dim.
  safe_steps ltac:(apply reported_inquire_dim_pnetcdf) reported_leaf.
Qed.

Lemma reported_att_varid varname w :
  safe (fun _ => true)
    (fun a => match a with
              | inl b => reported (fst b) (snd b)
              | inr _ => True
              end)
    (att_varid varname w).
Proof. unfold att_varid. safe_steps fail reported_leaf. Qed.

Lemma reported_inquire_att_value varidp aname att xtypep lenp att_type att_len
  w :
  safe (fun _ => true) (fun '(rv, _, _, w') => reported rv w')
    (inquire_att_value varidp aname att xtypep lenp att_type att_len w).
Proof. unfold inquire_att_value. safe_steps fail reported_leaf. Qed.

Lemma reported_SMIOL_inquire_att file varname att_name att_type att_len att w :
  safe (fun _ => true) (fun '(rv, _, _, w') => reported rv w')
    (SMIOL_inquire_att file varname att_name att_type att_len att w).
Proof.
  unfold SMIOL_inquire_att.
  safe_steps ltac:(first [ apply reported_att_varid
                         | apply reported_inquire_att_value ])
             reported_leaf.
Qed.

Lemma reported_inquire_var_dimnames n i dimids_ptr dimids dimnames w :
  safe (fun _ => true) (fun '(rv, _, w') => reported rv w')
    (inquire_var_dimnames n i dimids_ptr dimids dimnames w).
Proof.
  revert i dimnames. induction n as [|n IH]; intros i dimnames;
    cbn [inquire_var_dimnames].
  - safe_steps fail reported_leaf.
  - safe_steps ltac:(apply IH) reported_leaf.
Qed.

Lemma reported_SMIOL_inquire_var file varname vartype ndims dimnames w :
  safe (fun _ => true) (fun '(rv, _, _, _, w') => reported rv w')
    (SMIOL_inquire_var file varname vartype ndims dimnames w).
Proof.
  unfold SMIOL_inquire_var.
  safe_steps ltac:(apply reported_inquire_var_dimnames) reported_leaf.
Qed.

Lemma reported_inquire_dimsizes n file names dimsizes u w :
  safe (fun _ => true) (fun '(rv, _, _, w') => reported rv w')
    (inquire_dimsizes n file names dimsizes u w).
Proof.
  revert dimsizes u w. induction n as [|n IH]; intros dimsizes u w;
    cbn [inquire_dimsizes]; unfold read_string.
  - safe_steps fail reported_leaf.
  - safe_steps ltac:(first [ apply IH | apply reported_SMIOL_inquire_dim ])
               reported_leaf.
Qed.

Lemma reported_build_start_count file varname decomp write_or_read w :
  safe (fun _ => true)
    (fun a => match fst a with
              | inl rv => reported rv (snd a)
              | inr _ => True
              end)
    (build_start_count file varname decomp write_or_read w).
Proof.
  unfold build_start_count.
  safe_steps ltac:(first [ apply reported_SMIOL_inquire_var
                         | apply reported_inquire_dimsizes
                         | apply safe_alloc_dimnames; reflexivity
                         | apply safe_free_all; reflexivity ])
             reported_leaf.
Qed.

Lemma reported_define_var_dimids n i dimnames dimids_ptr dimids w :
  safe (fun _ => true)
    (fun a => match a with
              | inl b => reported (fst b) (snd b)
              | inr _ => True
              end)
    (define_var_dimids n i dimnames dimids_ptr dimids w).
Proof.
  revert i dimids. induction n as [|n IH]; intros i dimids;
    cbn [define_var_dimids].
  - safe_steps fail reported_leaf.
  - safe_steps ltac:(apply IH) reported_leaf.
Qed.

Ltac reported_sub :=
  first
    [ apply safe_free_all; reflexivity
    | apply reported_build_start_count
    | apply reported_define_var_dimids
    | apply reported_att_varid
    | apply reported_SMIOL_inquire_dim
    | apply reported_SMIOL_inquire_var
    | apply reported_SMIOL_inquire_att ].

Lemma reported_run_op file op w :
  is_transfer op = false ->
  safe (fun _ => true) (fun a => reported (fst a) (snd a)) (run_op file op w).
Proof.
  intros Ht. destruct op; cbn [run_op];
    try (destruct decomp; [discriminate Ht|]).
  - unfold SMIOL_define_dim. safe_steps fail reported_leaf.
  - unfold SMIOL_define_var. safe_steps reported_sub reported_leaf.
  - unfold SMIOL_define_att. safe_steps reported_sub reported_leaf.
  - safe_steps reported_sub reported_leaf.
  - safe_steps reported_sub reported_leaf.
  - safe_steps reported_sub reported_leaf.
  - unfold SMIOL_put_var, put_var_queue, put_var_enqueue.
    safe_steps reported_sub reported_leaf.
  - unfold SMIOL_get_var. safe_steps reported_sub reported_leaf.
  - unfold SMIOL_sync_file. safe_steps fail reported_leaf.
  - unfold SMIOL_set_frame. safe_steps fail reported_leaf.
  - unfold SMIOL_get_frame. safe_steps fail reported_leaf.
Qed.

(** X13.  An operation that does not transfer a decomposed field and
    returns [SMIOL_LIBRARY_ERROR] leaves in the context the backend as the
    library and a status that is an error, the one of the failed call of the
    run, so that [SMIOL_lib_error_string] gives the backend's message for
    it; with any other code the operation leaves the context as it was. *)
Theorem library_error_is_reported strerror file op w tr rv w' :
  is_transfer op = false ->
  exec (run_op file op w) tr (Returned (rv, w')) ->
  (rv = Code SMIOL_LIBRARY_ERROR ->
   lib_ierr (w_ctx w') <> NC_NOERR /\
   (forall e, failed_status tr = Some e -> lib_ierr (w_ctx w') = e) /\
   SMIOL_lib_error_string strerror (Some (w_ctx w')) =
   strerror (lib_ierr (w_ctx w'))) /\
  (rv <> Code SMIOL_LIBRARY_ERROR -> w_ctx w' = w_ctx w).
Proof.
  intros Ht H.
  pose proof (proj2 (safe_exec _ _ _ _ _ (reported_run_op file op w Ht) H)
                _ eq_refl) as Hr.
  unfold reported in Hr. cbn [fst snd] in Hr.
  destruct (run_op_status _ _ _ _ _ _ H) as (_ & _ & Hc & Hf).
  unfold latched in Hc. split.
  - intros E. destruct (Hr E) as [Hty Hne]. split; [exact Hne|]. split.
    + intros e He. rewrite Hc, He. reflexivity.
    + unfold SMIOL_lib_error_string. rewrite Hty. reflexivity.
  - intros Hn. destruct (failed_status tr) as [e|].
    + exfalso. apply Hn, Hf. discriminate.
    + exact Hc.
Qed.

Lemma library_error_is_reported_witness :
  lib_ierr (w_ctx leader0_world) = -36 /\
  forall strerror,
    SMIOL_lib_error_string strerror (Some (w_ctx leader0_world)) = strerror (-36).
Proof.
  split; [reflexivity|]. intros strerror.
  exact (proj2 (proj2 (proj1 (library_error_is_reported strerror PTR define_x
                                (world0 PNETCDF_DATA_MODE) _ _ _
                                eq_refl leader0_exec) eq_refl))).
Defined.

(** X14.  With a null file handle every operation returns
    [SMIOL_INVALID_ARGUMENT] at once: it makes no call, cannot fail in
    another way, and leaves the context and the file as they were. *)
Theorem null_file_is_rejected op w tr o :
  exec (run_op NULL op w) tr o ->
  tr = [] /\ o = Returned (Code SMIOL_INVALID_ARGUMENT, w).
Proof.
  intros H. destruct op; cbn [run_op] in H.
  all: unfold SMIOL_define_dim, SMIOL_define_var, SMIOL_define_att,
         SMIOL_inquire_dim, SMIOL_inquire_var, SMIOL_inquire_att,
         SMIOL_put_var, SMIOL_get_var, SMIOL_sync_file, SMIOL_set_frame,
         SMIOL_get_frame in H.
  all: api_steps H; inj_ret.
  all: split; first [reflexivity|assumption].
Qed.

Lemma null_file_is_rejected_witness :
  exec (run_op NULL define_x (world0 PNETCDF_DATA_MODE)) []
    (Returned (Code SMIOL_INVALID_ARGUMENT, world0 PNETCDF_DATA_MODE)) /\
  (@nil event = [] /\
   Returned (Code SMIOL_INVALID_ARGUMENT, world0 PNETCDF_DATA_MODE) =
   Returned (Code SMIOL_INVALID_ARGUMENT, world0 PNETCDF_DATA_MODE)).
Proof.
  assert (H : exec (run_op NULL define_x (world0 PNETCDF_DATA_MODE)) []
                (Returned (Code SMIOL_INVALID_ARGUMENT,
                           world0 PNETCDF_DATA_MODE)))
    by (split; reflexivity).
  split; [exact H|].
  exact (null_file_is_rejected _ _ _ _ H).
Defined.
(** ** Initialisation and finalisation *)

Lemma lifecycle_run_exec {A : Type} size rank (p : Lifecycle.prog A) next :
  Lifecycle.exec p (snd (Lifecycle.run size rank p next))
    (fst (Lifecycle.run size rank p next)).
Proof.
  revert next. induction p as [a| |c k IH]; intros next; simpl; auto.
  destruct (Lifecycle.answer size rank c next) as [r next'] eqn:Hh.
  specialize (IH r next').
  destruct (Lifecycle.run size rank (k r) next') as [o tr]. simpl in *.
  exists r, tr. auto.
Qed.

Ltac life_head p :=
  lazymatch p with
  | Lifecycle.bind ?q _ => life_head q
  | _ => p
  end.

(** Symbolic execution of a hypothesis [H : Lifecycle.exec p tr o]. *)
Ltac life_step H :=
  cbn [Lifecycle.exec Lifecycle.bind Lifecycle.do_call] in H;
  lazymatch type of H with
  | ex _ =>
      let r := fresh "r" in
      let tr := fresh "tr" in
      destruct H as (r & tr & -> & H)
  | _ = [] /\ _ => destruct H as [-> H]
  | Lifecycle.exec ?p _ _ =>
      let h := life_head p in
      lazymatch h with
      | if ?b then _ else _ =>
          first [ match goal with Hb : b = _ |- _ => rewrite Hb in H end
                | destruct b eqn:? ]
      | match ?x with _ => _ end => destruct x eqn:?
      end
  end.

Ltac life_steps H :=
  repeat life_step H;
  try match type of H with
      | Returned _ = Returned _ => injection H as -> ->
      | Returned _ = Crashed => discriminate H
      | Crashed = Returned _ => discriminate H
      end.

Ltac life_leaf :=
  cbn [Lifecycle.allocations Lifecycle.frees Lifecycle.made
       Lifecycle.comm_frees app List.filter is_success
       fcomm comm_size comm_rank num_io_tasks io_stride lib_ierr lib_type
       async_io_comm async_group_comm ctx_checksum];
  repeat match goal with
         | H : (_ =? 0) = false |- _ => rewrite H
         | H : (_ =? 0) = true |- _ => rewrite H
         end;
  cbn [negb];
  repeat match goal with
         | |- _ /\ _ => split
         | |- _ = _ => reflexivity
         | |- _ -> _ => intros ?
         | H : false = true |- _ => discriminate H
         | H : (?s =? 0) || _ = false |- ?s <> 0 =>
             apply orb_false_iff in H; destruct H as [H _];
             apply Z.eqb_neq, H
         end.

(** X15.  The outcomes of [SMIOL_init].  When it leaves the handle null,
    the code is not success, the block of the context (if one was
    allocated) is released, and no communicator is freed.  When it leaves a
    context, the code is success, nothing is released, the context holds
    the arguments, no library error and a valid checksum, its three
    communicators are the duplicate and the two splits made in this run,
    and the stride is not zero. *)
Theorem init_outcomes comm tasks stride context tr rv left :
  Lifecycle.exec (Lifecycle.SMIOL_init comm tasks stride context) tr
    (Returned (rv, left)) ->
  Lifecycle.init_post tasks stride tr rv left.
Proof.
  unfold Lifecycle.SMIOL_init. intros H.
  life_steps H; unfold Lifecycle.init_post; life_leaf.
Qed.

Lemma init0_exec :
  Lifecycle.exec (Lifecycle.SMIOL_init 91 4 2 PTR) (snd Lifecycle.init0_run)
    (Returned (Code SMIOL_SUCCESS, Lifecycle.init0_left)).
Proof. exact (lifecycle_run_exec 8 3 _ 1000). Qed.

Lemma init_outcomes_witness :
  Lifecycle.init_post 4 2 (snd Lifecycle.init0_run) (Code SMIOL_SUCCESS)
    Lifecycle.init0_left.
Proof. exact (init_outcomes _ _ _ _ _ _ _ init0_exec). Defined.

(** X16.  [SMIOL_finalize] allocates nothing, and it nulls the handle
    exactly when it releases the block of the context: either the handle is
    null and the block is released once, or the handle and the context are
    as they were, no block is released and the code is not success.  With
    success the three communicators of the context are freed, in the order
    [fcomm], [async_io_comm], [async_group_comm]. *)
Theorem finalize_outcomes p c tr rv left :
  Lifecycle.exec (Lifecycle.SMIOL_finalize (Some (Some (p, c)))) tr
    (Returned (rv, left)) ->
  Lifecycle.finalize_post p c tr rv left.
Proof.
  unfold Lifecycle.SMIOL_finalize. intros H.
  life_steps H; unfold Lifecycle.finalize_post; life_leaf.
Qed.

Lemma finalize0_exec :
  Lifecycle.exec
    (Lifecycle.SMIOL_finalize (Some Lifecycle.init0_left))
    (snd Lifecycle.finalize0_run) (Returned (Code SMIOL_SUCCESS, None)).
Proof. exact (lifecycle_run_exec 8 3 _ 2000). Qed.

Lemma finalize_outcomes_witness :
  exists p c,
    Lifecycle.init0_left = Some (p, c) /\
    Lifecycle.finalize_post p c (snd Lifecycle.finalize0_run)
      (Code SMIOL_SUCCESS) None.
Proof.
  eexists. eexists. split; [reflexivity|].
  exact (finalize_outcomes _ _ _ _ _ finalize0_exec).
Defined.

(** X17.  Finalising undoes initialising.  On the context that a
    successful [SMIOL_init] has left, whatever library errors the
    operations have recorded in it since, [SMIOL_finalize] does not reject
    the checksum, and when it succeeds it has freed exactly the three
    communicators that [SMIOL_init] had made, released exactly the block
    that [SMIOL_init] had allocated, and nulled the handle. *)
Theorem finalize_undoes_init comm tasks stride context tr1 p c c' tr2 rv left :
  Lifecycle.exec (Lifecycle.SMIOL_init comm tasks stride context) tr1
    (Returned (Code SMIOL_SUCCESS, Some (p, c))) ->
  Lifecycle.same_context c c' ->
  Lifecycle.exec (Lifecycle.SMIOL_finalize (Some (Some (p, c')))) tr2
    (Returned (rv, left)) ->
  rv <> Code SMIOL_INVALID_ARGUMENT /\
  (rv = Code SMIOL_SUCCESS ->
   left = None /\
   Lifecycle.comm_frees tr2 = Lifecycle.made tr1 /\
   Lifecycle.frees tr2 = Lifecycle.allocations tr1).
Proof.
  unfold Lifecycle.SMIOL_init, Lifecycle.SMIOL_finalize.
  intros H1 (Ef & Ei & Eg & Ek) H2.
  life_steps H1; try discriminate.
  cbn [fcomm async_io_comm async_group_comm ctx_checksum] in *.
  rewrite Ef, Ei, Eg, Ek in H2. cbn [Z.eqb Pos.eqb negb] in H2.
  life_steps H2.
  all: split; [discriminate|]; intros E; try discriminate E.
  cbn [Lifecycle.allocations Lifecycle.frees Lifecycle.made
       Lifecycle.comm_frees app].
  repeat split.
Qed.

Lemma finalize_undoes_init_witness :
  Lifecycle.made (snd Lifecycle.init0_run) = [1001; 1002; 1003] /\
  Lifecycle.comm_frees (snd Lifecycle.finalize0_run) =
  Lifecycle.made (snd Lifecycle.init0_run) /\
  Lifecycle.frees (snd Lifecycle.finalize0_run) =
  Lifecycle.allocations (snd Lifecycle.init0_run).
Proof.
  split; [reflexivity|].
  refine (proj2 (proj2 (finalize_undoes_init 91 4 2 PTR _ 1000 _ _ _ _ _
                          init0_exec _ finalize0_exec) eq_refl)).
  repeat split.
Defined.
(** ** Undefined behaviour *)

Lemma defined_bind {A B : Type} G (R1 : A -> Prop) (R : B -> Prop)
  (p : prog A) (f : A -> prog B) :
  defined G R1 p -> (forall a, R1 a -> defined G R (f a)) ->
  defined G R (bind p f).
Proof.
  intros Hp Hf. induction p as [a| |c k IH]; cbn [bind defined] in *.
  - apply Hf, Hp.
  - exact Hp.
  - intros r Hr. apply IH, Hp, Hr.
Qed.

Lemma defined_weaken {A : Type} G (R R' : A -> Prop) (p : prog A) :
  (forall a, R a -> R' a) -> defined G R p -> defined G R' p.
Proof.
  intros HR. induction p as [a| |c k IH]; cbn [defined]; auto.
Qed.

Lemma defined_exec {A : Type} n (R : A -> Prop) (p : prog A) tr o :
  defined (answer_ok n) R p -> exec p tr o -> answers_ok n tr = true ->
  exists a, o = Returned a /\ R a.
Proof.
  revert tr. induction p as [a| |c k IH]; intros tr Hp He Ht;
    cbn [defined exec] in *.
  - destruct He as [-> ->]. exists a. auto.
  - contradiction.
  - destruct He as (r & tr' & -> & He). cbn [answers_ok forallb] in Ht.
    apply andb_true_iff in Ht. destruct Ht as [Hr Ht].
    exact (IH r tr' (Hp r Hr) He Ht).
Qed.

Lemma defined_ret {A : Type} G (R : A -> Prop) a : R a -> defined G R (Ret a).
Proof. exact id. Qed.

Lemma defined_vis {A : Type} G (R : A -> Prop) c (k : result c -> prog A) :
  (forall r, G c r = true -> defined G R (k r)) -> defined G R (Vis c k).
Proof. exact id. Qed.

(** What an answer that is as [answer_ok] says tells about it. *)
Ltac answer_norm H :=
  cbn [answer_ok] in H;
  first
    [ lazymatch type of H with
      | (if String.eqb ?s _ then _ else _) = true =>
          let b := eval vm_compute in (String.eqb s "ndimsp") in
          change (String.eqb s "ndimsp") with b in H; cbn iota in H;
          first [ apply Z.eqb_eq in H; subst | clear H ]
      | fits _ _ = true => idtac
      | negb _ = true => apply negb_true_iff in H
      end
    | clear H ].

(** One step through a program for [defined]. *)
Ltac defined_step sub leaf :=
  unfold on_io_task, bcast_ierr, bcast_int, read_local, or_return, set_default,
    store_through, join_writer, switch_to_define_mode, switch_to_data_mode;
  cbn [bind do_call option_map];
  lazymatch goal with
  | |- defined _ _ (Ret _) => apply defined_ret; cbn beta; world_norm; leaf
  | |- defined _ _ Crash => exfalso; leaf
  | |- defined _ _ (Vis _ _) =>
      let r := fresh "r" in
      let Hr := fresh "Hr" in
      apply defined_vis; intros r Hr; answer_norm Hr
  | |- defined _ _ ?p =>
      let h := bind_head p in
      lazymatch h with
      | if ?b then _ else _ =>
          first [ match goal with Hb : b = _ |- _ => rewrite Hb end
                | destruct b eqn:? ]
      | match ?x with _ => _ end =>
          first [ is_var x; destruct x | destruct x eqn:? ]
      | _ => first [ sub | eapply defined_bind; [sub|intros ? ?; world_norm] ]
      end
  end.

Ltac defined_steps sub leaf := repeat (defined_step sub leaf).

Ltac trivial_leaf := first [ exact I | reflexivity | assumption | discriminate ].

Lemma defined_free_all G ps : defined G (fun _ => True) (free_all ps).
Proof.
  induction ps as [|p ps IH]; cbn [free_all bind do_call defined].
  - exact I.
  - intros _ _. exact IH.
Qed.

Lemma defined_alloc_dimnames n k allocated dimnames_ptr :
  defined (answer_ok n)
    (fun a => exists ps, a = Some ps /\ length ps = (length allocated + k)%nat)
    (alloc_dimnames k allocated dimnames_ptr).
Proof.
  revert allocated. induction k as [|k IH]; intros allocated;
    cbn [alloc_dimnames].
  - exists allocated. split; [reflexivity|lia].
  - cbn [bind do_call]. apply defined_vis. intros r Hr. answer_norm Hr.
    rewrite Hr. eapply defined_weaken; [|apply IH].
    intros a (ps & -> & Hl). exists ps. split; [reflexivity|].
    rewrite Hl, length_app. cbn [length]. lia.
Qed.

Lemma defined_inquire_dim_unlimited n dimidp dimsize is_unlimited w :
  defined (answer_ok n) (fun _ => True)
    (inquire_dim_unlimited dimidp dimsize is_unlimited w).
Proof. unfold inquire_dim_unlimited. defined_steps fail trivial_leaf. Qed.

Lemma defined_inquire_dim_pnetcdf n name d is_unlimited w :
  defined (answer_ok n) (fun _ => True)
    (inquire_dim_pnetcdf name (Some d) is_unlimited w).
Proof.
  unfold inquire_dim_pnetcdf.
  defined_steps ltac:(apply defined_inquire_dim_unlimited) trivial_leaf.
Qed.

Lemma defined_SMIOL_inquire_dim n file dimname d is_unlimited w :
  defined (answer_ok n) (fun _ => True)
    (SMIOL_inquire_dim file dimname (Some d) is_unlimited w).
Proof.
  unfold SMIOL_inquire_dim.
  defined_steps ltac:(apply defined_inquire_dim_pnetcdf) trivial_leaf.
Qed.

(** A name that fits a buffer fits a larger one. *)
Lemma fits_mono c1 c2 s : c1 <= c2 -> fits c1 s = true -> fits c2 s = true.
Proof. unfold fits. intros Hc H. apply Z.ltb_lt in H. apply Z.ltb_lt. lia. Qed.

Lemma defined_inquire_var_dimnames n k i dimids_ptr dimids dimnames w :
  0 <= i -> (Z.to_nat i + k <= length dimnames)%nat ->
  Forall (fun b => roomy b = true) dimnames ->
  (forall j b, (j < Z.to_nat i)%nat -> dimnames !! j = Some b ->
               holds_name b = true) ->
  defined (answer_ok n)
    (fun a => length (snd (fst a)) = length dimnames /\
              (is_success (fst (fst a)) = true ->
               forall j b, (j < Z.to_nat i + k)%nat ->
                           snd (fst a) !! j = Some b -> holds_name b = true))
    (inquire_var_dimnames k i dimids_ptr dimids dimnames w).
Proof.
  revert i dimnames. induction k as [|k IH]; intros i dimnames Hi Hl Hr Hn;
    cbn [inquire_var_dimnames].
  - defined_steps fail ltac:(cbn [fst snd]; split; [reflexivity|]).
    intros _ j b Hj. apply Hn. lia.
  - destruct (dimnames !! Z.to_nat i) as [b|] eqn:E.
    2: { apply lookup_ge_None in E. lia. }
    destruct b as [|capacity content].
    { apply defined_ret. cbn [fst snd is_success]. split; [reflexivity|discriminate]. }
    assert (Hc : 64 <= capacity).
    { rewrite Forall_lookup in Hr. specialize (Hr _ _ E). cbn [roomy] in Hr. lia. }
    defined_steps fail fail.
    all: lazymatch goal with
         | |- defined _ _ Crash =>
             exfalso;
             match goal with
             | H : (_ || _) = true |- _ =>
                 apply orb_true_iff in H; destruct H as [H|H];
                 [ cbn [snd] in H;
                   first [ discriminate H
                         | apply negb_true_iff in H;
                           rewrite (fits_mono 64 capacity) in H;
                           [discriminate H|exact Hc|assumption] ]
                 | apply Z.ltb_lt in H; lia ]
             end
         | |- defined _ _ (Ret _) =>
             apply defined_ret; cbn [fst snd is_success];
             split; [apply length_insert|discriminate]
         | |- _ =>
             eapply defined_weaken; [|apply IH];
             [ cbn beta; intros a [Ha Hs]; split;
               [ rewrite Ha; apply length_insert
               | intros Hok j b Hj; apply Hs; [exact Hok|lia] ]
             | lia
             | rewrite length_insert; lia
             | apply Forall_insert; [exact Hr|cbn [roomy]; lia]
             | intros j b Hj Hb;
               destruct (decide (j = Z.to_nat i)) as [->|Hne];
               [ rewrite list_lookup_insert_eq in Hb by lia;
                 injection Hb as <-; cbn [holds_name];
                 apply (fits_mono 64); [exact Hc|assumption]
               | rewrite list_lookup_insert_ne in Hb by congruence;
                 apply (Hn j b); [lia|exact Hb] ] ]
         end.
Qed.

Lemma defined_SMIOL_inquire_var n file varname vartype ndims dimnames w :
  match dimnames with
  | Some bufs => (Z.to_nat n <= length bufs)%nat /\
                 Forall (fun b => roomy b = true) bufs
  | None => True
  end ->
  defined (answer_ok n)
    (fun '(rv, _, nd, names, _) =>
       match dimnames, names with
       | Some bufs, Some out =>
           length out = length bufs /\
           (is_success rv = true ->
            forall j b, (j < Z.to_nat n)%nat -> out !! j = Some b ->
                        holds_name b = true)
       | None, None => True
       | _, _ => False
       end /\
       (is_success rv = true -> ndims <> None -> nd = Some n))
    (SMIOL_inquire_var file varname vartype ndims dimnames w).
Proof.
  intros Hb. unfold SMIOL_inquire_var.
  defined_steps
    ltac:(eapply defined_bind;
          [ apply defined_inquire_var_dimnames;
            [ lia
            | rewrite Z2Nat.inj_0; apply Hb
            | apply Hb
            | rewrite Z2Nat.inj_0; intros; lia ]
          | cbn beta; intros [[? ?] ?] [? ?]; cbn [fst snd] in *])
    ltac:(cbn beta iota; cbn [is_success]; split;
          [ try match goal with
                | |- context [match ?d with Some _ => _ | None => _ end] =>
                    is_var d; destruct d
                end;
            first [ exact I
                  | split; [reflexivity|discriminate]
                  | split; [assumption|]; rewrite Z2Nat.inj_0 in *; assumption ]
          | intros; first [reflexivity|discriminate|congruence] ]).
Qed.

Lemma defined_inquire_dimsizes n k file names dimsizes u w :
  (k <= length names)%nat -> (k <= length dimsizes)%nat ->
  (forall j b, (j < k)%nat -> names !! j = Some b -> holds_name b = true) ->
  defined (answer_ok n) (fun _ => True)
    (inquire_dimsizes k file names dimsizes u w).
Proof.
  revert dimsizes u w. induction k as [|k IH]; intros dimsizes u w Hn Hd Hh;
    cbn [inquire_dimsizes]; unfold read_string.
  - exact I.
  - destruct (names !! k) as [b|] eqn:En; [|apply lookup_ge_None in En; lia].
    destruct (dimsizes !! k) as [d|] eqn:Ed; [|apply lookup_ge_None in Ed; lia].
    pose proof (Hh k b ltac:(lia) En) as Hb.
    destruct b as [|capacity [s|]]; try discriminate Hb.
    cbn [holds_name] in Hb. cbn [bind]. rewrite Hb, orb_true_r. cbn [bind].
    defined_steps
      ltac:(first
              [ apply IH;
                [ lia
                | try match goal with
                      | |- context [match ?o with Some _ => _ | None => _ end] =>
                          destruct o
                      end;
                  rewrite ?length_insert; lia
                | intros j b Hj; apply Hh; lia ]
              | eapply defined_bind;
                [apply defined_SMIOL_inquire_dim|intros [[[? ?] ?] ?] _] ])
      trivial_leaf.
Qed.

(** What the tests of the program and the results of the calls tell. *)
Ltac def_norm :=
  repeat match goal with
         | H : negb _ = false |- _ => apply negb_false_iff in H
         | H : negb _ = true |- _ => apply negb_true_iff in H
         | H : ?c = true -> _, H' : ?c = true |- _ => specialize (H H')
         | H : Some _ <> None -> _ |- _ =>
             specialize (H ltac:(discriminate))
         | H : ?x = Some _ |- _ => is_var x; subst x
         | H : _ /\ _ |- _ => destruct H
         | H : match ?o with Some _ => _ | None => False end |- _ =>
             destruct o; [|contradiction]
         end;
  cbn [default from_option fst snd] in *; unfold id in *;
  cbn [from_option] in *.

Lemma defined_build_start_count n file varname decomp write_or_read w :
  defined (answer_ok n) (fun _ => True)
    (build_start_count file varname decomp write_or_read w).
Proof.
  unfold build_start_count.
  defined_steps
    ltac:(def_norm;
          first
            [ eapply defined_bind;
              [ apply defined_SMIOL_inquire_var;
                first
                  [ exact I
                  | split;
                    [ rewrite length_map; lia
                    | apply List.Forall_map, List.Forall_forall;
                      intros; reflexivity ] ]
              | intros [[[[? ?] ?] ?] ?] [? ?] ]
            | eapply defined_bind;
              [ apply defined_alloc_dimnames
              | cbn beta; intros ? (? & -> & ?) ]
            | eapply defined_bind;
              [ apply defined_inquire_dimsizes;
                [ rewrite ?length_map in *; cbn [length] in *; lia
                | rewrite length_replicate; lia
                | assumption ]
              | intros [[[? ?] ?] ?] _ ]
            | eapply defined_bind;
              [ apply defined_free_all | intros _ _ ] ])
    trivial_leaf.
Qed.

Lemma defined_define_var_dimids n k i dimnames dimids_ptr dimids w :
  0 <= i ->
  match dimnames with
  | Some names => (Z.to_nat i + k <= length names)%nat
  | None => k = 0%nat
  end ->
  defined (answer_ok n) (fun _ => True)
    (define_var_dimids k i dimnames dimids_ptr dimids w).
Proof.
  revert i dimids. induction k as [|k IH]; intros i dimids Hi Hn;
    cbn [define_var_dimids].
  - exact I.
  - destruct dimnames as [names|]; [|discriminate Hn].
    destruct (names !! Z.to_nat i) as [name|] eqn:E;
      [|apply lookup_ge_None in E; lia].
    defined_steps ltac:(apply IH; lia) trivial_leaf.
Qed.

Ltac defined_sub :=
  def_norm;
  first
    [ eapply defined_bind; [apply defined_build_start_count|intros ? _]
    | eapply defined_bind; [apply defined_free_all|intros _ _]
    | eapply defined_bind;
      [ apply defined_SMIOL_inquire_dim | intros ? _ ]
    | eapply defined_bind;
      [ apply defined_SMIOL_inquire_var; assumption | intros ? _ ] ].

Lemma defined_run_op n file op w :
  well_formed n op = true ->
  defined (answer_ok n) (fun _ => True) (run_op file op w).
Proof.
  intros Hw. destruct op; cbn [run_op well_formed] in *.
  - unfold SMIOL_define_dim. defined_steps fail trivial_leaf.
  - unfold SMIOL_define_var.
    defined_steps
      ltac:(eapply defined_bind;
            [ apply defined_define_var_dimids;
              [ lia
              | destruct dimnames;
                [ apply Nat.leb_le in Hw; lia
                | match goal with
                  | H : (_ >? 0) = false |- _ =>
                      rewrite Z.gtb_ltb in H; apply Z.ltb_ge in H; lia
                  end ] ]
            | intros ? _ ])
      trivial_leaf.
  - unfold SMIOL_define_att, att_varid. defined_steps fail trivial_leaf.
  - destruct dimsize; [|discriminate Hw]. defined_steps defined_sub trivial_leaf.
  - assert (match dimnames with
            | Some bufs => (Z.to_nat n <= length bufs)%nat /\
                           Forall (fun b => roomy b = true) bufs
            | None => True
            end).
    { destruct dimnames as [bufs|]; [|exact I].
      apply andb_true_iff in Hw. destruct Hw as [Hl Hr].
      split; [apply Nat.leb_le, Hl|].
      apply List.Forall_forall. rewrite forallb_forall in Hr. exact Hr. }
    defined_steps defined_sub trivial_leaf.
  - unfold SMIOL_inquire_att, att_varid, inquire_att_value.
    defined_steps fail trivial_leaf.
  - unfold SMIOL_put_var, put_var_transfer, put_var_aggregate, put_var_queue,
      put_var_enqueue.
    defined_steps defined_sub trivial_leaf.
  - unfold SMIOL_get_var, get_var_transfer.
    defined_steps defined_sub trivial_leaf.
  - unfold SMIOL_sync_file. defined_steps fail trivial_leaf.
  - unfold SMIOL_set_frame. defined_steps fail trivial_leaf.
  - unfold SMIOL_get_frame. defined_steps fail trivial_leaf.
Qed.

(** A name of 64 characters does not fit the buffer of 64 bytes that it is
    written to: on an I/O task the loop over the names ends in undefined
    behaviour. *)
Lemma name_overruns_buffer :
  let name := String.concat ""%string (repeat "x"%string 64) in
  String.length name = 64%nat /\
  exec (inquire_var_dimnames 1 0 1000 (Some [3]) [buffer 64 None]
          (world0 PNETCDF_DATA_MODE))
       [Ev (ncmpi_inq_dimname 7 3) (NC_NOERR, name);
        Ev (MPI_Bcast "ierr" (Some NC_NOERR) 1 MPI_INT 5) NC_NOERR]
       Crashed.
Proof.
  split; [reflexivity|].
  vm_compute. repeat (eexists; try reflexivity).
Qed.

Lemma inquire_var2_exec :
  exec (run_op PTR inquire_var2 (world0 PNETCDF_DATA_MODE)) inquire_var2_trace
    (fst inquire_var2_run).
Proof.
  exact (run_exec scripted _ (mk_script [0; 1; 0; 5; 0; 2; 0; 0; 0] [] 1000)).
Qed.

(** X18.  The operations are free of the faults that the model follows (a
    null pointer dereferenced, an array of names, sizes or ids indexed
    beyond its length, a pointer freed that is not heap memory, a name
    buffer overrun) in a run in which [malloc] never returns a null
    pointer, the number of dimensions that the group leader reports for the
    variable is always the same [n], and every dimension name that the
    backend writes or the group leader broadcasts is shorter than 64
    characters, provided that [SMIOL_inquire_dim] is given a [dimsize]
    pointer that is not null, [SMIOL_define_var] at least as many names as
    dimensions, and [SMIOL_inquire_var] at least [n] name buffers, each of
    them null or of 64 bytes at least: every such run returns.  The data
    buffers [buf] and [att] are the caller's and are passed on as
    addresses, whatever their sizes. *)
Theorem operations_have_defined_behaviour n file op w tr o :
  well_formed n op = true ->
  answers_ok n tr = true ->
  exec (run_op file op w) tr o ->
  exists a, o = Returned a.
Proof.
  intros Hw Ht H.
  destruct (defined_exec n _ _ _ _ (defined_run_op n file op w Hw) H Ht)
    as (a & -> & _).
  exists a. reflexivity.
Qed.

Lemma operations_have_defined_behaviour_witness :
  well_formed 2 inquire_var2 = true /\
  answers_ok 2 inquire_var2_trace = true /\
  exists a, fst inquire_var2_run = Returned a.
Proof.
  split; [reflexivity|]. split; [reflexivity|].
  exact (operations_have_defined_behaviour 2 PTR inquire_var2
           (world0 PNETCDF_DATA_MODE) inquire_var2_trace _ eq_refl eq_refl
           inquire_var2_exec).
Defined.

Lemma null_dimsize_exec :
  exec (SMIOL_inquire_dim PTR (Some "x"%string) None (Some 7)
          (world0 PNETCDF_DATA_MODE))
       (snd null_dimsize_run) Crashed.
Proof. exact (run_exec scripted _ (mk_script [-46] [] 1000)). Qed.

(** X19.  [SMIOL_inquire_dim] with a null [dimsize] and an [is_unlimited]
    that is not null dereferences the null pointer exactly when the inquiry
    of the dimension id fails: a run has undefined behaviour if and only if
    the first status that it receives is not [NC_NOERR], because the error
    path stores -1 through [dimsize] without a test. *)
Theorem inquire_dim_null_dimsize name u w tr o :
  exec (SMIOL_inquire_dim PTR (Some name) None (Some u) w) tr o ->
  (o = Crashed <->
   exists e, head (received_statuses tr) = Some e /\ e <> NC_NOERR).
Proof.
  unfold SMIOL_inquire_dim, inquire_dim_pnetcdf, inquire_dim_unlimited.
  intros H. api_steps H; subst o;
    cbn [received_statuses ierr_bcast String.eqb Ascii.eqb Bool.eqb head];
    (split; [intros E; try discriminate E|intros (e & He & Hne)]).
  all: try (injection He as <-).
  all: try reflexivity.
  all: try (eexists; split; [reflexivity|]; apply Z.eqb_neq; assumption).
  all: try (exfalso; apply Hne, Z.eqb_eq; assumption).
Qed.

Lemma inquire_dim_null_dimsize_witness :
  received_statuses (snd null_dimsize_run) = [-46] /\
  (fst null_dimsize_run = Crashed <->
   exists e, head (received_statuses (snd null_dimsize_run)) = Some e /\
             e <> NC_NOERR).
Proof.
  split; [reflexivity|].
  exact (inquire_dim_null_dimsize _ _ _ _ _ null_dimsize_exec).
Defined.
